(** * domainscan: a verification development for [SubdomainScanner]

    The Python class [SubdomainScanner] of [src/domainscan.py] enumerates
    short labels over a fixed alphabet, probes [label.domain] over HTTP
    with a bounded number of attempts, and aggregates the hits.

    The embedding is shallow.  Pure methods are Rocq functions; methods
    that mutate the scanner or talk to the network thread a [scanner]
    record and return in the three-valued monad [res] (returns / raises /
    never returns).  The cooperative concurrency of [asyncio.gather] under
    the [asyncio.Semaphore] is a step relation on a pool of coroutines. *)

From Stdlib Require Import ZArith Lia List Ascii String Sorted.
From stdpp Require Import base gmap sets list strings.

Import ListNotations.
Set Warnings "-register-all,-clear-no-such-hyp".
Local Open Scope string_scope.
Local Open Scope list_scope.
Local Open Scope Z_scope.

(** ** Python values used by the scanner *)

(** Exceptions the modelled code can raise to its caller. *)
Inductive exn :=
| ValueError.

(** Outcome of running a piece of Python code: it returns a value, raises,
    or never returns (a coroutine suspended forever). *)
Inductive res (A : Type) :=
| Ok (a : A)
| Raises (e : exn)
| Hangs.
Arguments Ok {A} a.
Arguments Raises {A} e.
Arguments Hangs {A}.

Definition res_bind {A B : Type} (m : res A) (k : A -> res B) : res B :=
  match m with
  | Ok a => k a
  | Raises e => Raises e
  | Hangs => Hangs
  end.

Notation "'let*' x ':=' m 'in' k" := (res_bind m (fun x => k))
  (at level 10, x name, m at level 100, k at level 200).

(** [range(start, stop, step)] as the list of its values.  A zero step
    raises [ValueError]; a negative step with [start <= stop] is empty. *)
Fixpoint range_up (n : nat) (start step : Z) : list Z :=
  match n with
  | O => []
  | S n' => start :: range_up n' (start + step) step
  end.

Definition range3 (start stop step : Z) : res (list Z) :=
  if step =? 0 then Raises ValueError
  else if 0 <? step
       then Ok (range_up (Z.to_nat ((stop - start + step - 1) / step)) start step)
       else Ok (range_up (Z.to_nat ((start - stop - step - 1) / (- step))) start step).

(** [range(start, stop)]. *)
Definition range2 (start stop : Z) : list Z :=
  range_up (Z.to_nat (stop - start)) start 1.

(** [l[i:j]] for [0 <= i <= j]. *)
Definition slice {A : Type} (l : list A) (i j : Z) : list A :=
  firstn (Z.to_nat (j - i)) (skipn (Z.to_nat i) l).

(** ** Candidate generator *)

(** [string.ascii_lowercase + string.digits]. *)
Definition ascii_lowercase : string := "abcdefghijklmnopqrstuvwxyz".
Definition digits : string := "0123456789".
Definition default_chars : string := (ascii_lowercase ++ digits)%string.

(** [itertools.product(pool, repeat=n)], after the reference
    implementation in the Python documentation: the result starts as
    [[[]]] and each round extends every tuple by every element of the
    pool, [result = [x + [y] for x in result for y in pool]].  A negative
    [repeat] raises [ValueError]. *)
Definition product_round {A : Type} (pool : list A) (result : list (list A))
  : list (list A) :=
  flat_map (fun x => map (fun y => x ++ [y]) pool) result.

Fixpoint product_rounds {A : Type} (pool : list A) (n : nat) (result : list (list A))
  : list (list A) :=
  match n with
  | O => result
  | S n' => product_rounds pool n' (product_round pool result)
  end.

Definition product {A : Type} (pool : list A) (repeat : Z) : res (list (list A)) :=
  if repeat <? 0 then Raises ValueError
  else Ok (product_rounds pool (Z.to_nat repeat) [[]]).

(** [''.join(p)] for a tuple of one-character strings. *)
Definition join (p : list ascii) : string := string_of_list_ascii p.

(** [generate_subdomains] for a scanner whose [chars] attribute is [chars]. *)
Definition generate_subdomains (chars : string) (length : Z) : res (list string) :=
  let* ps := product (list_ascii_of_string chars) length in
  Ok (map join ps).

(** ** Documents and titles *)

(** The tree [BeautifulSoup(content, "html.parser")] builds: text nodes and
    tags with their children.  The document itself is the list of its
    top-level nodes. *)
Inductive node :=
| NavigableString (s : string)
| Tag (name : string) (contents : list node).

(** [find(name)]: the first tag called [name] in document order. *)
Fixpoint find_node (name : string) (n : node) : option node :=
  match n with
  | NavigableString _ => None
  | Tag nm contents =>
      if String.eqb nm name then Some n
      else (fix find_first (l : list node) : option node :=
              match l with
              | [] => None
              | c :: l' =>
                  match find_node name c with
                  | Some t => Some t
                  | None => find_first l'
                  end
              end) contents
  end.

Fixpoint find_first (name : string) (l : list node) : option node :=
  match l with
  | [] => None
  | c :: l' =>
      match find_node name c with
      | Some t => Some t
      | None => find_first name l'
      end
  end.

(** [soup.title]. *)
Definition soup_title (soup : list node) : option node := find_first "title" soup.

(** The [.string] property: a text node is its own string; a tag has a
    string only when it has exactly one child, and then it is the child's. *)
Fixpoint node_string (n : node) : option string :=
  match n with
  | NavigableString s => Some s
  | Tag _ contents =>
      match contents with
      | [c] => node_string c
      | _ => None
      end
  end.

(** [soup.title.string if soup.title else "No Title"]; a tag is always
    truthy.  [None] is Python's [None]. *)
Definition title_of (soup : list node) : option string :=
  match soup_title soup with
  | Some t => node_string t
  | None => Some "No Title"
  end.

(** ** The network *)

(** What one pass through the [try] block meets: an exception (from
    [session.get], [response.text()] or the parser), or a response with
    its status and parsed body. *)
Inductive reply :=
| Failed
| Response (status : Z) (body : list node).

(** The responder: the reply to the request for [url] made at loop index
    [attempt]. *)
Definition network := string -> Z -> reply.

(** ** The scanner *)

(** Observable effects, in the order they happen. *)
Inductive event :=
| Get (url : string) (attempt : Z)                (* [session.get(url)] at loop index [attempt] *)
| Sleep (k : Z)                                   (* [asyncio.sleep(0.1 * k)] *)
| Debug (url : string)                            (* [logger.debug] of the last failure *)
| Info (domain : string) (length : Z)             (* [logger.info] opening a length *)
| Progress (processed total found : Z).           (* [logger.info] closing a chunk *)

(** A found subdomain: [(full_domain, title)]. *)
Definition result : Type := string * option string.

(** The attributes of a [SubdomainScanner], the value of its semaphore,
    and the effects performed so far.  The [timeout] attribute is only
    handed to the HTTP client and is left out. *)
Record scanner := Scanner {
  concurrent_requests : Z;
  max_retries : Z;
  chunk_size : Z;
  chars : string;
  seen_subdomains : gset string;
  rate_limiter : Z;
  trace : list event
}.

Definition add_seen (x : string) (s : scanner) : scanner :=
  Scanner (concurrent_requests s) (max_retries s) (chunk_size s) (chars s)
          ({[ x ]} ∪ seen_subdomains s) (rate_limiter s) (trace s).

Definition set_limiter (v : Z) (s : scanner) : scanner :=
  Scanner (concurrent_requests s) (max_retries s) (chunk_size s) (chars s)
          (seen_subdomains s) v (trace s).

Definition emit (es : list event) (s : scanner) : scanner :=
  Scanner (concurrent_requests s) (max_retries s) (chunk_size s) (chars s)
          (seen_subdomains s) (rate_limiter s) (trace s ++ es).

(** [__init__]: [asyncio.Semaphore(value)] raises [ValueError] for a
    negative value. *)
Definition init (concurrent_requests max_retries chunk_size : Z) : res scanner :=
  if concurrent_requests <? 0 then Raises ValueError
  else Ok (Scanner concurrent_requests max_retries chunk_size default_chars
                   ∅ concurrent_requests []).

Definition full_domain_of (subdomain domain : string) : string :=
  (subdomain ++ "." ++ domain)%string.

Definition url_of (full_domain : string) : string :=
  ("http://" ++ full_domain)%string.

(** Events of a failed pass that raised: the debug line on the last loop
    index, then the backoff sleep. *)
Definition on_exception (max_retries : Z) (url : string) (attempt : Z) : list event :=
  (if attempt =? max_retries - 1 then [Debug url] else []) ++ [Sleep (attempt + 1)].

(** The [for attempt in range(self.max_retries)] loop over the remaining
    loop indices. *)
Fixpoint attempts (net : network) (max_retries : Z) (full_domain : string)
         (indices : list Z) (tr : list event) : option result * list event :=
  match indices with
  | [] => (None, tr)
  | attempt :: rest =>
      let url := url_of full_domain in
      match net url attempt with
      | Response status body =>
          if status =? 200
          then (Some (full_domain, title_of body), tr ++ [Get url attempt])
          else attempts net max_retries full_domain rest (tr ++ [Get url attempt])
      | Failed =>
          attempts net max_retries full_domain rest
                   (tr ++ [Get url attempt] ++ on_exception max_retries url attempt)
      end
  end.

(** [check_subdomain] run on its own, from its call to its return.  With
    no free slot in the semaphore the coroutine never resumes. *)
Definition check_subdomain (net : network) (s : scanner) (subdomain domain : string)
  : res (option result * scanner) :=
  let full_domain := full_domain_of subdomain domain in
  if decide (full_domain ∈ seen_subdomains s) then Ok (None, s)
  else
    let s1 := add_seen full_domain s in
    if rate_limiter s1 <=? 0 then Hangs
    else
      let '(r, tr) := attempts net (max_retries s1) full_domain
                               (range2 0 (max_retries s1)) [] in
      Ok (r, emit tr s1).

(** ** Coroutines under the semaphore *)

(** Where a [check_subdomain] coroutine stands. *)
Inductive task :=
| Pending (subdomain domain : string)            (* created, not started *)
| Acquiring (full_domain : string)               (* suspended in [rate_limiter.acquire()] *)
| Getting (full_domain : string) (attempt : Z)   (* holds a slot, at the head of the loop *)
| Sleeping (full_domain : string) (attempt : Z)  (* holds a slot, in the backoff sleep *)
| Finished (r : option result).

(** One resumption of a coroutine; [None] when it cannot run. *)
Definition step_task (net : network) (s : scanner) (t : task) : option (scanner * task) :=
  match t with
  | Pending subdomain domain =>
      let full_domain := full_domain_of subdomain domain in
      if decide (full_domain ∈ seen_subdomains s) then Some (s, Finished None)
      else Some (add_seen full_domain s, Acquiring full_domain)
  | Acquiring full_domain =>
      if 0 <? rate_limiter s
      then Some (set_limiter (rate_limiter s - 1) s, Getting full_domain 0)
      else None
  | Getting full_domain attempt =>
      let url := url_of full_domain in
      if attempt <? max_retries s then
        match net url attempt with
        | Response status body =>
            if status =? 200
            then Some (set_limiter (rate_limiter s + 1) (emit [Get url attempt] s),
                       Finished (Some (full_domain, title_of body)))
            else Some (emit [Get url attempt] s, Getting full_domain (attempt + 1))
        | Failed =>
            Some (emit ([Get url attempt] ++ on_exception (max_retries s) url attempt) s,
                  Sleeping full_domain attempt)
        end
      else Some (set_limiter (rate_limiter s + 1) s, Finished None)
  | Sleeping full_domain attempt => Some (s, Getting full_domain (attempt + 1))
  | Finished _ => None
  end.

(** The event loop resumes one coroutine of the pool. *)
Inductive pool_step (net : network) : scanner * list task -> scanner * list task -> Prop :=
| pool_step_at s pool i t s' t' :
    pool !! i = Some t ->
    step_task net s t = Some (s', t') ->
    pool_step net (s, pool) (s', <[ i := t' ]> pool).

(** The engine at large: a coroutine is resumed, or new calls of
    [check_subdomain] are made. *)
Inductive engine_step (net : network) : scanner * list task -> scanner * list task -> Prop :=
| engine_resume st st' :
    pool_step net st st' -> engine_step net st st'
| engine_spawn s pool subdomain domain :
    engine_step net (s, pool) (s, pool ++ [Pending subdomain domain]).

(** Coroutines that hold a slot of the semaphore. *)
Definition holds_slot (t : task) : bool :=
  match t with
  | Getting _ _ | Sleeping _ _ => true
  | _ => false
  end.

Definition in_flight (pool : list task) : Z :=
  Z.of_nat (List.length (filter (fun t => holds_slot t = true) pool)).

(** ** Chunks and the scan of a domain *)

(** How [asyncio.gather] carries a chunk through: from the scanner, the
    domain and the labels to the results in the order of the labels. *)
Definition gatherer : Type :=
  scanner -> string -> list string -> res (list (option result) * scanner).

(** The gatherer that runs the coroutines one after the other. *)
Fixpoint gather_seq (net : network) (s : scanner) (domain : string)
         (subdomains : list string) : res (list (option result) * scanner) :=
  match subdomains with
  | [] => Ok ([], s)
  | subdomain :: rest =>
      let* p := check_subdomain net s subdomain domain in
      let* q := gather_seq net p.2 domain rest in
      Ok (p.1 :: q.1, q.2)
  end.

(** A gatherer is an event loop when each of its returns is reached by
    resuming the coroutines of the chunk in some order until all have
    finished, it raises nothing of its own, and it only fails to return
    when no order of resumptions lets all coroutines finish. *)
Definition event_loop (net : network) (gather : gatherer) : Prop :=
  forall s domain subdomains,
    match gather s domain subdomains with
    | Ok (results, s') =>
        rtc (pool_step net) (s, map (fun l => Pending l domain) subdomains)
                            (s', map Finished results)
    | Raises _ => False
    | Hangs =>
        forall s' results,
          ~ rtc (pool_step net) (s, map (fun l => Pending l domain) subdomains)
                                (s', map Finished results)
    end.

(** [[r for r in results if r is not None]]. *)
Definition not_none (results : list (option result)) : list result :=
  omap id results.

Definition scan_subdomains_chunk (gather : gatherer) (s : scanner) (domain : string)
           (subdomains : list string) : res (list result * scanner) :=
  let* p := gather s domain subdomains in
  Ok (not_none p.1, p.2).

Definition len {A : Type} (l : list A) : Z := Z.of_nat (List.length l).

(** The inner loop of [scan_domain], over the chunk starts [i]. *)
Fixpoint scan_chunks (gather : gatherer) (domain : string) (subdomains : list string)
         (starts : list Z) (s : scanner) (all_results : list result)
  : res (list result * scanner) :=
  match starts with
  | [] => Ok (all_results, s)
  | i :: rest =>
      let chunk := slice subdomains i (i + chunk_size s) in
      let* p := scan_subdomains_chunk gather s domain chunk in
      let all_results' := all_results ++ p.1 in
      let s' := emit [Progress (i + len chunk) (len subdomains) (len all_results')] p.2 in
      scan_chunks gather domain subdomains rest s' all_results'
  end.

(** The outer loop of [scan_domain], over the lengths. *)
Fixpoint scan_lengths (gather : gatherer) (domain : string) (lengths : list Z)
         (s : scanner) (all_results : list result) : res (list result * scanner) :=
  match lengths with
  | [] => Ok (all_results, s)
  | length :: rest =>
      let s1 := emit [Info domain length] s in
      let* subdomains := generate_subdomains (chars s1) length in
      let* starts := range3 0 (len subdomains) (chunk_size s1) in
      let* p := scan_chunks gather domain subdomains starts s1 all_results in
      scan_lengths gather domain rest p.2 p.1
  end.

Definition scan_domain (gather : gatherer) (s : scanner) (domain : string)
           (min_length max_length : Z) : res (list result * scanner) :=
  scan_lengths gather domain (range2 min_length (max_length + 1)) s [].

(** ** Orders on labels *)

(** Lexicographic order on tuples, over a strict order [R] on characters. *)
Fixpoint lex {A : Type} (R : A -> A -> Prop) (x y : list A) : Prop :=
  match x, y with
  | [], [] => False
  | [], _ :: _ => True
  | _ :: _, [] => False
  | a :: x', b :: y' => R a b \/ (a = b /\ lex R x' y')
  end.

(** Position of a character in the alphabet ([length] when absent). *)
Fixpoint rank (pool : list ascii) (c : ascii) : nat :=
  match pool with
  | [] => O
  | a :: pool' => if Ascii.eqb a c then O else S (rank pool' c)
  end.

(** [c] comes before [d] in the alphabet [pool]. *)
Definition before (pool : list ascii) (c d : ascii) : Prop :=
  (rank pool c < rank pool d)%nat.

(** Order of labels: lexicographic over the order of the alphabet. *)
Definition label_lt (chars : string) (x y : string) : Prop :=
  lex (before (list_ascii_of_string chars))
      (list_ascii_of_string x) (list_ascii_of_string y).

(** The label is made of characters of the alphabet. *)
Definition drawn_from (chars : string) (x : string) : Prop :=
  Forall (fun c => In c (list_ascii_of_string chars)) (list_ascii_of_string x).

(** ** Reference values for the probe of one candidate *)

(** The engine built by [main]: 50 slots, 2 attempts, chunks of 1000. *)
Definition default_scanner : scanner :=
  Scanner 50 2 1000 default_chars ∅ 50 [].

(** The reply is a response with status 200. *)
Definition is_200 (r : reply) : bool :=
  match r with
  | Response status _ => status =? 200
  | Failed => false
  end.

(** Events of one failed pass through the loop body: the request, and the
    handler's events when the pass raised. *)
Definition failure_events (max_retries : Z) (url : string) (attempt : Z) : reply -> list event :=
  fun r =>
    Get url attempt ::
    match r with
    | Failed => on_exception max_retries url attempt
    | Response _ _ => []
    end.

(** What the loop of [check_subdomain] returns for [full_domain]. *)
Definition probe (net : network) (max_retries : Z) (full_domain : string) : option result :=
  (attempts net max_retries full_domain (range2 0 max_retries) []).1.

(** ** Invariants of the pool *)

(** The attributes set by [__init__] and never assigned again. *)
Definition same_config (s s' : scanner) : Prop :=
  concurrent_requests s' = concurrent_requests s
  /\ max_retries s' = max_retries s
  /\ chunk_size s' = chunk_size s
  /\ chars s' = chars s.

(** Slots taken by one coroutine. *)
Definition slots (t : task) : Z := if holds_slot t then 1 else 0.

(** The semaphore accounts for the coroutines inside [async with]. *)
Definition limiter_inv (limit : Z) (st : scanner * list task) : Prop :=
  concurrent_requests st.1 = limit
  /\ 0 <= rate_limiter st.1
  /\ rate_limiter st.1 + in_flight st.2 = limit.


(** The candidate a started, unfinished coroutine works on. *)
Definition active (t : task) : option string :=
  match t with
  | Acquiring full_domain | Getting full_domain _ | Sleeping full_domain _ => Some full_domain
  | Pending _ _ | Finished _ => None
  end.

(** The loop index of the next request a coroutine would make. *)
Definition next_attempt (t : task) : Z :=
  match t with
  | Getting _ attempt => attempt
  | Sleeping _ attempt => attempt + 1
  | _ => 0
  end.

(** The requests of a trace: url and loop index, in order. *)
Definition requests (tr : list event) : list (string * Z) :=
  omap (fun e => match e with Get url attempt => Some (url, attempt) | _ => None end) tr.

(** Each candidate has at most one coroutine at work, every candidate at
    work or requested is in the seen set, a coroutine has made only the
    requests below its loop index, and no request was made twice. *)
Definition once_inv (st : scanner * list task) : Prop :=
  NoDup (omap active st.2)
  /\ (forall t full_domain,
         t ∈ st.2 -> active t = Some full_domain ->
         full_domain ∈ seen_subdomains st.1
         /\ forall a, (url_of full_domain, a) ∈ requests (trace st.1) -> a < next_attempt t)
  /\ (forall url a,
         (url, a) ∈ requests (trace st.1) ->
         exists full_domain, url = url_of full_domain /\ full_domain ∈ seen_subdomains st.1)
  /\ NoDup (requests (trace st.1)).


(** ** Reference values for a chunk *)

(** What [check_subdomain] returns for the label [l] of a chunk started
    with the seen set [seen0]. *)
Definition expected (net : network) (seen0 : gset string) (max_retries : Z)
           (domain : string) (l : string) : option result :=
  if decide (full_domain_of l domain ∈ seen0) then None
  else probe net max_retries (full_domain_of l domain).

(** Every pass of index below [a] has failed. *)
Definition failed_below (net : network) (full_domain : string) (a : Z) : Prop :=
  forall a', 0 <= a' < a -> is_200 (net (url_of full_domain) a') = false.

(** The coroutine created for label [l] of the chunk is where it should be. *)
Definition task_ok (net : network) (seen0 : gset string) (max_retries : Z)
           (domain : string) (l : string) (t : task) : Prop :=
  match t with
  | Pending l' d' => l' = l /\ d' = domain
  | Acquiring fd => fd = full_domain_of l domain /\ fd ∉ seen0
  | Getting fd a =>
      fd = full_domain_of l domain /\ (fd ∉ seen0) /\ 0 <= a /\ failed_below net fd a
  | Sleeping fd a =>
      fd = full_domain_of l domain /\ (fd ∉ seen0) /\ 0 <= a /\ failed_below net fd (a + 1)
  | Finished r => r = expected net seen0 max_retries domain l
  end.

Definition started (t : task) : bool :=
  match t with
  | Pending _ _ => false
  | _ => true
  end.

(** The candidates of the coroutines that have started. *)
Fixpoint started_fds (domain : string) (labels : list string) (pool : list task)
  : list string :=
  match labels, pool with
  | l :: labels', t :: pool' =>
      (if started t then [full_domain_of l domain] else [])
      ++ started_fds domain labels' pool'
  | _, _ => []
  end.

(** An event of the probe of an unseen candidate of the chunk. *)
Definition probe_event (seen0 : gset string) (domain : string) (labels : list string)
           (e : event) : Prop :=
  match e with
  | Get url _ | Debug url =>
      exists l, l ∈ labels /\ url = url_of (full_domain_of l domain)
                /\ full_domain_of l domain ∉ seen0
  | Sleep _ => True
  | Info _ _ | Progress _ _ _ => False
  end.

(** The state of a chunk under way, started from the scanner [s0]. *)
Definition chunk_inv (net : network) (s0 : scanner) (domain : string)
           (labels : list string) (st : scanner * list task) : Prop :=
  same_config s0 st.1
  /\ Forall2 (task_ok net (seen_subdomains s0) (max_retries s0) domain) labels st.2
  /\ seen_subdomains st.1
     = seen_subdomains s0 ∪ list_to_set (started_fds domain labels st.2)
  /\ rate_limiter st.1 + in_flight st.2 = rate_limiter s0
  /\ exists es, trace st.1 = trace s0 ++ es
                /\ Forall (probe_event (seen_subdomains s0) domain labels) es.


(** A coroutine that cannot finish while the semaphore has no free slot:
    it waits for one, or will once it has marked its unseen candidate. *)
Definition waiting (s : scanner) (t : task) : Prop :=
  match t with
  | Acquiring _ => True
  | Pending subdomain domain => full_domain_of subdomain domain ∉ seen_subdomains s
  | _ => False
  end.

(** A pool with no free slot, no slot held, and a coroutine that waits. *)
Definition stuck (st : scanner * list task) : Prop :=
  rate_limiter st.1 <= 0
  /\ in_flight st.2 = 0
  /\ exists t, t ∈ st.2 /\ waiting st.1 t.


(** ** Reference values for a scan *)

(** The labels of one length, as the generator lists them. *)
Definition labels (chars : string) (length : Z) : list string :=
  map join (product_rounds (list_ascii_of_string chars) (Z.to_nat length) [[]]).

(** The labels of all lengths from [min_length] to [max_length], by
    ascending length. *)
Definition all_labels (chars : string) (min_length max_length : Z) : list string :=
  flat_map (labels chars) (range2 min_length (max_length + 1)).

(** The chunk that starts at index [i]. *)
Definition chunk_at (chunk_size : Z) (subdomains : list string) (i : Z) : list string :=
  slice subdomains i (i + chunk_size).

(** The chunk starts the inner loop goes through. *)
Definition starts_of (chunk_size : Z) (subdomains : list string) : list Z :=
  match range3 0 (len subdomains) chunk_size with
  | Ok starts => starts
  | _ => []
  end.

(** The labels the loops hand to [scan_subdomains_chunk], in order. *)
Definition scanned (chars : string) (chunk_size : Z) (lengths : list Z) : list string :=
  flat_map (fun L => flat_map (chunk_at chunk_size (labels chars L))
                              (starts_of chunk_size (labels chars L)))
           lengths.

(** The [processed] counts of the progress events of a trace. *)
Definition processed_of (tr : list event) : list Z :=
  omap (fun e => match e with Progress p _ _ => Some p | _ => None end) tr.

(** The events of the chunks of one length: for each chunk in turn, events
    [ev] of that chunk only, then its progress event, which counts the
    results found up to and including the chunk. *)
Inductive chunks_trace (ev : list string -> event -> Prop)
          (result_of : string -> option result)
          (chunk_size : Z) (subdomains : list string)
  : list Z -> Z -> list event -> Prop :=
| chunks_done found :
    chunks_trace ev result_of chunk_size subdomains [] found []
| chunks_next i starts found es tr :
    let chunk := chunk_at chunk_size subdomains i in
    let found' := found + len (not_none (map result_of chunk)) in
    Forall (ev chunk) es ->
    chunks_trace ev result_of chunk_size subdomains starts found' tr ->
    chunks_trace ev result_of chunk_size subdomains (i :: starts) found
                 (es ++ Progress (i + len chunk) (len subdomains) found' :: tr).

(** The events of a scan: for each length in turn, the line that opens it
    and the events of its chunks. *)
Inductive scan_trace (ev : list string -> event -> Prop)
          (result_of : string -> option result)
          (domain chars : string) (chunk_size : Z)
  : list Z -> Z -> list event -> Prop :=
| scan_done found :
    scan_trace ev result_of domain chars chunk_size [] found []
| scan_next L lengths found tr_L tr :
    let subdomains := labels chars L in
    let starts := starts_of chunk_size subdomains in
    let found' :=
      found + len (not_none (map result_of (flat_map (chunk_at chunk_size subdomains) starts))) in
    chunks_trace ev result_of chunk_size subdomains starts found tr_L ->
    scan_trace ev result_of domain chars chunk_size lengths found' tr ->
    scan_trace ev result_of domain chars chunk_size (L :: lengths) found
               (Info domain L :: tr_L ++ tr).


(** The gatherer that runs the coroutines one after the other from the
    last label to the first, and hands the results back in the order of
    the labels. *)
Definition gather_rev (net : network) : gatherer :=
  fun s domain subdomains =>
    match gather_seq net s domain (rev subdomains) with
    | Ok (results, s') => Ok (rev results, s')
    | Raises e => Raises e
    | Hangs => Hangs
    end.

(** ** Responders and engines used in examples *)

(** A page whose title is "Hi". *)
Definition hi_page : list node :=
  [Tag "html" [Tag "head" [Tag "title" [NavigableString "Hi"]]]].

(** The responder that answers 200 with [hi_page] for [a.example.com] and
    fails every other request. *)
Definition only_a : network :=
  fun url _ => if String.eqb url "http://a.example.com" then Response 200 hi_page else Failed.

(** The responder that answers 404 to everything. *)
Definition not_found : network := fun _ _ => Response 404 [].

(** The default engine with chunks of 10. *)
Definition chunks_of_ten : scanner := Scanner 50 2 10 default_chars ∅ 50 [].

(** ** Tactics *)

(** Case analysis of one resumption. *)
Ltac step_cases H :=
  match type of H with
  | step_task _ _ ?t = Some _ =>
      destruct t; simpl in H; repeat case_match; simplify_eq
  end.


(** ** The session *)

(** The [session] attribute: [None] until [__aenter__], a client session
    after it, a closed one after [__aexit__]. *)
Inductive session :=
| Unset
| Opened
| Closed.

(** [__aenter__]: a new client session is stored. *)
Definition aenter (se : session) : session := Opened.

(** [__aexit__]: the session is closed if there is one. *)
Definition aexit (se : session) : session :=
  match se with
  | Unset => Unset
  | Opened | Closed => Closed
  end.

(** What [self.session.get(url)] meets inside the [try] block: with no
    session the attribute access raises [AttributeError], on a closed
    session the client raises [RuntimeError]; both are caught by
    [except Exception].  An open session reaches the network. *)
Definition through (se : session) (net : network) : network :=
  match se with
  | Opened => net
  | Unset | Closed => fun _ _ => Failed
  end.

(** ** The domains file *)

(** The first row written to the output. *)
Definition header : list string := ["Subdomain"; "Title"; "Domain"].

(** [[row[0] for row in csv.reader(f) if row]], over the rows the reader
    yields. *)
Definition domains_of (rows : list (list string)) : list string :=
  omap head rows.

(** A title as [csv.writer] writes it: [None] becomes the empty string. *)
Definition cell (title : option string) : string := default "" title.

(** The rows written for the results of one domain. *)
Definition rows_of (domain : string) (results : list result) : list (list string) :=
  map (fun r => [r.1; cell r.2; domain]) results.

(** The loop of [process_domains_file] over the domains: the rows written
    so far, and how the loop ends.  Rows written before an exception stay
    in the file; the exception is raised again to the caller.  The
    [logger] lines of this method are not recorded. *)
Fixpoint process_domains (gather : gatherer) (domains : list string) (s : scanner)
         (written : list (list string)) : list (list string) * res scanner :=
  match domains with
  | [] => (written, Ok s)
  | domain :: rest =>
      match scan_domain gather s domain 1 3 with
      | Ok out => process_domains gather rest out.2 (written ++ rows_of domain out.1)
      | Raises e => (written, Raises e)
      | Hangs => (written, Hangs)
      end
  end.

(** [process_domains_file], for an input file that reads as [rows] and an
    output file that can be written. *)
Definition process_domains_file (gather : gatherer) (s : scanner)
           (rows : list (list string)) : list (list string) * res scanner :=
  process_domains gather (domains_of rows) s [header].

(** [main]: the engine of 50 slots, 2 attempts and chunks of 1000 processes
    the domains file. *)
Definition main (gather : gatherer) (rows : list (list string))
  : list (list string) * res scanner :=
  match init 50 2 1000 with
  | Ok s => process_domains_file gather s rows
  | Raises e => ([], Raises e)
  | Hangs => ([], Hangs)
  end.

(** ** Measures and invariants for termination *)

(** Resumptions a coroutine has left at most. *)
Definition task_weight (max_retries : Z) (t : task) : nat :=
  match t with
  | Pending _ _ => 2 * Z.to_nat max_retries + 3
  | Acquiring _ => 2 * Z.to_nat max_retries + 2
  | Getting _ attempt => 2 * Z.to_nat (max_retries - attempt) + 1
  | Sleeping _ attempt => 2 * Z.to_nat (max_retries - attempt - 1) + 2
  | Finished _ => 0
  end.

Definition pool_weight (max_retries : Z) (pool : list task) : nat :=
  list_sum (map (task_weight max_retries) pool).

(** The semaphore has a free slot, or a coroutine of the pool holds one. *)
Definition slot_around (st : scanner * list task) : Prop :=
  1 <= rate_limiter st.1 + in_flight st.2.

(** Loop indices stay within [range(max_retries)]: those of the coroutines
    are not negative, those of the requests made are below [max_retries]. *)
Definition attempt_inv (retries : Z) (st : scanner * list task) : Prop :=
  max_retries st.1 = retries
  /\ (forall t, t ∈ st.2 -> 0 <= next_attempt t)
  /\ (forall url a, (url, a) ∈ requests (trace st.1) -> 0 <= a < retries).

(** The label has no dot. *)
Definition dot_free (l : string) : Prop :=
  "."%char ∉ list_ascii_of_string l.


(** The labels [process_domains_file] scans for every domain: lengths 1
    to 3, the defaults of [scan_domain]. *)
Definition file_labels (s : scanner) : list string := all_labels (chars s) 1 3.
Arguments file_labels : simpl never.

(** The rows a domain contributes when it is scanned by an engine that
    started as [s] and has not met the domain before. *)
Definition rows_for (net : network) (s : scanner) (domain : string) : list (list string) :=
  rows_of domain
          (not_none (map (expected net (seen_subdomains s) (max_retries s) domain)
                         (file_labels s))).
Arguments rows_for : simpl never.


(** Requests a coroutine can still make: the loop indices it has left in
    [range(max_retries)]. *)
Definition task_budget (max_retries : Z) (t : task) : nat :=
  match t with
  | Pending _ _ | Acquiring _ => Z.to_nat max_retries
  | Getting _ attempt => Z.to_nat (max_retries - attempt)
  | Sleeping _ attempt => Z.to_nat (max_retries - attempt - 1)
  | Finished _ => 0
  end.

Definition pool_budget (max_retries : Z) (pool : list task) : nat :=
  list_sum (map (task_budget max_retries) pool).

(** * Properties *)

(** ** The candidate generator *)

Section Product.
Context {A : Type} (R : A -> A -> Prop).
Hypothesis R_irrefl : forall a, ~ R a a.

Lemma lex_irrefl (x : list A) : ~ lex R x x.
Proof.
  induction x as [|a x IH]; simpl; [tauto|].
  intros [H|[_ H]]; [exact (R_irrefl a H) | exact (IH H)].
Qed.

Lemma lex_snoc_left (x x' : list A) (y y' : A) :
  List.length x = List.length x' -> lex R x x' -> lex R (x ++ [y]) (x' ++ [y']).
Proof.
  revert x'; induction x as [|a x IH]; intros [|b x'] Hlen Hlt; simpl in *;
    try discriminate; try tauto.
  destruct Hlt as [H|[-> H]]; [left; exact H | right; split; [reflexivity|]].
  apply IH; [lia | exact H].
Qed.

Lemma lex_snoc_right (x : list A) (y y' : A) :
  R y y' -> lex R (x ++ [y]) (x ++ [y']).
Proof.
  intros H; induction x as [|a x IH]; simpl; [left; exact H | right; split; auto].
Qed.

Lemma product_round_length (pool : list A) (result : list (list A)) :
  List.length (product_round pool result)
  = (List.length result * List.length pool)%nat.
Proof.
  unfold product_round; induction result as [|x result IH]; simpl; [reflexivity|].
  rewrite List.length_app, List.length_map, IH; lia.
Qed.

Lemma product_rounds_length (pool : list A) (n : nat) (result : list (list A)) :
  List.length (product_rounds pool n result)
  = (List.length result * List.length pool ^ n)%nat.
Proof.
  revert result; induction n as [|n IH]; intros result; simpl; [lia|].
  rewrite IH, product_round_length; lia.
Qed.

Lemma product_round_In (pool : list A) (result : list (list A)) (z : list A) :
  In z (product_round pool result)
  <-> exists x y, z = x ++ [y] /\ In x result /\ In y pool.
Proof.
  unfold product_round; rewrite in_flat_map; split.
  - intros (x & Hx & Hz). apply in_map_iff in Hz as (y & <- & Hy). eauto.
  - intros (x & y & -> & Hx & Hy). exists x; split; [exact Hx|].
    apply in_map_iff; eauto.
Qed.

Lemma product_rounds_shape (pool : list A) (n : nat) (result : list (list A)) (k : nat) :
  Forall (fun x => List.length x = k /\ Forall (fun c => In c pool) x) result ->
  Forall (fun x => List.length x = (k + n)%nat /\ Forall (fun c => In c pool) x)
         (product_rounds pool n result).
Proof.
  revert result k; induction n as [|n IH]; intros result k H; simpl.
  - rewrite Nat.add_0_r; exact H.
  - replace (k + S n)%nat with (S k + n)%nat by lia. apply IH.
    apply List.Forall_forall; intros z Hz.
    apply product_round_In in Hz as (x & y & -> & Hx & Hy).
    rewrite List.Forall_forall in H. destruct (H x Hx) as [Hl Hp].
    rewrite List.length_app; simpl; split; [lia|].
    apply List.Forall_app; split; [exact Hp | constructor; [exact Hy | constructor]].
Qed.

Lemma sorted_app (S : list A -> list A -> Prop) (l1 l2 : list (list A)) :
  StronglySorted S l1 -> StronglySorted S l2 ->
  (forall a b, In a l1 -> In b l2 -> S a b) ->
  StronglySorted S (l1 ++ l2).
Proof.
  intros H1 H2 H12; induction H1 as [|a l1 Hs IH Ha]; simpl; [exact H2|].
  constructor.
  - apply IH; intros; apply H12; simpl; auto.
  - apply List.Forall_app; split; [exact Ha|].
    apply List.Forall_forall; intros b Hb; apply H12; simpl; auto.
Qed.

Lemma extend_sorted (pool : list A) (x : list A) :
  StronglySorted R pool ->
  StronglySorted (lex R) (map (fun y => x ++ [y]) pool).
Proof.
  induction 1 as [|a pool Hs IH Ha]; simpl; constructor; [exact IH|].
  apply List.Forall_forall; intros z Hz.
  apply in_map_iff in Hz as (y & <- & Hy).
  apply lex_snoc_right. rewrite List.Forall_forall in Ha; auto.
Qed.

Lemma product_round_sorted (pool : list A) (result : list (list A)) (k : nat) :
  StronglySorted R pool ->
  Forall (fun x => List.length x = k) result ->
  StronglySorted (lex R) result ->
  StronglySorted (lex R) (product_round pool result).
Proof.
  intros Hpool Hlen Hs; unfold product_round.
  induction Hs as [|x result Hs IH Hx]; simpl; [constructor|].
  apply List.Forall_cons_iff in Hlen as [Hk Hlen].
  apply sorted_app; [apply extend_sorted; exact Hpool | apply IH; exact Hlen |].
  intros a b Ha Hb.
  apply in_map_iff in Ha as (y & <- & Hy).
  apply in_flat_map in Hb as (x' & Hx' & Hb).
  apply in_map_iff in Hb as (y' & <- & Hy').
  apply lex_snoc_left.
  - rewrite List.Forall_forall in Hlen. rewrite (Hlen x' Hx'); exact Hk.
  - rewrite List.Forall_forall in Hx; auto.
Qed.

Lemma product_rounds_sorted (pool : list A) (n : nat) (result : list (list A)) (k : nat) :
  StronglySorted R pool ->
  Forall (fun x => List.length x = k /\ Forall (fun c => In c pool) x) result ->
  StronglySorted (lex R) result ->
  StronglySorted (lex R) (product_rounds pool n result).
Proof.
  intros Hpool; revert result k; induction n as [|n IH]; intros result k Hlen Hs;
    simpl; [exact Hs|].
  apply (IH _ (S k)).
  - apply (product_rounds_shape pool 1 result k) in Hlen. simpl in Hlen.
    replace (S k) with (k + 1)%nat by lia. exact Hlen.
  - apply (product_round_sorted _ _ k); [exact Hpool | | exact Hs].
    eapply List.Forall_impl; [|exact Hlen]. simpl; tauto.
Qed.

Lemma sorted_NoDup (S : list A -> list A -> Prop) (l : list (list A)) :
  (forall x, ~ S x x) -> StronglySorted S l -> List.NoDup l.
Proof.
  intros Hirr; induction 1 as [|a l Hs IH Ha]; constructor; [|exact IH].
  intros Hin. rewrite List.Forall_forall in Ha. exact (Hirr a (Ha a Hin)).
Qed.
End Product.

Lemma sorted_weaken {A : Type} (R R' : A -> A -> Prop) (l : list A) :
  (forall x y, In x l -> In y l -> R x y -> R' x y) ->
  StronglySorted R l -> StronglySorted R' l.
Proof.
  intros H Hs; induction Hs as [|a l Hs IH Ha]; constructor.
  - apply IH; intros; apply H; simpl; auto.
  - rewrite List.Forall_forall in *; intros y Hy; apply H; simpl; auto.
Qed.

Lemma sorted_map {A B : Type} (f : A -> B) (R : B -> B -> Prop) (l : list A) :
  StronglySorted (fun x y => R (f x) (f y)) l -> StronglySorted R (map f l).
Proof.
  induction 1 as [|a l Hs IH Ha]; simpl; constructor; [exact IH|].
  apply List.Forall_forall; intros y Hy. apply in_map_iff in Hy as (x & <- & Hx).
  rewrite List.Forall_forall in Ha; auto.
Qed.

Lemma rank_head (a : ascii) (pool : list ascii) : rank (a :: pool) a = O.
Proof. simpl; rewrite Ascii.eqb_refl; reflexivity. Qed.

Lemma rank_tail (a c : ascii) (pool : list ascii) :
  a <> c -> rank (a :: pool) c = S (rank pool c).
Proof. intros H; simpl. destruct (Ascii.eqb_spec a c); [contradiction|reflexivity]. Qed.

Lemma alphabet_sorted (pool : list ascii) :
  List.NoDup pool -> StronglySorted (before pool) pool.
Proof.
  induction 1 as [|a pool Hnotin Hnd IH]; constructor.
  - apply (sorted_weaken (before pool)); [|exact IH].
    intros x y Hx Hy Hlt; unfold before in *.
    rewrite !rank_tail; [lia | |]; intros ->; contradiction.
  - apply List.Forall_forall; intros c Hc; unfold before.
    rewrite rank_head, rank_tail; [lia|]. intros ->; contradiction.
Qed.

Lemma before_irrefl (pool : list ascii) (c : ascii) : ~ before pool c c.
Proof. unfold before; lia. Qed.

Lemma join_length (p : list ascii) : String.length (join p) = List.length p.
Proof. induction p as [|c p IH]; simpl; [reflexivity | rewrite IH; reflexivity]. Qed.

Lemma join_chars (p : list ascii) : list_ascii_of_string (join p) = p.
Proof. apply list_ascii_of_string_of_list_ascii. Qed.

Lemma join_inj (p q : list ascii) : join p = join q -> p = q.
Proof. intros H; rewrite <- (join_chars p), <- (join_chars q), H; reflexivity. Qed.

Lemma default_chars_NoDup : List.NoDup (list_ascii_of_string default_chars).
Proof. apply NoDup_ListNoDup, (bool_decide_unpack _); vm_compute; reflexivity. Qed.

Lemma generate_subdomains_ok (chars : string) (length : Z) :
  0 <= length ->
  generate_subdomains chars length
  = Ok (map join (product_rounds (list_ascii_of_string chars) (Z.to_nat length) [[]])).
Proof.
  intros H; unfold generate_subdomains, product.
  destruct (Z.ltb_spec length 0); [lia | reflexivity].
Qed.

(** The labels of one length over an alphabet without repeated characters:
    their number, shape and order. *)
Lemma generate_subdomains_spec (chars : string) (length : Z) :
  0 <= length ->
  List.NoDup (list_ascii_of_string chars) ->
  exists l,
    generate_subdomains chars length = Ok l
    /\ len l = Z.of_nat (String.length chars) ^ length
    /\ List.NoDup l
    /\ Forall (fun x => Z.of_nat (String.length x) = length /\ drawn_from chars x) l
    /\ StronglySorted (label_lt chars) l.
Proof.
  intros Hlen Hnd. set (pool := list_ascii_of_string chars).
  set (ps := product_rounds pool (Z.to_nat length) [[]]).
  assert (Hshape : Forall (fun x => List.length x = (0 + Z.to_nat length)%nat
                                    /\ Forall (fun c => In c pool) x) ps).
  { apply product_rounds_shape. constructor; [split; [reflexivity|constructor]|constructor]. }
  assert (Hsorted : StronglySorted (lex (before pool)) ps).
  { apply (product_rounds_sorted _ _ _ _ O).
    - apply alphabet_sorted; exact Hnd.
    - constructor; [split; [reflexivity|constructor]|constructor].
    - constructor; constructor. }
  exists (map join ps); split; [apply generate_subdomains_ok; exact Hlen|].
  split; [|split; [|split]].
  - unfold len. rewrite List.length_map. unfold ps.
    rewrite product_rounds_length. simpl List.length. rewrite Nat.mul_1_l.
    rewrite Nat2Z.inj_pow, Z2Nat.id by exact Hlen.
    f_equal. f_equal. unfold pool.
    clear. induction chars as [|c chars IH]; simpl; [reflexivity | rewrite IH; reflexivity].
  - apply Finite.Injective_map_NoDup; [intros p q; apply join_inj|].
    apply (sorted_NoDup (lex (before pool))); [|exact Hsorted].
    apply lex_irrefl, before_irrefl.
  - apply List.Forall_forall; intros x Hx.
    apply in_map_iff in Hx as (p & <- & Hp).
    rewrite List.Forall_forall in Hshape. destruct (Hshape p Hp) as [Hl Hd].
    rewrite join_length, Hl. split; [lia|].
    unfold drawn_from; rewrite join_chars; exact Hd.
  - apply sorted_map. unfold label_lt.
    eapply sorted_weaken; [|exact Hsorted].
    intros x y _ _ H; rewrite !join_chars; exact H.
Qed.

(** C4. For every length L >= 1, [generate_subdomains] over the default
    alphabet returns exactly 36^L pairwise distinct labels, each of exactly
    L characters drawn from a-z and 0-9, listed in lexicographic order over
    the order of the alphabet; for L = 1 these are "a" to "z" followed by
    "0" to "9". *)
Theorem generate_subdomains_default (L : Z) :
  1 <= L ->
  (exists l,
      generate_subdomains default_chars L = Ok l
      /\ len l = 36 ^ L
      /\ List.NoDup l
      /\ Forall (fun x => Z.of_nat (String.length x) = L /\ drawn_from default_chars x) l
      /\ StronglySorted (label_lt default_chars) l)
  /\ generate_subdomains default_chars 1
     = Ok ["a"; "b"; "c"; "d"; "e"; "f"; "g"; "h"; "i"; "j"; "k"; "l"; "m";
           "n"; "o"; "p"; "q"; "r"; "s"; "t"; "u"; "v"; "w"; "x"; "y"; "z";
           "0"; "1"; "2"; "3"; "4"; "5"; "6"; "7"; "8"; "9"].
Proof.
  intros HL; split; [|reflexivity].
  destruct (generate_subdomains_spec default_chars L) as (l & H); [lia | exact default_chars_NoDup |].
  exists l; exact H.
Qed.

Lemma generate_subdomains_default_witness :
  1 <= 2 /\
  exists l, generate_subdomains default_chars 2 = Ok l /\ len l = 36 ^ 2.
Proof.
  split; [lia|].
  destruct (generate_subdomains_default 2) as [(l & H1 & H2 & _) _]; [lia|].
  exists l; split; assumption.
Defined.

(** C6 (as stated, refuted). Length 0 is below 1 and the generator
    returns the list holding the empty label; over an empty alphabet it
    returns the empty list.  Neither call fails. *)
Lemma generate_subdomains_no_guard :
  0 < 1
  /\ generate_subdomains default_chars 0 = Ok [""]
  /\ generate_subdomains "" 1 = Ok [].
Proof. split; [lia | split; reflexivity]. Qed.

(** C6 (amended). [generate_subdomains] raises [ValueError] exactly for a
    negative length; for length 0 it returns the one empty label, and over
    an empty alphabet with length >= 1 it returns the empty list. *)
Theorem generate_subdomains_degenerate (chars : string) (L : Z) :
  (L < 0 -> generate_subdomains chars L = Raises ValueError)
  /\ (L = 0 -> generate_subdomains chars L = Ok [""])
  /\ (1 <= L -> generate_subdomains "" L = Ok []).
Proof.
  split; [|split].
  - intros H; unfold generate_subdomains, product.
    destruct (Z.ltb_spec L 0); [reflexivity | lia].
  - intros ->; reflexivity.
  - intros H; rewrite generate_subdomains_ok by lia. f_equal.
    destruct (Z.to_nat L) as [|n] eqn:E; [lia|]. simpl.
    clear; induction n as [|n IH]; [reflexivity | exact IH].
Qed.

Lemma generate_subdomains_degenerate_witness :
  generate_subdomains default_chars (-1) = Raises ValueError
  /\ generate_subdomains default_chars 0 = Ok [""]
  /\ generate_subdomains "" 3 = Ok [].
Proof.
  split; [|split].
  - apply (generate_subdomains_degenerate default_chars (-1)); lia.
  - apply (generate_subdomains_degenerate default_chars 0); reflexivity.
  - apply (generate_subdomains_degenerate default_chars 3); lia.
Defined.

(** ** One probe *)

Lemma range2_nil (a b : Z) : b <= a -> range2 a b = [].
Proof. intros H; unfold range2. replace (Z.to_nat (b - a)) with O by lia. reflexivity. Qed.

Lemma range2_cons (a b : Z) : a < b -> range2 a b = a :: range2 (a + 1) b.
Proof.
  intros H; unfold range2.
  replace (Z.to_nat (b - a)) with (S (Z.to_nat (b - (a + 1)))) by lia. reflexivity.
Qed.

Lemma range2_length (a b : Z) : a <= b -> len (range2 a b) = b - a.
Proof.
  intros H; unfold len, range2.
  assert (E : forall n start step, List.length (range_up n start step) = n).
  { induction n; intros; simpl; [reflexivity | rewrite IHn; reflexivity]. }
  rewrite E; lia.
Qed.

Lemma range2_In (a b x : Z) : In x (range2 a b) <-> a <= x < b.
Proof.
  unfold range2. remember (Z.to_nat (b - a)) as n eqn:E.
  revert a E; induction n as [|n IH]; intros a E; simpl.
  - split; [tauto | lia].
  - rewrite (IH (a + 1)) by lia. lia.
Qed.

(** When every pass fails, the loop goes through all its indices, returns
    [None], and leaves the events of each failed pass. *)
Lemma attempts_all_fail (net : network) (mr : Z) (fd : string) (indices : list Z)
      (tr : list event) :
  (forall a, In a indices -> is_200 (net (url_of fd) a) = false) ->
  attempts net mr fd indices tr
  = (None, tr ++ flat_map (fun a => failure_events mr (url_of fd) a (net (url_of fd) a)) indices).
Proof.
  revert tr; induction indices as [|a indices IH]; intros tr H; simpl.
  - rewrite List.app_nil_r; reflexivity.
  - pose proof (H a (or_introl eq_refl)) as Ha.
    assert (H' : forall a', In a' indices -> is_200 (net (url_of fd) a') = false)
      by (intros; apply H; simpl; auto).
    destruct (net (url_of fd) a) as [|status body]; simpl in *.
    + rewrite IH by exact H'. rewrite <- !List.app_assoc. reflexivity.
    + rewrite Ha, IH by exact H'. rewrite <- !List.app_assoc. reflexivity.
Qed.

(** C2 (as stated, refuted). With the default engine and a server that
    answers 404 to everything, the two attempts follow each other with no
    sleep in between. *)
Lemma check_subdomain_no_backoff_on_status :
  let net : network := fun _ _ => Response 404 [] in
  exists s',
    check_subdomain net default_scanner "a" "example.com" = Ok (None, s')
    /\ trace s' = [Get "http://a.example.com" 0; Get "http://a.example.com" 1].
Proof. simpl. eexists; split; reflexivity. Qed.

(** C2 (amended). When every attempt of a probe fails (an exception or a
    status other than 200), the engine has a free slot and [max_retries]
    is not negative, [check_subdomain] makes exactly [max_retries]
    requests and returns [None] without raising.  It sleeps
    [0.1 * (attempt + 1)] after each attempt that raised, the last one
    included; after a response with another status it goes on without
    sleeping. *)
Theorem check_subdomain_all_fail (net : network) (s : scanner) (subdomain domain : string) :
  let full_domain := full_domain_of subdomain domain in
  let url := url_of full_domain in
  full_domain ∉ seen_subdomains s ->
  1 <= rate_limiter s ->
  0 <= max_retries s ->
  (forall a, 0 <= a < max_retries s -> is_200 (net url a) = false) ->
  check_subdomain net s subdomain domain
  = Ok (None,
        emit (flat_map (fun a => failure_events (max_retries s) url a (net url a))
                       (range2 0 (max_retries s)))
             (add_seen full_domain s))
  /\ len (range2 0 (max_retries s)) = max_retries s.
Proof.
  intros fd url Hseen Hlim Hmr Hfail; split; [|rewrite range2_length; lia].
  unfold check_subdomain. fold fd.
  destruct (decide (fd ∈ seen_subdomains s)) as [Hin|_]; [contradiction|].
  simpl rate_limiter. destruct (Z.leb_spec (rate_limiter s) 0); [lia|].
  simpl max_retries. rewrite attempts_all_fail.
  - reflexivity.
  - intros a Ha. apply Hfail. apply range2_In in Ha. lia.
Qed.

Lemma check_subdomain_all_fail_witness :
  let net : network := fun _ a => if a =? 0 then Failed else Response 503 [] in
  check_subdomain net default_scanner "a" "example.com"
  = Ok (None,
        emit [Get "http://a.example.com" 0; Sleep 1; Get "http://a.example.com" 1]
             (add_seen "a.example.com" default_scanner)).
Proof.
  intros net.
  refine (proj1 (check_subdomain_all_fail net default_scanner "a" "example.com" _ _ _ _)).
  - simpl. apply not_elem_of_empty.
  - simpl; lia.
  - simpl; lia.
  - intros a Ha. simpl in Ha. unfold net. destruct (a =? 0); reflexivity.
Defined.

(** C5 (failing input). A 200 response whose document has an empty
    [<title></title>]: the title tag is there, its [.string] is [None], and
    the tuple returned carries [None] instead of a string. *)
Theorem check_subdomain_empty_title :
  let net : network :=
    fun _ _ => Response 200 [Tag "html" [Tag "head" [Tag "title" []]]] in
  exists s',
    check_subdomain net default_scanner "a" "example.com"
    = Ok (Some ("a.example.com", None), s').
Proof. simpl. eexists; reflexivity. Qed.

(** ** The pool of coroutines *)

Lemma pool_step_inv (net : network) (s s' : scanner) (pool pool' : list task) :
  pool_step net (s, pool) (s', pool') ->
  exists l1 t l2 t',
    pool = l1 ++ t :: l2 /\ pool' = l1 ++ t' :: l2
    /\ step_task net s t = Some (s', t').
Proof.
  inversion 1 as [s0 pool0 i t s0' t' Hi Hstep]; subst.
  exists (take i pool), t, (drop (S i) pool), t'.
  split; [symmetry; apply take_drop_middle; exact Hi|].
  split; [|exact Hstep].
  apply insert_take_drop. apply lookup_lt_Some in Hi; exact Hi.
Qed.

Lemma pool_step_intro (net : network) (s s' : scanner) (l1 l2 : list task) (t t' : task) :
  step_task net s t = Some (s', t') ->
  pool_step net (s, l1 ++ t :: l2) (s', l1 ++ t' :: l2).
Proof.
  intros H.
  replace (l1 ++ t' :: l2) with (<[ List.length l1 := t' ]> (l1 ++ t :: l2)).
  - eapply pool_step_at; [|exact H]. apply list_lookup_middle; reflexivity.
  - rewrite insert_app_r_alt by lia. rewrite Nat.sub_diag. reflexivity.
Qed.

Lemma in_flight_app (l1 l2 : list task) :
  in_flight (l1 ++ l2) = in_flight l1 + in_flight l2.
Proof. unfold in_flight. rewrite filter_app, List.length_app. lia. Qed.

Lemma in_flight_cons (t : task) (l : list task) :
  in_flight (t :: l) = slots t + in_flight l.
Proof.
  unfold in_flight, slots. rewrite filter_cons.
  destruct t; simpl; lia.
Qed.

Lemma in_flight_nonneg (l : list task) : 0 <= in_flight l.
Proof. unfold in_flight; lia. Qed.

Lemma step_task_config (net : network) (s s' : scanner) (t t' : task) :
  step_task net s t = Some (s', t') -> same_config s s'.
Proof. intros H; step_cases H; repeat split. Qed.

Lemma step_task_limiter (net : network) (s s' : scanner) (t t' : task) :
  step_task net s t = Some (s', t') ->
  0 <= rate_limiter s ->
  0 <= rate_limiter s' /\ rate_limiter s' + slots t' = rate_limiter s + slots t.
Proof. intros H Hs; step_cases H; unfold slots; simpl; lia. Qed.

Lemma limiter_inv_step (net : network) (limit : Z) (st st' : scanner * list task) :
  engine_step net st st' -> limiter_inv limit st -> limiter_inv limit st'.
Proof.
  intros Hstep (Hc & H0 & Hsum). destruct Hstep as [[s pool] [s' pool'] Hp | s pool sub dom].
  - apply pool_step_inv in Hp as (l1 & t & l2 & t' & -> & -> & Hstep).
    simpl in *. destruct (step_task_config _ _ _ _ _ Hstep) as (Hc' & _).
    destruct (step_task_limiter _ _ _ _ _ Hstep H0) as (H0' & Hs).
    rewrite in_flight_app, in_flight_cons in Hsum.
    unfold limiter_inv; simpl. rewrite in_flight_app, in_flight_cons.
    repeat split; simpl; lia.
  - unfold limiter_inv; simpl in *. rewrite in_flight_app, in_flight_cons.
    unfold in_flight at 2, slots; simpl. repeat split; lia.
Qed.

Lemma limiter_inv_steps (net : network) (limit : Z) (st st' : scanner * list task) :
  rtc (engine_step net) st st' -> limiter_inv limit st -> limiter_inv limit st'.
Proof. induction 1; eauto using limiter_inv_step. Qed.

(** C3. In every state an engine reaches from its construction, whatever
    calls of [check_subdomain] are made and however the event loop
    interleaves them, the number of coroutines inside the semaphore (the
    probes dispatched and not yet completed) is at most
    [concurrent_requests]; for the engine of [main] that is 50. *)
Theorem in_flight_bounded (net : network) (limit retries size : Z)
        (s0 s : scanner) (pool : list task) :
  init limit retries size = Ok s0 ->
  rtc (engine_step net) (s0, []) (s, pool) ->
  in_flight pool <= limit /\ concurrent_requests s = limit.
Proof.
  intros Hinit Hrun. unfold init in Hinit.
  destruct (Z.ltb_spec limit 0); [discriminate|]. simplify_eq.
  apply (limiter_inv_steps _ limit) in Hrun.
  - destruct Hrun as (Hc & H0 & Hsum); simpl in *. lia.
  - unfold limiter_inv, in_flight; simpl; lia.
Qed.

Lemma in_flight_bounded_witness :
  in_flight [Getting "a.example.com" 0; Pending "b" "example.com"] <= 50.
Proof.
  set (net := (fun _ _ => Failed) : network).
  refine (proj1 (in_flight_bounded net 50 2 1000 default_scanner
                   (set_limiter 49 (add_seen "a.example.com" default_scanner))
                   [Getting "a.example.com" 0; Pending "b" "example.com"] _ _)).
  - reflexivity.
  - eapply rtc_l; [apply (engine_spawn net _ [] "a" "example.com")|].
    eapply rtc_l; [apply (engine_spawn net _ _ "b" "example.com")|].
    eapply rtc_l; [apply engine_resume;
                   apply (pool_step_at net _ _ O (Pending "a" "example.com")); reflexivity|].
    eapply rtc_l; [apply engine_resume;
                   apply (pool_step_at net _ _ O (Acquiring "a.example.com")); reflexivity|].
    apply rtc_refl.
Defined.

(** ** Deduplication *)

Lemma url_of_inj (x y : string) : url_of x = url_of y -> x = y.
Proof. unfold url_of; simpl; intros H; injection H; auto. Qed.

Lemma requests_app (tr es : list event) : requests (tr ++ es) = requests tr ++ requests es.
Proof. apply omap_app. Qed.

Lemma requests_on_exception (mr : Z) (url : string) (a : Z) :
  requests (on_exception mr url a) = [].
Proof. unfold on_exception; destruct (a =? mr - 1); reflexivity. Qed.

(** The three kinds of resumption: one that neither requests nor marks a
    candidate, the start of a probe, and a request. *)
Lemma step_task_kinds (net : network) (s s' : scanner) (t t' : task) :
  step_task net s t = Some (s', t') ->
  (seen_subdomains s' = seen_subdomains s
   /\ requests (trace s') = requests (trace s)
   /\ (active t' = None \/ (active t' = active t /\ next_attempt t' = next_attempt t)))
  \/ (exists sub dom,
        t = Pending sub dom /\ t' = Acquiring (full_domain_of sub dom)
        /\ (full_domain_of sub dom ∉ seen_subdomains s)
        /\ seen_subdomains s' = ({[ full_domain_of sub dom ]} ∪ seen_subdomains s)
        /\ requests (trace s') = requests (trace s))
  \/ (exists fd a,
        t = Getting fd a
        /\ seen_subdomains s' = seen_subdomains s
        /\ requests (trace s') = requests (trace s) ++ [(url_of fd, a)]
        /\ (active t' = None \/ (active t' = Some fd /\ next_attempt t' = a + 1))).
Proof.
  intros H; step_cases H; simpl;
    rewrite ?requests_app; simpl; rewrite ?requests_on_exception;
    first [ left; repeat split; auto; fail
          | right; left; eauto 10; fail
          | right; right; eauto 10 ].
Qed.

Lemma omap_active_middle (l1 l2 : list task) (t : task) :
  omap active (l1 ++ t :: l2)
  = omap active l1 ++ option_list (active t) ++ omap active l2.
Proof. rewrite omap_app; simpl. destruct (active t); reflexivity. Qed.

Lemma active_elem (pool : list task) (fd : string) :
  fd ∈ omap active pool <-> exists t, t ∈ pool /\ active t = Some fd.
Proof. apply list_elem_of_omap. Qed.

Lemma once_inv_pool_step (net : network) (st st' : scanner * list task) :
  pool_step net st st' -> once_inv st -> once_inv st'.
Proof.
  destruct st as [s pool], st' as [s' pool'].
  intros Hstep (Hnd & Hact & Hreq & Hnd2).
  apply pool_step_inv in Hstep as (l1 & t & l2 & t' & -> & -> & Hstep).
  unfold once_inv; simpl in *.
  rewrite omap_active_middle in *.
  assert (Hrest : forall t0 fd0, t0 ∈ l1 ++ l2 -> active t0 = Some fd0 ->
            fd0 ∈ seen_subdomains s
            /\ (forall a, (url_of fd0, a) ∈ requests (trace s) -> a < next_attempt t0)
            /\ active t <> Some fd0).
  { intros t0 fd0 Hin Hfd0.
    destruct (Hact t0 fd0) as [H1 H2]; [set_solver | exact Hfd0 |].
    split; [exact H1 | split; [exact H2|]].
    intros Ht. rewrite Ht in Hnd. simpl in Hnd.
    apply NoDup_app in Hnd as (_ & Hd & Hnd). apply NoDup_cons in Hnd as [Hn _].
    apply elem_of_app in Hin as [Hin|Hin].
    - apply (Hd fd0); [apply active_elem; eauto | left].
    - apply Hn, active_elem; eauto. }
  assert (Hdrop : NoDup (omap active l1 ++ omap active l2)).
  { apply NoDup_app in Hnd as (H1 & Hd & H2). apply NoDup_app in H2 as (_ & _ & H2).
    apply NoDup_app; repeat split; [exact H1 | | exact H2].
    intros x Hx Hx'. apply (Hd x Hx). set_solver. }
  destruct (step_task_kinds _ _ _ _ _ Hstep)
    as [(Hseen & Hrq & Hk) | [(sub & dom & -> & -> & Hnew & Hseen & Hrq)
                             | (fd & a & -> & Hseen & Hrq & Hk)]];
    rewrite Hseen, Hrq.
  - (* neither a request nor a new candidate *)
    split; [|split; [|split]]; [| |exact Hreq|exact Hnd2].
    + destruct Hk as [-> | [-> _]]; [exact Hdrop | exact Hnd].
    + intros t0 fd0 Hin Hfd0.
      apply elem_of_app in Hin as [Hin|Hin]; [|apply elem_of_cons in Hin as [->|Hin]].
      * destruct (Hrest t0 fd0) as (? & ? & _); auto; set_solver.
      * destruct Hk as [Hk | [Hk Hn]]; [congruence|].
        rewrite Hn. apply Hact; [set_solver | congruence].
      * destruct (Hrest t0 fd0) as (? & ? & _); auto; set_solver.
  - (* the start of a probe *)
    set (fd := full_domain_of sub dom) in *. simpl in *.
    split; [|split; [|split]]; [| | |exact Hnd2].
    + apply NoDup_app in Hdrop as (H1 & Hd & H2).
      apply NoDup_app; repeat split; [exact H1 | |].
      * intros x Hx Hx'. apply elem_of_cons in Hx' as [->|Hx']; [|exact (Hd x Hx Hx')].
        apply active_elem in Hx as (t0 & Hin & Ht0).
        destruct (Hrest t0 fd) as (? & _); [set_solver | exact Ht0 | contradiction].
      * apply NoDup_cons; split; [|exact H2].
        intros Hx. apply active_elem in Hx as (t0 & Hin & Ht0).
        destruct (Hrest t0 fd) as (? & _); [set_solver | exact Ht0 | contradiction].
    + intros t0 fd0 Hin Hfd0.
      apply elem_of_app in Hin as [Hin|Hin]; [|apply elem_of_cons in Hin as [->|Hin]].
      * destruct (Hrest t0 fd0) as (? & ? & _); auto; set_solver.
      * simpl in Hfd0. injection Hfd0 as <-. split; [set_solver|].
        intros a Ha. destruct (Hreq _ _ Ha) as (fd' & Hu & Hs).
        apply url_of_inj in Hu as <-. contradiction.
      * destruct (Hrest t0 fd0) as (? & ? & _); auto; set_solver.
    + intros url a Ha. destruct (Hreq _ _ Ha) as (fd' & Hu & Hs).
      exists fd'; split; [exact Hu | set_solver].
  - (* a request *)
    simpl in *.
    destruct (Hact (Getting fd a) fd) as [Hs Hb]; [set_solver | reflexivity |].
    simpl in Hb.
    split; [|split; [|split]].
    + destruct Hk as [-> | [-> _]]; [exact Hdrop | exact Hnd].
    + intros t0 fd0 Hin Hfd0.
      assert (Hother : t0 ∈ l1 ++ l2 ->
                fd0 ∈ seen_subdomains s
                /\ forall a0, (url_of fd0, a0) ∈ requests (trace s) ++ [(url_of fd, a)] ->
                              a0 < next_attempt t0).
      { intros Hin'. destruct (Hrest t0 fd0 Hin' Hfd0) as (H1 & H2 & H3).
        split; [exact H1|]. intros a0 Ha0.
        apply elem_of_app in Ha0 as [Ha0|Ha0]; [auto|].
        apply list_elem_of_singleton, pair_equal_spec in Ha0 as [Hu _].
        apply url_of_inj in Hu as ->. contradiction. }
      apply elem_of_app in Hin as [Hin|Hin]; [|apply elem_of_cons in Hin as [->|Hin]].
      * apply Hother; set_solver.
      * destruct Hk as [Hk | [Hk Hn]]; [congruence|].
        rewrite Hk in Hfd0. injection Hfd0 as <-. split; [exact Hs|].
        intros a0 Ha0. rewrite Hn.
        apply elem_of_app in Ha0 as [Ha0|Ha0]; [specialize (Hb _ Ha0); lia|].
        apply list_elem_of_singleton, pair_equal_spec in Ha0 as [_ ->]. lia.
      * apply Hother; set_solver.
    + intros url a0 Ha0.
      apply elem_of_app in Ha0 as [Ha0|Ha0]; [exact (Hreq _ _ Ha0)|].
      apply list_elem_of_singleton, pair_equal_spec in Ha0 as [-> ->]. eauto.
    + apply NoDup_app; repeat split; [exact Hnd2 | | apply NoDup_singleton].
      intros x Hx Hx'. apply list_elem_of_singleton in Hx' as ->.
      specialize (Hb _ Hx). lia.
Qed.

Lemma once_inv_step (net : network) (st st' : scanner * list task) :
  engine_step net st st' -> once_inv st -> once_inv st'.
Proof.
  intros [st1 st2 Hp | s pool sub dom] Hinv; [eapply once_inv_pool_step; eauto|].
  destruct Hinv as (Hnd & Hact & Hreq & Hnd2). unfold once_inv; simpl in *.
  rewrite omap_app; simpl. rewrite List.app_nil_r.
  split; [exact Hnd | split; [|split; [exact Hreq | exact Hnd2]]].
  intros t fd Hin Hfd. apply elem_of_app in Hin as [Hin|Hin]; [auto|].
  apply list_elem_of_singleton in Hin as ->. discriminate.
Qed.

Lemma once_inv_steps (net : network) (st st' : scanner * list task) :
  rtc (engine_step net) st st' -> once_inv st -> once_inv st'.
Proof. induction 1; eauto using once_inv_step. Qed.

Lemma seen_mono_step (net : network) (st st' : scanner * list task) :
  engine_step net st st' -> seen_subdomains st.1 ⊆ seen_subdomains st'.1.
Proof.
  intros [[s pool] [s' pool'] Hp | s pool sub dom]; simpl; [|reflexivity].
  apply pool_step_inv in Hp as (l1 & t & l2 & t' & -> & -> & Hstep).
  destruct (step_task_kinds _ _ _ _ _ Hstep)
    as [(-> & _) | [(sub & dom & _ & _ & _ & -> & _) | (fd & a & _ & -> & _)]];
    set_solver.
Qed.

Lemma seen_mono (net : network) (st st' : scanner * list task) :
  rtc (engine_step net) st st' -> seen_subdomains st.1 ⊆ seen_subdomains st'.1.
Proof.
  induction 1 as [|st1 st2 st3 Hstep _ IH]; [reflexivity|].
  etransitivity; [eapply seen_mono_step; exact Hstep | exact IH].
Qed.

Lemma check_subdomain_seen (net : network) (s : scanner) (subdomain domain : string) :
  full_domain_of subdomain domain ∈ seen_subdomains s ->
  check_subdomain net s subdomain domain = Ok (None, s).
Proof. intros H; unfold check_subdomain. rewrite decide_True by exact H. reflexivity. Qed.

(** C1. Over the lifetime of an engine, whatever calls of
    [check_subdomain] are made and however they interleave: no request is
    ever made twice, so each candidate is probed at most once; a candidate
    is in the seen set before any request for it is made, the first call
    putting it there in its first step, which makes no request; a call for
    a candidate already seen returns [None] at once, with no request and
    the engine unchanged; and the seen set never shrinks, so this holds
    for every later call. *)
Theorem probe_at_most_once (net : network) (limit retries size : Z)
        (s0 s : scanner) (pool : list task) :
  init limit retries size = Ok s0 ->
  rtc (engine_step net) (s0, []) (s, pool) ->
  NoDup (requests (trace s))
  /\ (forall url a, (url, a) ∈ requests (trace s) ->
        exists full_domain, url = url_of full_domain /\ full_domain ∈ seen_subdomains s)
  /\ (forall subdomain domain,
        full_domain_of subdomain domain ∉ seen_subdomains s ->
        exists s1,
          step_task net s (Pending subdomain domain)
          = Some (s1, Acquiring (full_domain_of subdomain domain))
          /\ full_domain_of subdomain domain ∈ seen_subdomains s1
          /\ trace s1 = trace s
          /\ forall a, (url_of (full_domain_of subdomain domain), a) ∉ requests (trace s))
  /\ (forall subdomain domain,
        full_domain_of subdomain domain ∈ seen_subdomains s ->
        step_task net s (Pending subdomain domain) = Some (s, Finished None)
        /\ check_subdomain net s subdomain domain = Ok (None, s))
  /\ (forall s2 pool2,
        rtc (engine_step net) (s, pool) (s2, pool2) ->
        seen_subdomains s ⊆ seen_subdomains s2).
Proof.
  intros Hinit Hrun. unfold init in Hinit.
  destruct (Z.ltb_spec limit 0); [discriminate|]. simplify_eq.
  apply once_inv_steps in Hrun.
  2:{ unfold once_inv; simpl.
      split; [apply NoDup_nil_2 | split; [|split; [|apply NoDup_nil_2]]].
      - intros t fd Hin; inversion Hin.
      - intros url a Hin; inversion Hin. }
  destruct Hrun as (_ & _ & Hreq & Hnd); simpl in *.
  split; [exact Hnd | split; [exact Hreq | split; [|split]]].
  - intros sub dom Hnew. exists (add_seen (full_domain_of sub dom) s).
    simpl. rewrite decide_False by exact Hnew.
    repeat split; [set_solver|].
    intros a Ha. destruct (Hreq _ _ Ha) as (fd & Hu & Hs).
    apply url_of_inj in Hu as <-. contradiction.
  - intros sub dom Hseen. split; [|apply check_subdomain_seen; exact Hseen].
    simpl. rewrite decide_True by exact Hseen. reflexivity.
  - intros s2 pool2 Hrun2. exact (seen_mono _ _ _ Hrun2).
Qed.

Lemma probe_at_most_once_witness :
  NoDup (requests [Get "http://a.example.com" 0; Sleep 1]).
Proof.
  set (net := (fun _ _ => Failed) : network).
  refine (proj1 (probe_at_most_once net 50 2 1000 default_scanner
                   (emit [Get "http://a.example.com" 0; Sleep 1]
                         (set_limiter 49 (add_seen "a.example.com" default_scanner)))
                   [Sleeping "a.example.com" 0] _ _)).
  - reflexivity.
  - eapply rtc_l; [apply (engine_spawn net _ [] "a" "example.com")|].
    eapply rtc_l; [apply engine_resume;
                   apply (pool_step_at net _ _ O (Pending "a" "example.com")); reflexivity|].
    eapply rtc_l; [apply engine_resume;
                   apply (pool_step_at net _ _ O (Acquiring "a.example.com")); reflexivity|].
    eapply rtc_l; [apply engine_resume;
                   apply (pool_step_at net _ _ O (Getting "a.example.com" 0)); reflexivity|].
    apply rtc_refl.
Defined.

(** ** A chunk under any interleaving *)

Lemma attempts_skip (net : network) (mr : Z) (fd : string) (n : nat) :
  forall (start a : Z) (tr : list event),
    Z.to_nat (a - start) = n -> start <= a ->
    (forall a', start <= a' < a -> is_200 (net (url_of fd) a') = false) ->
    exists tr', attempts net mr fd (range2 start mr) tr = attempts net mr fd (range2 a mr) tr'.
Proof.
  induction n as [|n IH]; intros start a tr Hn Hle Hfail.
  - assert (a = start) as -> by lia. eauto.
  - destruct (Z.le_gt_cases mr start) as [Hmr|Hmr].
    + rewrite !range2_nil by lia. eauto.
    + rewrite (range2_cons start mr) by lia. simpl.
      pose proof (Hfail start ltac:(lia)) as H0.
      destruct (net (url_of fd) start) as [|status body]; simpl in H0.
      * apply IH; [lia | lia | intros; apply Hfail; lia].
      * rewrite H0. apply IH; [lia | lia | intros; apply Hfail; lia].
Qed.

Lemma probe_none (net : network) (mr : Z) (fd : string) (a : Z) :
  mr <= a -> failed_below net fd a -> probe net mr fd = None.
Proof.
  intros Hle Hfail; unfold probe. rewrite attempts_all_fail; [reflexivity|].
  intros a' Ha'. apply range2_In in Ha'. apply Hfail; lia.
Qed.

Lemma probe_some (net : network) (mr : Z) (fd : string) (a : Z) (body : list node) :
  0 <= a < mr -> failed_below net fd a ->
  net (url_of fd) a = Response 200 body ->
  probe net mr fd = Some (fd, title_of body).
Proof.
  intros Ha Hfail Hnet; unfold probe.
  destruct (attempts_skip net mr fd (Z.to_nat (a - 0)) 0 a [] eq_refl) as [tr' ->];
    [lia | exact Hfail |].
  rewrite (range2_cons a mr) by lia. simpl. rewrite Hnet. reflexivity.
Qed.

Lemma failed_below_succ (net : network) (fd : string) (a : Z) :
  failed_below net fd a -> is_200 (net (url_of fd) a) = false ->
  failed_below net fd (a + 1).
Proof.
  intros H Ha a' Ha'. destruct (Z.eq_dec a' a) as [->|]; [exact Ha | apply H; lia].
Qed.

(** One resumption keeps the coroutine of label [l] where it should be,
    and marks no candidate but its own. *)
Lemma step_task_ok (net : network) (seen0 : gset string) (domain l : string)
      (s s' : scanner) (t t' : task) :
  task_ok net seen0 (max_retries s) domain l t ->
  step_task net s t = Some (s', t') ->
  seen0 ⊆ seen_subdomains s ->
  (started t = false -> full_domain_of l domain ∈ seen_subdomains s ->
   full_domain_of l domain ∈ seen0) ->
  task_ok net seen0 (max_retries s) domain l t'
  /\ started t' = true
  /\ ((seen_subdomains s' = seen_subdomains s
       /\ (started t = true \/ full_domain_of l domain ∈ seen_subdomains s))
      \/ seen_subdomains s' = ({[ full_domain_of l domain ]} ∪ seen_subdomains s)).
Proof.
  intros Hok Hstep Hsub Hfresh.
  destruct t as [sub dom|fd|fd a|fd a|r]; simpl in Hstep, Hok.
  - destruct Hok as [-> ->].
    destruct (decide (full_domain_of l domain ∈ seen_subdomains s)) as [Hin|Hnew];
      simplify_eq; simpl.
    + split; [|split; [reflexivity | left; auto]].
      unfold expected. rewrite decide_True; [reflexivity | auto].
    + split; [|split; [reflexivity | right; reflexivity]].
      split; [reflexivity | set_solver].
  - destruct Hok as [-> Hn]. case_match; simplify_eq; simpl.
    repeat split; auto; try lia. intros a' Ha'; lia.
  - destruct Hok as (-> & Hn & H0 & Hf).
    destruct (Z.ltb_spec a (max_retries s)) as [Hlt|Hge].
    + destruct (net (url_of (full_domain_of l domain)) a) as [|status body] eqn:Hnet.
      * simplify_eq; simpl. repeat split; auto.
        apply failed_below_succ; [exact Hf | rewrite Hnet; reflexivity].
      * destruct (Z.eqb_spec status 200) as [->|Hst]; simplify_eq; simpl.
        -- split; [|split; [reflexivity | left; auto]].
           unfold expected. rewrite decide_False by exact Hn.
           symmetry. apply (probe_some _ _ _ a); [lia | exact Hf | exact Hnet].
        -- repeat split; auto; try lia.
           apply failed_below_succ; [exact Hf|]. rewrite Hnet; simpl.
           apply Z.eqb_neq; exact Hst.
    + simplify_eq; simpl. split; [|split; [reflexivity | left; auto]].
      unfold expected. rewrite decide_False by exact Hn.
      symmetry. apply (probe_none _ _ _ a); [lia | exact Hf].
  - destruct Hok as (-> & Hn & H0 & Hf). simplify_eq; simpl.
    repeat split; auto; lia.
  - discriminate.
Qed.

Lemma step_task_trace (net : network) (seen0 : gset string) (domain l : string)
      (labels : list string) (s s' : scanner) (t t' : task) :
  task_ok net seen0 (max_retries s) domain l t ->
  l ∈ labels ->
  step_task net s t = Some (s', t') ->
  exists es, trace s' = trace s ++ es /\ Forall (probe_event seen0 domain labels) es.
Proof.
  intros Hok Hl Hstep.
  assert (Hnil : trace s = trace s ++ []) by (rewrite List.app_nil_r; reflexivity).
  destruct t as [sub dom|fd|fd a|fd a|r]; simpl in Hstep, Hok;
    repeat case_match; simplify_eq; simpl;
    try (exists []; split; [exact Hnil | constructor]).
  all: destruct Hok as (-> & Hn & _).
  all: assert (Hurl : exists l0, l0 ∈ labels
                        /\ url_of (full_domain_of l domain) = url_of (full_domain_of l0 domain)
                        /\ full_domain_of l0 domain ∉ seen0) by eauto.
  all: eexists; split; [reflexivity|].
  - constructor; [exact Hurl|]. unfold on_exception.
    destruct (a =? max_retries s - 1); simpl; repeat constructor; exact Hurl.
  - constructor; [exact Hurl | constructor].
  - constructor; [exact Hurl | constructor].
Qed.

Lemma started_fds_app (domain : string) (ls1 ls2 : list string) (p1 p2 : list task) :
  List.length ls1 = List.length p1 ->
  started_fds domain (ls1 ++ ls2) (p1 ++ p2)
  = started_fds domain ls1 p1 ++ started_fds domain ls2 p2.
Proof.
  revert p1; induction ls1 as [|l ls1 IH]; intros [|t p1] H; simpl in *;
    try discriminate; [reflexivity|].
  rewrite IH by lia. rewrite List.app_assoc. reflexivity.
Qed.

Lemma started_fds_elem (domain : string) (ls : list string) (p : list task) (x : string) :
  x ∈ started_fds domain ls p -> exists l, l ∈ ls /\ x = full_domain_of l domain.
Proof.
  revert p; induction ls as [|l ls IH]; intros [|t p] H; simpl in *;
    try (inversion H; fail).
  apply elem_of_app in H as [H|H].
  - destruct (started t); [|inversion H].
    apply list_elem_of_singleton in H as ->. exists l; split; [left | reflexivity].
  - destruct (IH _ H) as (l' & Hl' & ->). exists l'; split; [right; exact Hl' | reflexivity].
Qed.

Lemma same_config_trans (s1 s2 s3 : scanner) :
  same_config s1 s2 -> same_config s2 s3 -> same_config s1 s3.
Proof. unfold same_config; intros (?&?&?&?) (?&?&?&?); repeat split; congruence. Qed.

Lemma step_task_slots (net : network) (s s' : scanner) (t t' : task) :
  step_task net s t = Some (s', t') ->
  rate_limiter s' + slots t' = rate_limiter s + slots t.
Proof. intros H; step_cases H; unfold slots; simpl; lia. Qed.

Lemma chunk_inv_step (net : network) (s0 : scanner) (domain : string)
      (labels : list string) (st st' : scanner * list task) :
  NoDup ((fun l => full_domain_of l domain) <$> labels) ->
  pool_step net st st' ->
  chunk_inv net s0 domain labels st -> chunk_inv net s0 domain labels st'.
Proof.
  destruct st as [s pool], st' as [s' pool'].
  intros Hnd Hstep (Hcfg & Hall & Hseen & Hlim & es & Htr & Hes).
  apply pool_step_inv in Hstep as (p1 & t & p2 & t' & -> & -> & Hstep).
  simpl in *.
  apply Forall2_app_inv_r in Hall as (ls1 & ls' & Hall1 & Hall2 & ->).
  apply Forall2_cons_inv_r in Hall2 as (l & ls2 & Hok & Hall2 & ->).
  pose proof (Forall2_length _ _ _ Hall1) as Hlen1.
  assert (Hmr : max_retries s = max_retries s0) by apply Hcfg.
  rewrite <- Hmr in Hok.
  rewrite started_fds_app in Hseen by exact Hlen1. simpl in Hseen.
  rewrite fmap_app, fmap_cons in Hnd.
  apply NoDup_app in Hnd as (_ & Hd1 & Hnd). apply NoDup_cons in Hnd as (Hd2 & _).
  assert (Hout1 : full_domain_of l domain ∉ started_fds domain ls1 p1).
  { intros Hin. apply started_fds_elem in Hin as (l' & Hl' & Heq).
    apply (Hd1 (full_domain_of l domain)); [|left].
    rewrite Heq. apply list_elem_of_fmap; eauto. }
  assert (Hout2 : full_domain_of l domain ∉ started_fds domain ls2 p2).
  { intros Hin. apply started_fds_elem in Hin as (l' & Hl' & Heq).
    apply Hd2. rewrite Heq. apply list_elem_of_fmap; eauto. }
  destruct (step_task_ok net (seen_subdomains s0) domain l s s' t t' Hok Hstep)
    as (Hok' & Hst' & Hseen').
  { rewrite Hseen; set_solver. }
  { intros Hst Hin. rewrite Hst in Hseen. rewrite Hseen in Hin. set_solver. }
  destruct (step_task_trace net (seen_subdomains s0) domain l (ls1 ++ l :: ls2)
              s s' t t' Hok) as (es' & Htr' & Hes'); [set_solver | exact Hstep |].
  unfold chunk_inv; simpl. split; [|split; [|split; [|split]]].
  - eapply same_config_trans; [exact Hcfg | eapply step_task_config; exact Hstep].
  - apply Forall2_app; [exact Hall1|]. constructor; [|exact Hall2].
    rewrite <- Hmr. exact Hok'.
  - rewrite started_fds_app by exact Hlen1. simpl. rewrite Hst'.
    destruct Hseen' as [[-> [Hst|Hin]] | ->]; rewrite Hseen.
    + rewrite Hst. reflexivity.
    + rewrite Hseen in Hin. destruct (started t); set_solver.
    + destruct (started t); set_solver.
  - pose proof (step_task_slots _ _ _ _ _ Hstep) as Hs.
    rewrite in_flight_app, in_flight_cons in *. lia.
  - exists (es ++ es'). rewrite Htr', Htr, List.app_assoc. split; [reflexivity|].
    apply List.Forall_app; split; assumption.
Qed.

Lemma chunk_inv_steps (net : network) (s0 : scanner) (domain : string)
      (labels : list string) (st st' : scanner * list task) :
  NoDup ((fun l => full_domain_of l domain) <$> labels) ->
  rtc (pool_step net) st st' ->
  chunk_inv net s0 domain labels st -> chunk_inv net s0 domain labels st'.
Proof. intros Hnd; induction 1; eauto using chunk_inv_step. Qed.

Lemma same_config_refl (s : scanner) : same_config s s.
Proof. repeat split. Qed.

Lemma chunk_inv_init (net : network) (s : scanner) (domain : string) (labels : list string) :
  chunk_inv net s domain labels (s, map (fun l => Pending l domain) labels).
Proof.
  unfold chunk_inv; simpl.
  assert (Hst : started_fds domain labels (map (fun l => Pending l domain) labels) = []).
  { induction labels as [|l labels IH]; simpl; [reflexivity | exact IH]. }
  assert (Hfl : in_flight (map (fun l => Pending l domain) labels) = 0).
  { clear. induction labels as [|l labels IH]; simpl; [reflexivity|].
    rewrite in_flight_cons, IH; reflexivity. }
  split; [apply same_config_refl | split; [|split; [|split]]].
  - clear. induction labels as [|l labels IH]; simpl; constructor;
      [split; reflexivity | exact IH].
  - rewrite Hst. set_solver.
  - rewrite Hfl. lia.
  - exists []. rewrite List.app_nil_r. split; [reflexivity | constructor].
Qed.

Lemma chunk_inv_final (net : network) (s s' : scanner) (domain : string)
      (labels : list string) (results : list (option result)) :
  chunk_inv net s domain labels (s', map Finished results) ->
  results = map (expected net (seen_subdomains s) (max_retries s) domain) labels
  /\ same_config s s'
  /\ seen_subdomains s'
     = seen_subdomains s ∪ list_to_set ((fun l => full_domain_of l domain) <$> labels)
  /\ rate_limiter s' = rate_limiter s
  /\ exists es, trace s' = trace s ++ es
                /\ Forall (probe_event (seen_subdomains s) domain labels) es.
Proof.
  intros (Hcfg & Hall & Hseen & Hlim & Htr); simpl in *.
  assert (Hres : results = map (expected net (seen_subdomains s) (max_retries s) domain) labels).
  { clear -Hall. revert results Hall.
    induction labels as [|l labels IH]; intros [|r results] Hall; simpl in *;
      inversion Hall; subst; [reflexivity|].
    simpl in *. f_equal; [assumption | apply IH; assumption]. }
  assert (Hst : started_fds domain labels (map Finished results)
                = (fun l => full_domain_of l domain) <$> labels).
  { clear -Hall. revert results Hall.
    induction labels as [|l labels IH]; intros [|r results] Hall; simpl in *;
      inversion Hall; subst; [reflexivity|].
    f_equal. apply IH; assumption. }
  assert (Hfl : in_flight (map Finished results) = 0).
  { clear. induction results as [|r results IH]; simpl; [reflexivity|].
    rewrite in_flight_cons, IH; reflexivity. }
  rewrite Hst in Hseen. rewrite Hfl in Hlim.
  split; [exact Hres | split; [exact Hcfg | split; [exact Hseen | split; [lia | exact Htr]]]].
Qed.

(** What an event loop returns for a chunk whose candidates are pairwise
    distinct does not depend on the interleaving. *)
Lemma gather_spec (net : network) (gather : gatherer) (s s' : scanner) (domain : string)
      (labels : list string) (results : list (option result)) :
  event_loop net gather ->
  NoDup ((fun l => full_domain_of l domain) <$> labels) ->
  gather s domain labels = Ok (results, s') ->
  results = map (expected net (seen_subdomains s) (max_retries s) domain) labels
  /\ same_config s s'
  /\ seen_subdomains s'
     = seen_subdomains s ∪ list_to_set ((fun l => full_domain_of l domain) <$> labels)
  /\ rate_limiter s' = rate_limiter s
  /\ exists es, trace s' = trace s ++ es
                /\ Forall (probe_event (seen_subdomains s) domain labels) es.
Proof.
  intros Hloop Hnd Hg. specialize (Hloop s domain labels). rewrite Hg in Hloop.
  apply chunk_inv_final.
  eapply chunk_inv_steps; [exact Hnd | exact Hloop | apply chunk_inv_init].
Qed.

(** ** The coroutines run one after the other *)

Lemma attempts_run (net : network) (l1 l2 : list task) (fd : string)
      (c mr cs : Z) (ch : string) (seen : gset string) (v : Z) (base : list event) (n : nat) :
  forall (a : Z) (tr : list event) (r : option result) (tr' : list event),
    Z.to_nat (mr - a) = n ->
    attempts net mr fd (range2 a mr) tr = (r, tr') ->
    rtc (pool_step net)
        (Scanner c mr cs ch seen v (base ++ tr), l1 ++ Getting fd a :: l2)
        (Scanner c mr cs ch seen (v + 1) (base ++ tr'), l1 ++ Finished r :: l2).
Proof.
  induction n as [|n IH]; intros a tr r tr' Hn Hat.
  - rewrite range2_nil in Hat by lia. simpl in Hat. simplify_eq.
    apply rtc_once, pool_step_intro. simpl.
    destruct (Z.ltb_spec a mr); [lia | reflexivity].
  - rewrite range2_cons in Hat by lia. simpl in Hat.
    destruct (net (url_of fd) a) as [|status body] eqn:Hnet.
    + eapply rtc_l.
      { apply pool_step_intro. simpl. rewrite Hnet.
        destruct (Z.ltb_spec a mr); [reflexivity | lia]. }
      eapply rtc_l; [apply pool_step_intro; reflexivity|].
      unfold emit; simpl. rewrite <- List.app_assoc. apply IH; [lia | exact Hat].
    + destruct (status =? 200) eqn:Hst.
      * simplify_eq. apply rtc_once.
        rewrite List.app_assoc. apply pool_step_intro. simpl. rewrite Hnet, Hst.
        destruct (Z.ltb_spec a mr); [reflexivity | lia].
      * eapply rtc_l.
        { apply pool_step_intro. simpl. rewrite Hnet, Hst.
          destruct (Z.ltb_spec a mr); [reflexivity | lia]. }
        unfold emit; simpl. rewrite <- List.app_assoc. apply IH; [lia | exact Hat].
Qed.

Lemma check_subdomain_run (net : network) (s s' : scanner) (l d : string)
      (r : option result) (l1 l2 : list task) :
  check_subdomain net s l d = Ok (r, s') ->
  rtc (pool_step net) (s, l1 ++ Pending l d :: l2) (s', l1 ++ Finished r :: l2).
Proof.
  unfold check_subdomain. intros H.
  destruct (decide (full_domain_of l d ∈ seen_subdomains s)) as [Hin|Hnew].
  - simplify_eq. apply rtc_once, pool_step_intro. simpl.
    rewrite decide_True by exact Hin. reflexivity.
  - destruct s as [c mr cs ch seen v base]; simpl in *.
    destruct (Z.leb_spec v 0) as [|Hv]; [discriminate|].
    destruct (attempts net mr (full_domain_of l d) (range2 0 mr) []) as [r0 tr] eqn:Hat.
    simplify_eq.
    eapply rtc_l.
    { apply pool_step_intro. simpl. rewrite decide_False by exact Hnew. reflexivity. }
    eapply rtc_l.
    { apply pool_step_intro. simpl. destruct (Z.ltb_spec 0 v); [reflexivity | lia]. }
    unfold add_seen, set_limiter, emit; simpl.
    replace v with (v - 1 + 1) at 2 by lia.
    rewrite <- (List.app_nil_r base) at 1.
    eapply attempts_run; [reflexivity | exact Hat].
Qed.

Lemma gather_seq_run (net : network) (domain : string) (labels : list string) :
  forall (s s' : scanner) (results : list (option result)) (pre : list task),
    gather_seq net s domain labels = Ok (results, s') ->
    rtc (pool_step net) (s, pre ++ map (fun l => Pending l domain) labels)
                        (s', pre ++ map Finished results).
Proof.
  induction labels as [|l labels IH]; intros s s' results pre H; simpl in H.
  - simplify_eq. apply rtc_refl.
  - destruct (check_subdomain net s l domain) as [[r s1]| |] eqn:Hc; simpl in H;
      try discriminate.
    destruct (gather_seq net s1 domain labels) as [[rs s2]| |] eqn:Hg; simpl in H;
      try discriminate.
    simplify_eq. simpl.
    etransitivity; [apply check_subdomain_run; exact Hc|].
    rewrite (cons_middle (Finished r)), (cons_middle (Finished r) pre), !List.app_assoc.
    apply IH. exact Hg.
Qed.

(** The sequential run only fails to return when a candidate is unseen
    and the semaphore has no slot. *)
Lemma gather_seq_cases (net : network) (domain : string) (labels : list string) :
  forall s : scanner,
    (exists results s', gather_seq net s domain labels = Ok (results, s'))
    \/ (gather_seq net s domain labels = Hangs
        /\ rate_limiter s <= 0
        /\ exists l, l ∈ labels /\ full_domain_of l domain ∉ seen_subdomains s).
Proof.
  induction labels as [|l labels IH]; intros s; simpl; [left; eauto|].
  unfold check_subdomain.
  destruct (decide (full_domain_of l domain ∈ seen_subdomains s)) as [Hin|Hnew]; simpl.
  - destruct (IH s) as [(rs & s' & ->) | (-> & Hv & l' & Hl' & Hn)]; simpl.
    + left; eauto.
    + right. split; [reflexivity | split; [exact Hv|]]. exists l'; split; [right|]; auto.
  - destruct (Z.leb_spec (rate_limiter s) 0) as [Hv|Hv].
    + right. split; [reflexivity | split; [exact Hv|]]. exists l; split; [left|]; auto.
    + destruct (attempts net (max_retries s) (full_domain_of l domain)
                         (range2 0 (max_retries s)) []) as [r tr]; simpl.
      match goal with |- context [gather_seq net ?s1 domain labels] =>
        destruct (IH s1) as [(rs & s' & ->) | (_ & Hv' & _)] end; simpl.
      * left; eauto.
      * simpl in Hv'. lia.
Qed.

Lemma stuck_step (net : network) (st st' : scanner * list task) :
  pool_step net st st' -> stuck st -> stuck st'.
Proof.
  destruct st as [s pool], st' as [s' pool'].
  intros Hstep (Hv & Hfl & w & Hw & Hwait). simpl in *.
  apply pool_step_inv in Hstep as (l1 & t & l2 & t' & -> & -> & Hstep).
  rewrite in_flight_app, in_flight_cons in Hfl.
  pose proof (in_flight_nonneg l1). pose proof (in_flight_nonneg l2).
  assert (Hslot : slots t = 0) by (unfold slots in *; destruct (holds_slot t); lia).
  unfold stuck; simpl. rewrite in_flight_app, in_flight_cons.
  destruct t as [sub dom|fd|fd a|fd a|r]; simpl in Hstep; try discriminate.
  - destruct (decide (full_domain_of sub dom ∈ seen_subdomains s)) as [Hin|Hnew];
      simplify_eq; simpl.
    + split; [exact Hv | split; [unfold slots in *; simpl; lia|]].
      exists w. split; [|exact Hwait].
      apply elem_of_app in Hw as [Hw|Hw]; [set_solver|].
      apply elem_of_cons in Hw as [->|Hw]; [|set_solver].
      simpl in Hwait. contradiction.
    + split; [exact Hv | split; [unfold slots in *; simpl; lia|]].
      exists (Acquiring (full_domain_of sub dom)). split; [set_solver | exact I].
  - destruct (Z.ltb_spec 0 (rate_limiter s)); [lia | discriminate].
Qed.

Lemma stuck_forever (net : network) (s s' : scanner) (domain l : string)
      (labels : list string) (results : list (option result)) :
  rate_limiter s <= 0 -> l ∈ labels ->
  full_domain_of l domain ∉ seen_subdomains s ->
  ~ rtc (pool_step net) (s, map (fun l => Pending l domain) labels)
                        (s', map Finished results).
Proof.
  intros Hv Hl Hnew Hrun.
  assert (Hend : stuck (s', map Finished results)).
  { revert Hrun. generalize (s', map Finished results).
    assert (H0 : stuck (s, map (fun l => Pending l domain) labels)).
    { split; [exact Hv | split]; simpl.
      - clear. induction labels as [|l labels IH]; simpl; [reflexivity|].
        rewrite in_flight_cons, IH; reflexivity.
      - exists (Pending l domain). split; [|exact Hnew].
        apply list_elem_of_In, in_map_iff. exists l; split; [reflexivity|].
        apply list_elem_of_In; exact Hl. }
    revert H0. generalize (s, map (fun l => Pending l domain) labels).
    intros st H0 st' Hrun. induction Hrun; eauto using stuck_step. }
  destruct Hend as (_ & _ & w & Hw & Hwait). simpl in *.
  apply list_elem_of_In, in_map_iff in Hw as (r & <- & _). exact Hwait.
Qed.

(** The sequential gatherer is an event loop. *)
Lemma gather_seq_event_loop (net : network) : event_loop net (gather_seq net).
Proof.
  intros s domain labels.
  destruct (gather_seq_cases net domain labels s)
    as [(rs & s' & Hg) | (Hg & Hv & l & Hl & Hnew)]; rewrite Hg.
  - apply (gather_seq_run net domain labels s s' rs []). exact Hg.
  - intros s' results. eapply stuck_forever; eauto.
Qed.

(** An event loop returns for a chunk as soon as the semaphore has a slot
    or every candidate has been seen. *)
Lemma gather_returns (net : network) (gather : gatherer) (s : scanner) (domain : string)
      (labels : list string) :
  event_loop net gather ->
  (1 <= rate_limiter s
   \/ forall l, l ∈ labels -> full_domain_of l domain ∈ seen_subdomains s) ->
  exists results s', gather s domain labels = Ok (results, s').
Proof.
  intros Hloop Hcan. specialize (Hloop s domain labels).
  destruct (gather s domain labels) as [[rs s']| |]; [eauto | contradiction |].
  exfalso.
  destruct (gather_seq_cases net domain labels s)
    as [(rs & s' & Hg) | (Hg & Hv & l & Hl & Hnew)].
  - apply (Hloop s' rs). apply (gather_seq_run net domain labels s s' rs []). exact Hg.
  - destruct Hcan as [Hc|Hc]; [lia | exact (Hnew (Hc l Hl))].
Qed.

(** ** Chunks *)

Lemma len_nonneg {A : Type} (l : list A) : 0 <= len l.
Proof. unfold len; lia. Qed.

Lemma len_app {A : Type} (l k : list A) : len (l ++ k) = len l + len k.
Proof. unfold len; rewrite List.length_app; lia. Qed.

Lemma chunk_at_len (cs : Z) (l : list string) (i : Z) :
  0 <= i -> 0 <= cs -> len (chunk_at cs l i) = Z.max 0 (Z.min cs (len l - i)).
Proof.
  intros Hi Hcs. unfold chunk_at, slice, len.
  rewrite List.length_firstn, List.length_skipn. lia.
Qed.

Lemma div_ceil_zero (x cs : Z) : 1 <= cs -> (x + cs - 1) / cs <= 0 -> x <= 0.
Proof.
  intros Hcs H.
  pose proof (Z.div_mod (x + cs - 1) cs ltac:(lia)).
  pose proof (Z.mod_pos_bound (x + cs - 1) cs ltac:(lia)). nia.
Qed.

Lemma div_ceil_step (x cs : Z) : 1 <= cs -> (x - cs + cs - 1) / cs = (x + cs - 1) / cs - 1.
Proof.
  intros Hcs. replace (x - cs + cs - 1) with (x + cs - 1 + (-1) * cs) by lia.
  rewrite Z.div_add by lia. lia.
Qed.

Lemma div_ceil_pos (x cs : Z) : 1 <= cs -> 1 <= (x + cs - 1) / cs -> 1 <= x.
Proof.
  intros Hcs H.
  pose proof (Z.div_mod (x + cs - 1) cs ltac:(lia)).
  pose proof (Z.mod_pos_bound (x + cs - 1) cs ltac:(lia)). nia.
Qed.

(** The chunks from index [i] on make up the list from [i] on, in order. *)
Lemma chunks_concat_from (cs : Z) (l : list string) (n : nat) :
  forall i : Z,
    0 <= i -> 1 <= cs ->
    n = Z.to_nat ((len l - i + cs - 1) / cs) ->
    flat_map (chunk_at cs l) (range_up n i cs) = skipn (Z.to_nat i) l.
Proof.
  induction n as [|n IH]; intros i Hi Hcs Hn; simpl.
  - symmetry. apply List.skipn_all2.
    assert (len l - i <= 0) by (apply (div_ceil_zero _ cs); lia).
    unfold len in *; lia.
  - rewrite IH; [|lia|exact Hcs|].
    + unfold chunk_at, slice.
      replace (Z.to_nat (i + cs)) with (Z.to_nat (i + cs - i) + Z.to_nat i)%nat by lia.
      rewrite <- List.skipn_skipn. apply List.firstn_skipn.
    + replace (len l - (i + cs) + cs - 1) with (len l - i - cs + cs - 1) by lia.
      rewrite div_ceil_step by lia. lia.
Qed.

Lemma starts_of_pos (cs : Z) (l : list string) :
  1 <= cs ->
  range3 0 (len l) cs = Ok (starts_of cs l)
  /\ starts_of cs l = range_up (Z.to_nat ((len l - 0 + cs - 1) / cs)) 0 cs.
Proof.
  intros Hcs. unfold starts_of, range3.
  destruct (Z.eqb_spec cs 0); [lia|]. destruct (Z.ltb_spec 0 cs); [|lia].
  split; reflexivity.
Qed.

Lemma starts_of_nonpos (cs : Z) (l : list string) : cs <= 0 -> starts_of cs l = [].
Proof.
  intros Hcs. unfold starts_of, range3.
  destruct (Z.eqb_spec cs 0); [reflexivity|]. destruct (Z.ltb_spec 0 cs); [lia|].
  replace (Z.to_nat ((0 - len l - cs - 1) / - cs)) with O; [reflexivity|].
  pose proof (len_nonneg l).
  pose proof (Z.div_mod (0 - len l - cs - 1) (- cs) ltac:(lia)).
  pose proof (Z.mod_pos_bound (0 - len l - cs - 1) (- cs) ltac:(lia)). nia.
Qed.

(** With a positive chunk size the chunks partition the list in order. *)
Lemma chunks_concat (cs : Z) (l : list string) :
  1 <= cs -> flat_map (chunk_at cs l) (starts_of cs l) = l.
Proof.
  intros Hcs. destruct (starts_of_pos cs l Hcs) as [_ ->].
  rewrite chunks_concat_from; [reflexivity | lia | exact Hcs | reflexivity].
Qed.

(** The processed counts of the chunks from index [i] on grow strictly. *)
Lemma processed_increasing_from (cs : Z) (l : list string) (n : nat) :
  forall i : Z,
    0 <= i -> 1 <= cs ->
    n = Z.to_nat ((len l - i + cs - 1) / cs) ->
    let ps := map (fun i => i + len (chunk_at cs l i)) (range_up n i cs) in
    StronglySorted Z.lt ps /\ Forall (fun p => i < p) ps.
Proof.
  induction n as [|n IH]; intros i Hi Hcs Hn; simpl; [split; constructor|].
  destruct (IH (i + cs)) as [Hs Hb]; [lia | exact Hcs | |].
  { replace (len l - (i + cs) + cs - 1) with (len l - i - cs + cs - 1) by lia.
    rewrite div_ceil_step by lia. lia. }
  assert (1 <= len l - i) by (apply (div_ceil_pos _ cs); lia).
  rewrite chunk_at_len by lia.
  split; constructor; try lia; try exact Hs.
  - eapply List.Forall_impl; [|exact Hb]. simpl; intros; lia.
  - eapply List.Forall_impl; [|exact Hb]. simpl; intros; lia.
Qed.

(** ** Progress events *)

Lemma processed_of_app (tr es : list event) :
  processed_of (tr ++ es) = processed_of tr ++ processed_of es.
Proof. apply omap_app. Qed.

Lemma step_task_quiet (net : network) (s s' : scanner) (t t' : task) :
  step_task net s t = Some (s', t') ->
  processed_of (trace s') = processed_of (trace s).
Proof.
  intros H; step_cases H; simpl; rewrite ?processed_of_app; simpl;
    rewrite ?List.app_nil_r; try reflexivity.
  unfold on_exception. destruct (_ =? _); simpl; rewrite List.app_nil_r; reflexivity.
Qed.

Lemma pool_steps_quiet (net : network) (st st' : scanner * list task) :
  rtc (pool_step net) st st' ->
  same_config st.1 st'.1 /\ processed_of (trace st'.1) = processed_of (trace st.1).
Proof.
  induction 1 as [st|st1 st2 st3 Hstep _ [IHc IHp]]; [split; [apply same_config_refl|reflexivity]|].
  destruct st1 as [s1 p1], st2 as [s2 p2].
  apply pool_step_inv in Hstep as (l1 & t & l2 & t' & -> & -> & Hstep). simpl in *.
  split.
  - eapply same_config_trans; [eapply step_task_config; exact Hstep | exact IHc].
  - rewrite IHp. eapply step_task_quiet; exact Hstep.
Qed.

(** The inner loop emits one progress event per chunk, with
    [processed = i + len(chunk)]. *)
Lemma scan_chunks_processed (net : network) (gather : gatherer) (domain : string)
      (subdomains : list string) (starts : list Z) :
  event_loop net gather ->
  forall (s : scanner) (all_results : list result) (out : list result * scanner),
    scan_chunks gather domain subdomains starts s all_results = Ok out ->
    same_config s out.2
    /\ processed_of (trace out.2)
       = processed_of (trace s)
         ++ map (fun i => i + len (chunk_at (chunk_size s) subdomains i)) starts.
Proof.
  intros Hloop. induction starts as [|i starts IH]; intros s all_results out H; simpl in H.
  - simplify_eq. simpl. rewrite List.app_nil_r.
    split; [apply same_config_refl | reflexivity].
  - unfold scan_subdomains_chunk in H.
    pose proof (Hloop s domain (slice subdomains i (i + chunk_size s))) as Hrun.
    destruct (gather s domain (slice subdomains i (i + chunk_size s))) as [[rs s1]| |];
      simpl in H; try discriminate.
    apply pool_steps_quiet in Hrun as [Hcfg Hp]. simpl in Hcfg, Hp.
    apply IH in H as [Hcfg' Hp']. simpl in Hcfg', Hp'.
    assert (Hcs : chunk_size s1 = chunk_size s) by apply Hcfg.
    split.
    + eapply same_config_trans; [exact Hcfg|]. exact Hcfg'.
    + rewrite Hp', processed_of_app, Hp. simpl. rewrite Hcs.
      rewrite <- List.app_assoc. reflexivity.
Qed.

(** C7 (amended). Within the scan of one length, for every event loop:
    the progress events, one per chunk, carry
    [processed = chunk_start + actual chunk size], and these values are
    strictly increasing; for a length with 36 candidates and chunks of
    10 they are 10, 20, 30, 36. *)
Theorem progress_increasing (net : network) (gather : gatherer) (domain : string)
        (subdomains : list string) (starts : list Z) (s : scanner)
        (all_results : list result) (out : list result * scanner) :
  event_loop net gather ->
  range3 0 (len subdomains) (chunk_size s) = Ok starts ->
  scan_chunks gather domain subdomains starts s all_results = Ok out ->
  exists ps,
    processed_of (trace out.2) = processed_of (trace s) ++ ps
    /\ ps = map (fun i => i + len (chunk_at (chunk_size s) subdomains i)) starts
    /\ StronglySorted Z.lt ps
    /\ (len subdomains = 36 -> chunk_size s = 10 -> ps = [10; 20; 30; 36]).
Proof.
  intros Hloop Hstarts Hscan.
  destruct (scan_chunks_processed net gather domain subdomains starts Hloop _ _ _ Hscan)
    as [_ Hp].
  eexists; split; [exact Hp | split; [reflexivity|]].
  destruct (Z.le_gt_cases (chunk_size s) 0) as [Hcs|Hcs].
  - assert (starts = []) as ->.
    { pose proof (starts_of_nonpos (chunk_size s) subdomains Hcs) as H0.
      unfold starts_of in H0. rewrite Hstarts in H0. exact H0. }
    split; [constructor | intros; lia].
  - destruct (starts_of_pos (chunk_size s) subdomains) as [H1 H2]; [lia|].
    rewrite Hstarts in H1. injection H1 as ->. rewrite H2.
    split.
    + apply processed_increasing_from; [lia | lia | reflexivity].
    + intros Hlen Hten. rewrite Hlen, Hten. simpl.
      rewrite !chunk_at_len by lia. rewrite Hlen. reflexivity.
Qed.

(** ** The scan of a domain under any event loop *)

Lemma expected_ext (net : network) (seen0 seen1 : gset string) (mr : Z) (domain l : string) :
  (full_domain_of l domain ∈ seen1 <-> full_domain_of l domain ∈ seen0) ->
  expected net seen1 mr domain l = expected net seen0 mr domain l.
Proof.
  intros H; unfold expected.
  destruct (decide (full_domain_of l domain ∈ seen1)), (decide (full_domain_of l domain ∈ seen0));
    tauto.
Qed.

Lemma probe_event_mono (seen0 seen1 : gset string) (domain : string) (chunk : list string)
      (e : event) :
  seen0 ⊆ seen1 -> probe_event seen1 domain chunk e -> probe_event seen0 domain chunk e.
Proof.
  intros Hsub; destruct e; simpl; try tauto;
    intros (l & Hl & Hu & Hn); exists l; (split; [exact Hl | split; [exact Hu | set_solver]]).
Qed.

Lemma chunks_trace_ext (ev ev' : list string -> event -> Prop)
      (f f' : string -> option result) (cs : Z) (subdomains : list string)
      (starts : list Z) (found : Z) (tr : list event) :
  (forall chunk e,
      (forall l, l ∈ chunk -> l ∈ flat_map (chunk_at cs subdomains) starts) ->
      ev chunk e -> ev' chunk e) ->
  (forall l, l ∈ flat_map (chunk_at cs subdomains) starts -> f l = f' l) ->
  chunks_trace ev f cs subdomains starts found tr ->
  chunks_trace ev' f' cs subdomains starts found tr.
Proof.
  intros Hev Hf H. induction H as [found|i starts found es tr chunk found' Hes Htr IH].
  - constructor.
  - assert (Hc : map f (chunk_at cs subdomains i) = map f' (chunk_at cs subdomains i)).
    { apply map_ext_in. intros l Hl. apply Hf. simpl.
      apply elem_of_app; left. apply list_elem_of_In; exact Hl. }
    subst found' chunk. rewrite Hc in *. constructor.
    + eapply List.Forall_impl; [|exact Hes]. intros e. apply Hev.
      intros l Hl. simpl. apply elem_of_app; left; exact Hl.
    + apply IH.
      * intros chunk e Hsub. apply Hev. intros l Hl. simpl.
        apply elem_of_app; right; auto.
      * intros l Hl. apply Hf. simpl. apply elem_of_app; right; exact Hl.
Qed.

Lemma scan_trace_ext (ev ev' : list string -> event -> Prop)
      (f f' : string -> option result) (domain chars : string) (cs : Z)
      (lengths : list Z) (found : Z) (tr : list event) :
  (forall chunk e,
      (forall l, l ∈ chunk -> l ∈ scanned chars cs lengths) ->
      ev chunk e -> ev' chunk e) ->
  (forall l, l ∈ scanned chars cs lengths -> f l = f' l) ->
  scan_trace ev f domain chars cs lengths found tr ->
  scan_trace ev' f' domain chars cs lengths found tr.
Proof.
  intros Hev Hf H.
  induction H as [found|L lengths found tr_L tr subdomains starts found' Hct Hst IH].
  - constructor.
  - assert (Hc : map f (flat_map (chunk_at cs (labels chars L)) (starts_of cs (labels chars L)))
                 = map f' (flat_map (chunk_at cs (labels chars L)) (starts_of cs (labels chars L)))).
    { apply map_ext_in. intros l Hl. apply Hf. simpl.
      apply elem_of_app; left. apply list_elem_of_In; exact Hl. }
    subst found' starts subdomains. rewrite Hc in *. constructor.
    + eapply chunks_trace_ext; [| | exact Hct].
      * intros chunk e Hsub. apply Hev. intros l Hl. simpl.
        apply elem_of_app; left; auto.
      * intros l Hl. apply Hf. simpl. apply elem_of_app; left; exact Hl.
    + apply IH.
      * intros chunk e Hsub. apply Hev. intros l Hl. simpl.
        apply elem_of_app; right; auto.
      * intros l Hl. apply Hf. simpl. apply elem_of_app; right; exact Hl.
Qed.

Lemma not_none_app (l k : list (option result)) :
  not_none (l ++ k) = not_none l ++ not_none k.
Proof. apply omap_app. Qed.

(** What the inner loop returns and leaves behind, for every event loop. *)
Lemma scan_chunks_spec (net : network) (gather : gatherer) (domain : string)
      (subdomains : list string) (starts : list Z) :
  event_loop net gather ->
  forall (s : scanner) (all_results : list result) (out : list result * scanner),
    NoDup ((fun l => full_domain_of l domain)
             <$> flat_map (chunk_at (chunk_size s) subdomains) starts) ->
    scan_chunks gather domain subdomains starts s all_results = Ok out ->
    let E := expected net (seen_subdomains s) (max_retries s) domain in
    let ls := flat_map (chunk_at (chunk_size s) subdomains) starts in
    out.1 = all_results ++ not_none (map E ls)
    /\ same_config s out.2
    /\ rate_limiter out.2 = rate_limiter s
    /\ seen_subdomains out.2
       = seen_subdomains s ∪ list_to_set ((fun l => full_domain_of l domain) <$> ls)
    /\ exists tr,
        trace out.2 = trace s ++ tr
        /\ chunks_trace (probe_event (seen_subdomains s) domain) E
                        (chunk_size s) subdomains starts (len all_results) tr.
Proof.
  intros Hloop. induction starts as [|i starts IH]; intros s all_results out Hnd H;
    simpl in H.
  - simplify_eq. simpl. rewrite !List.app_nil_r.
    split; [reflexivity | split; [apply same_config_refl | split; [reflexivity|]]].
    split; [set_solver|]. exists []. rewrite List.app_nil_r. split; [reflexivity | constructor].
  - unfold scan_subdomains_chunk in H. fold (chunk_at (chunk_size s) subdomains i) in H.
    set (chunk := chunk_at (chunk_size s) subdomains i) in *.
    destruct (gather s domain chunk) as [[rs s1]| |] eqn:Hg; simpl in H; try discriminate.
    simpl in Hnd. fold chunk in Hnd. rewrite fmap_app in Hnd.
    apply NoDup_app in Hnd as (Hnd1 & Hdisj & Hnd2).
    destruct (gather_spec net gather s s1 domain chunk rs Hloop Hnd1 Hg)
      as (-> & Hcfg & Hseen & Hrate & es & Htr & Hes).
    assert (Hcs : chunk_size s1 = chunk_size s) by apply Hcfg.
    assert (Hmr : max_retries s1 = max_retries s) by apply Hcfg.
    apply IH in H; [|simpl; rewrite Hcs; exact Hnd2].
    simpl in H. rewrite Hcs, Hmr, Hseen, Hrate, Htr in H.
    destruct H as (Hout & Hcfg' & Hrate' & Hseen' & tr & Htr' & Hct).
    assert (Hext : forall l, l ∈ flat_map (chunk_at (chunk_size s) subdomains) starts ->
              expected net (seen_subdomains s ∪ list_to_set ((fun l => full_domain_of l domain) <$> chunk))
                       (max_retries s) domain l
              = expected net (seen_subdomains s) (max_retries s) domain l).
    { intros l Hl. apply expected_ext.
      assert (full_domain_of l domain ∉ (fun l => full_domain_of l domain) <$> chunk).
      { intros Hin. apply (Hdisj _ Hin). apply list_elem_of_fmap; eauto. }
      rewrite elem_of_union, elem_of_list_to_set. tauto. }
    simpl. fold chunk. rewrite map_app, not_none_app.
    split; [|split; [|split; [|split]]].
    + rewrite Hout, <- List.app_assoc. f_equal. f_equal. f_equal.
      apply map_ext_in. intros l Hl. apply Hext. apply list_elem_of_In; exact Hl.
    + eapply same_config_trans; [exact Hcfg|].
      destruct Hcfg' as (?&?&?&?). repeat split; simpl in *; assumption.
    + exact Hrate'.
    + rewrite Hseen', fmap_app, list_to_set_app_L, (assoc_L (∪)). reflexivity.
    + exists (es ++ Progress (i + len chunk) (len subdomains)
                       (len all_results
                        + len (not_none (map (expected net (seen_subdomains s) (max_retries s) domain) chunk)))
                 :: tr).
      split; [rewrite Htr'; rewrite <- !List.app_assoc; simpl; rewrite len_app; reflexivity|].
      apply chunks_next; [exact Hes|].
      rewrite len_app in Hct.
      eapply chunks_trace_ext; [| |exact Hct].
      * intros c e _. apply probe_event_mono. set_solver.
      * exact Hext.
Qed.

(** The inner loop returns as soon as the semaphore has a slot or all its
    candidates have been seen. *)
Lemma scan_chunks_returns (net : network) (gather : gatherer) (domain : string)
      (subdomains : list string) (starts : list Z) :
  event_loop net gather ->
  forall (s : scanner) (all_results : list result),
    NoDup ((fun l => full_domain_of l domain)
             <$> flat_map (chunk_at (chunk_size s) subdomains) starts) ->
    (1 <= rate_limiter s
     \/ forall l, l ∈ flat_map (chunk_at (chunk_size s) subdomains) starts ->
                  full_domain_of l domain ∈ seen_subdomains s) ->
    exists out, scan_chunks gather domain subdomains starts s all_results = Ok out.
Proof.
  intros Hloop. induction starts as [|i starts IH]; intros s all_results Hnd Hcan; simpl.
  - eauto.
  - unfold scan_subdomains_chunk. fold (chunk_at (chunk_size s) subdomains i).
    set (chunk := chunk_at (chunk_size s) subdomains i) in *.
    simpl in Hnd, Hcan. fold chunk in Hnd, Hcan. rewrite fmap_app in Hnd.
    apply NoDup_app in Hnd as (Hnd1 & _ & Hnd2).
    destruct (gather_returns net gather s domain chunk Hloop) as (rs & s1 & Hg).
    { destruct Hcan as [Hc|Hc]; [left; exact Hc | right; intros; apply Hc; set_solver]. }
    destruct (gather_spec net gather s s1 domain chunk rs Hloop Hnd1 Hg)
      as (_ & Hcfg & Hseen & Hrate & _).
    rewrite Hg; simpl.
    assert (Hcs : chunk_size s1 = chunk_size s) by apply Hcfg.
    apply IH; simpl; rewrite Hcs; [exact Hnd2|].
    destruct Hcan as [Hc|Hc]; [left; lia | right].
    intros l Hl. rewrite Hseen. apply elem_of_union; left. apply Hc. set_solver.
Qed.

Lemma generate_subdomains_labels (chars : string) (L : Z) (subdomains : list string) :
  generate_subdomains chars L = Ok subdomains -> 0 <= L /\ subdomains = labels chars L.
Proof.
  unfold generate_subdomains, product, labels.
  destruct (Z.ltb_spec L 0) as [|HL]; simpl; [discriminate|].
  intros Heq; simplify_eq. split; [lia|reflexivity].
Qed.

Lemma range3_starts (cs : Z) (subdomains : list string) (starts : list Z) :
  range3 0 (len subdomains) cs = Ok starts -> starts = starts_of cs subdomains.
Proof. intros H; unfold starts_of; rewrite H; reflexivity. Qed.

(** What the outer loop returns and leaves behind, for every event loop. *)
Lemma scan_lengths_spec (net : network) (gather : gatherer) (domain : string)
      (lengths : list Z) :
  event_loop net gather ->
  forall (s : scanner) (all_results : list result) (out : list result * scanner),
    NoDup ((fun l => full_domain_of l domain) <$> scanned (chars s) (chunk_size s) lengths) ->
    scan_lengths gather domain lengths s all_results = Ok out ->
    let E := expected net (seen_subdomains s) (max_retries s) domain in
    let ls := scanned (chars s) (chunk_size s) lengths in
    out.1 = all_results ++ not_none (map E ls)
    /\ same_config s out.2
    /\ rate_limiter out.2 = rate_limiter s
    /\ seen_subdomains out.2
       = seen_subdomains s ∪ list_to_set ((fun l => full_domain_of l domain) <$> ls)
    /\ exists tr,
        trace out.2 = trace s ++ tr
        /\ scan_trace (probe_event (seen_subdomains s) domain) E domain (chars s)
                      (chunk_size s) lengths (len all_results) tr.
Proof.
  intros Hloop. induction lengths as [|L lengths IH]; intros s all_results out Hnd H;
    simpl in H.
  - simplify_eq. simpl. rewrite !List.app_nil_r.
    split; [reflexivity | split; [apply same_config_refl | split; [reflexivity|]]].
    split; [set_solver|]. exists []. rewrite List.app_nil_r. split; [reflexivity | constructor].
  - destruct (generate_subdomains (chars s) L) as [subdomains| |] eqn:Hgen; simpl in H;
      try discriminate.
    apply generate_subdomains_labels in Hgen as [HL ->].
    set (subdomains := labels (chars s) L) in *.
    destruct (range3 0 (len subdomains) (chunk_size s)) as [starts| |] eqn:Hr; simpl in H;
      try discriminate.
    apply range3_starts in Hr as ->.
    set (starts := starts_of (chunk_size s) subdomains) in *.
    set (chunk_ls := flat_map (chunk_at (chunk_size s) subdomains) starts).
    destruct (scan_chunks gather domain subdomains starts (emit [Info domain L] s) all_results)
      as [[all1 s1]| |] eqn:Hsc; simpl in H; try discriminate.
    simpl in Hnd. fold subdomains starts chunk_ls in Hnd. rewrite fmap_app in Hnd.
    apply NoDup_app in Hnd as (Hnd1 & Hdisj & Hnd2).
    apply (scan_chunks_spec net gather domain subdomains starts Hloop) in Hsc;
      [|exact Hnd1].
    simpl in Hsc. fold chunk_ls in Hsc.
    destruct Hsc as (-> & Hcfg & Hrate & Hseen & tr_L & Htr & Hct).
    assert (Hcs : chunk_size s1 = chunk_size s) by apply Hcfg.
    assert (Hmr : max_retries s1 = max_retries s) by apply Hcfg.
    assert (Hch : chars s1 = chars s) by apply Hcfg.
    apply IH in H; [|rewrite Hcs, Hch; exact Hnd2].
    simpl in H. rewrite Hcs, Hmr, Hch, Hseen, Hrate, Htr in H.
    destruct H as (Hout & Hcfg' & Hrate' & Hseen' & tr & Htr' & Hst).
    assert (Hext : forall l, l ∈ scanned (chars s) (chunk_size s) lengths ->
              expected net (seen_subdomains s ∪ list_to_set ((fun l => full_domain_of l domain) <$> chunk_ls))
                       (max_retries s) domain l
              = expected net (seen_subdomains s) (max_retries s) domain l).
    { intros l Hl. apply expected_ext.
      assert (full_domain_of l domain ∉ (fun l => full_domain_of l domain) <$> chunk_ls).
      { intros Hin. apply (Hdisj _ Hin). apply list_elem_of_fmap; eauto. }
      rewrite elem_of_union, elem_of_list_to_set. tauto. }
    simpl. fold subdomains starts chunk_ls. rewrite map_app, not_none_app.
    split; [|split; [|split; [|split]]].
    + rewrite Hout, <- List.app_assoc. f_equal. f_equal. f_equal.
      apply map_ext_in. intros l Hl. apply Hext. apply list_elem_of_In; exact Hl.
    + eapply same_config_trans; [|exact Hcfg'].
      destruct Hcfg as (?&?&?&?). repeat split; simpl in *; assumption.
    + exact Hrate'.
    + rewrite Hseen', fmap_app, list_to_set_app_L, (assoc_L (∪)). reflexivity.
    + exists (Info domain L :: tr_L ++ tr).
      split; [rewrite Htr'; rewrite <- !List.app_assoc; reflexivity|].
      apply scan_next; [exact Hct|]. fold subdomains starts chunk_ls.
      rewrite len_app in Hst.
      eapply scan_trace_ext; [| |exact Hst].
      * intros c e _. apply probe_event_mono. set_solver.
      * exact Hext.
Qed.

Lemma range3_ok (cs : Z) (subdomains : list string) :
  cs <> 0 -> range3 0 (len subdomains) cs = Ok (starts_of cs subdomains).
Proof.
  intros Hcs. unfold starts_of, range3.
  destruct (Z.eqb_spec cs 0); [contradiction|]. destruct (0 <? cs); reflexivity.
Qed.

(** The outer loop returns when the lengths are not negative, the chunk
    size is not zero, and the semaphore has a slot or every candidate has
    been seen. *)
Lemma scan_lengths_returns (net : network) (gather : gatherer) (domain : string)
      (lengths : list Z) :
  event_loop net gather ->
  forall (s : scanner) (all_results : list result),
    Forall (fun L => 0 <= L) lengths ->
    chunk_size s <> 0 ->
    NoDup ((fun l => full_domain_of l domain) <$> scanned (chars s) (chunk_size s) lengths) ->
    (1 <= rate_limiter s
     \/ forall l, l ∈ scanned (chars s) (chunk_size s) lengths ->
                  full_domain_of l domain ∈ seen_subdomains s) ->
    exists out, scan_lengths gather domain lengths s all_results = Ok out.
Proof.
  intros Hloop. induction lengths as [|L lengths IH]; intros s all_results HL Hcs Hnd Hcan;
    simpl.
  - eauto.
  - apply List.Forall_cons_iff in HL as [HL0 HL].
    rewrite generate_subdomains_ok by exact HL0. simpl. fold (labels (chars s) L).
    set (subdomains := labels (chars s) L) in *.
    rewrite range3_ok by exact Hcs. simpl.
    set (starts := starts_of (chunk_size s) subdomains) in *.
    simpl in Hnd, Hcan. fold subdomains starts in Hnd, Hcan. rewrite fmap_app in Hnd.
    apply NoDup_app in Hnd as (Hnd1 & _ & Hnd2).
    destruct (scan_chunks_returns net gather domain subdomains starts Hloop
                (emit [Info domain L] s) all_results) as ([all1 s1] & Hsc).
    { exact Hnd1. }
    { simpl. destruct Hcan as [Hc|Hc]; [left; exact Hc | right; intros; apply Hc; set_solver]. }
    rewrite Hsc; simpl.
    apply (scan_chunks_spec net gather domain subdomains starts Hloop) in Hsc;
      [|exact Hnd1].
    simpl in Hsc. destruct Hsc as (_ & Hcfg & Hrate & Hseen & _).
    assert (Hcs' : chunk_size s1 = chunk_size s) by apply Hcfg.
    assert (Hch : chars s1 = chars s) by apply Hcfg.
    apply IH; rewrite ?Hcs', ?Hch; [exact HL | exact Hcs | exact Hnd2 |].
    destruct Hcan as [Hc|Hc]; [left; lia | right].
    intros l Hl. rewrite Hseen. apply elem_of_union; left. apply Hc. set_solver.
Qed.

(** ** The candidates of a scan are pairwise distinct *)

Lemma list_ascii_of_string_app (a b : string) :
  list_ascii_of_string (a ++ b) = list_ascii_of_string a ++ list_ascii_of_string b.
Proof. induction a as [|c a IH]; simpl; [reflexivity | rewrite <- IH; reflexivity]. Qed.

Lemma list_ascii_of_string_inj (a b : string) :
  list_ascii_of_string a = list_ascii_of_string b -> a = b.
Proof.
  intros H. rewrite <- (string_of_list_ascii_of_string a), <- (string_of_list_ascii_of_string b), H.
  reflexivity.
Qed.

Lemma full_domain_of_inj (domain l l' : string) :
  full_domain_of l domain = full_domain_of l' domain -> l = l'.
Proof.
  unfold full_domain_of. intros H. apply (f_equal list_ascii_of_string) in H.
  rewrite !list_ascii_of_string_app in H. apply List.app_inv_tail in H.
  apply list_ascii_of_string_inj; exact H.
Qed.

Lemma labels_spec (chars : string) (L : Z) :
  List.NoDup (list_ascii_of_string chars) ->
  NoDup (labels chars L)
  /\ forall l, l ∈ labels chars L -> String.length l = Z.to_nat L.
Proof.
  intros Hnd.
  destruct (generate_subdomains_spec chars (Z.of_nat (Z.to_nat L)) ltac:(lia) Hnd)
    as (ls & Hg & _ & Hnd' & Hshape & _).
  rewrite generate_subdomains_ok in Hg by lia. rewrite Nat2Z.id in Hg.
  injection Hg as <-. fold (labels chars L) in *.
  split; [apply NoDup_ListNoDup; exact Hnd'|].
  intros l Hl. rewrite List.Forall_forall in Hshape.
  destruct (Hshape l) as [Hlen _]; [apply list_elem_of_In; exact Hl | lia].
Qed.

Lemma range_up_lower (n : nat) (a x : Z) : x ∈ range_up n a 1 -> a <= x.
Proof.
  revert a; induction n as [|n IH]; intros a H; simpl in H; [inversion H|].
  apply elem_of_cons in H as [->|H]; [lia | apply IH in H; lia].
Qed.

Lemma range2_NoDup (a b : Z) : NoDup (range2 a b).
Proof.
  unfold range2. generalize (Z.to_nat (b - a)) as n. intros n; revert a.
  induction n as [|n IH]; intros a; simpl; [constructor|].
  constructor; [|apply IH]. intros H. apply range_up_lower in H. lia.
Qed.

Lemma all_labels_NoDup (chars : string) (lengths : list Z) :
  List.NoDup (list_ascii_of_string chars) ->
  NoDup lengths -> Forall (fun L => 0 <= L) lengths ->
  NoDup (flat_map (labels chars) lengths).
Proof.
  intros Hch Hnd Hpos. induction Hnd as [|L lengths Hnotin Hnd IH]; simpl; [constructor|].
  apply List.Forall_cons_iff in Hpos as [HL Hpos].
  apply NoDup_app. split; [apply labels_spec; exact Hch | split; [|apply IH; exact Hpos]].
  intros l Hl Hl'. apply list_elem_of_In, in_flat_map in Hl' as (L' & HL' & Hl').
  apply (proj2 (labels_spec chars L Hch)) in Hl.
  apply list_elem_of_In, (proj2 (labels_spec chars L' Hch)) in Hl'.
  rewrite List.Forall_forall in Hpos. specialize (Hpos L' HL').
  assert (L = L') by lia. subst L'. apply Hnotin, list_elem_of_In; exact HL'.
Qed.

Lemma scanned_pos (chars : string) (cs : Z) (lengths : list Z) :
  1 <= cs -> scanned chars cs lengths = flat_map (labels chars) lengths.
Proof.
  intros Hcs. unfold scanned. induction lengths as [|L lengths IH]; simpl; [reflexivity|].
  rewrite IH, chunks_concat by exact Hcs. reflexivity.
Qed.

Lemma scanned_nonpos (chars : string) (cs : Z) (lengths : list Z) :
  cs <= 0 -> scanned chars cs lengths = [].
Proof.
  intros Hcs. unfold scanned. induction lengths as [|L lengths IH]; simpl; [reflexivity|].
  rewrite IH, starts_of_nonpos by exact Hcs. reflexivity.
Qed.

Lemma scanned_NoDup (chars domain : string) (cs : Z) (lengths : list Z) :
  List.NoDup (list_ascii_of_string chars) ->
  NoDup lengths -> Forall (fun L => 0 <= L) lengths ->
  NoDup ((fun l => full_domain_of l domain) <$> scanned chars cs lengths).
Proof.
  intros Hch Hnd Hpos. destruct (Z.le_gt_cases cs 0) as [Hcs|Hcs].
  - rewrite scanned_nonpos by exact Hcs. constructor.
  - rewrite scanned_pos by lia.
    apply NoDup_fmap_2_strong; [|apply all_labels_NoDup; assumption].
    intros x y _ _. apply full_domain_of_inj.
Qed.

Lemma range2_lower (a b : Z) : Forall (fun L => a <= L) (range2 a b).
Proof. apply List.Forall_forall. intros x Hx. apply range2_In in Hx. lia. Qed.

(** ** Results of a scan *)

Lemma scan_lengths_negative (gather : gatherer) (domain : string) (L : Z)
      (lengths : list Z) (s : scanner) (all_results : list result) :
  L < 0 -> scan_lengths gather domain (L :: lengths) s all_results = Raises ValueError.
Proof.
  intros HL. simpl. unfold generate_subdomains, product.
  destruct (Z.ltb_spec L 0); [reflexivity | lia].
Qed.

Lemma scan_lengths_zero_chunk (gather : gatherer) (domain : string) (L : Z)
      (lengths : list Z) (s : scanner) (all_results : list result) :
  0 <= L -> chunk_size s = 0 ->
  scan_lengths gather domain (L :: lengths) s all_results = Raises ValueError.
Proof.
  intros HL Hcs. simpl. rewrite generate_subdomains_ok by exact HL. simpl.
  unfold range3. rewrite Hcs. reflexivity.
Qed.

(** A scan that returns went through lengths that are not negative, with
    a chunk size that is not zero, unless it had no length to go through. *)
Lemma scan_domain_ok_inv (gather : gatherer) (s : scanner) (domain : string)
      (min_length max_length : Z) (out : list result * scanner) :
  scan_domain gather s domain min_length max_length = Ok out ->
  range2 min_length (max_length + 1) = []
  \/ (0 <= min_length /\ chunk_size s <> 0).
Proof.
  unfold scan_domain. intros H.
  destruct (range2 min_length (max_length + 1)) as [|L lengths] eqn:Hr; [left; reflexivity|].
  right. assert (HL : L = min_length).
  { unfold range2 in Hr. destruct (Z.to_nat (max_length + 1 - min_length)); simpl in Hr;
      [discriminate | injection Hr; auto]. }
  subst L. destruct (Z.lt_ge_cases min_length 0) as [Hneg|Hpos].
  - rewrite scan_lengths_negative in H by exact Hneg. discriminate.
  - split; [exact Hpos|]. intros Hcs.
    rewrite scan_lengths_zero_chunk in H by assumption. discriminate.
Qed.

(** C8. For every event loop, with lengths that are not negative, a
    positive chunk size and a free slot in the semaphore, [scan_domain]
    returns, and what it returns is the list of the found outcomes of all
    labels of all lengths of the range, by ascending length and, within a
    length, in the order of the generator.  The chunks of a length
    partition its labels in that order.  The events of the scan are, length
    after length and chunk after chunk, the probe events of the candidates
    of that chunk only, closed by the progress event that counts the
    results appended so far: no probe of a chunk starts before the
    results of the chunk before it are appended. *)
Theorem scan_domain_complete (net : network) (gather : gatherer) (s : scanner)
        (domain : string) (min_length max_length : Z) :
  event_loop net gather ->
  List.NoDup (list_ascii_of_string (chars s)) ->
  0 <= min_length -> 1 <= chunk_size s -> 1 <= rate_limiter s ->
  let E := expected net (seen_subdomains s) (max_retries s) domain in
  exists out,
    scan_domain gather s domain min_length max_length = Ok out
    /\ out.1 = not_none (map E (all_labels (chars s) min_length max_length))
    /\ (forall L, flat_map (chunk_at (chunk_size s) (labels (chars s) L))
                           (starts_of (chunk_size s) (labels (chars s) L))
                  = labels (chars s) L)
    /\ exists tr,
        trace out.2 = trace s ++ tr
        /\ scan_trace (probe_event (seen_subdomains s) domain) E domain (chars s)
                      (chunk_size s) (range2 min_length (max_length + 1)) 0 tr.
Proof.
  intros Hloop Hch Hmin Hcs Hrate E. unfold scan_domain.
  set (lengths := range2 min_length (max_length + 1)).
  assert (Hpos : Forall (fun L => 0 <= L) lengths).
  { eapply List.Forall_impl; [|apply range2_lower]. simpl; intros; lia. }
  assert (Hnd : NoDup ((fun l => full_domain_of l domain)
                         <$> scanned (chars s) (chunk_size s) lengths)).
  { apply scanned_NoDup; [exact Hch | apply range2_NoDup | exact Hpos]. }
  destruct (scan_lengths_returns net gather domain lengths Hloop s [] Hpos)
    as (out & Hout); [lia | exact Hnd | left; exact Hrate |].
  exists out. split; [exact Hout|].
  apply (scan_lengths_spec net gather domain lengths Hloop) in Hout; [|exact Hnd].
  simpl in Hout. destruct Hout as (Hres & _ & _ & _ & Htr).
  rewrite scanned_pos in Hres by exact Hcs.
  split; [exact Hres | split; [|exact Htr]].
  intros L. apply chunks_concat; exact Hcs.
Qed.

(** C9. Two scans of the same domain and range on fresh engines built
    alike, against the same responder, return the same found outcomes,
    whatever the two event loops do. *)
Theorem scan_domain_deterministic (net : network) (gather1 gather2 : gatherer)
        (limit retries size : Z) (s : scanner) (domain : string)
        (min_length max_length : Z) (out1 out2 : list result * scanner) :
  event_loop net gather1 -> event_loop net gather2 ->
  init limit retries size = Ok s ->
  scan_domain gather1 s domain min_length max_length = Ok out1 ->
  scan_domain gather2 s domain min_length max_length = Ok out2 ->
  out1.1 = out2.1.
Proof.
  intros Hloop1 Hloop2 Hinit H1 H2.
  assert (Hch : chars s = default_chars).
  { unfold init in Hinit. destruct (limit <? 0); [discriminate|]. simplify_eq. reflexivity. }
  destruct (scan_domain_ok_inv _ _ _ _ _ _ H1) as [Hnil | [Hmin _]].
  - unfold scan_domain in H1, H2. rewrite Hnil in H1, H2. simpl in *. congruence.
  - unfold scan_domain in H1, H2.
    set (lengths := range2 min_length (max_length + 1)) in *.
    assert (Hnd : NoDup ((fun l => full_domain_of l domain)
                           <$> scanned (chars s) (chunk_size s) lengths)).
    { apply scanned_NoDup; [rewrite Hch; exact default_chars_NoDup | apply range2_NoDup |].
      eapply List.Forall_impl; [|apply range2_lower]. simpl; intros; lia. }
    apply (scan_lengths_spec net gather1 domain lengths Hloop1) in H1; [|exact Hnd].
    apply (scan_lengths_spec net gather2 domain lengths Hloop2) in H2; [|exact Hnd].
    destruct H1 as (-> & _), H2 as (-> & _). reflexivity.
Qed.

Lemma requests_quiet (es : list event) :
  Forall (fun e => requests [e] = []) es -> requests es = [].
Proof.
  induction 1 as [|e es He _ IH]; [reflexivity|].
  change (e :: es) with ([e] ++ es). rewrite requests_app, He, IH. reflexivity.
Qed.

Lemma chunks_trace_requests (f : string -> option result) (cs : Z)
      (subdomains : list string) (starts : list Z) (found : Z) (tr : list event) :
  chunks_trace (fun _ e => requests [e] = []) f cs subdomains starts found tr ->
  requests tr = [].
Proof.
  induction 1 as [found|i starts found es tr chunk found' Hes _ IH]; [reflexivity|].
  rewrite requests_app, (requests_quiet es Hes). simpl. exact IH.
Qed.

Lemma scan_trace_requests (f : string -> option result) (domain chars : string) (cs : Z)
      (lengths : list Z) (found : Z) (tr : list event) :
  scan_trace (fun _ e => requests [e] = []) f domain chars cs lengths found tr ->
  requests tr = [].
Proof.
  induction 1 as [found|L lengths found tr_L tr subdomains starts found' Hct _ IH];
    [reflexivity|].
  change (Info domain L :: tr_L ++ tr) with ([Info domain L] ++ tr_L ++ tr).
  rewrite !requests_app, (chunks_trace_requests _ _ _ _ _ _ Hct), IH. reflexivity.
Qed.

Lemma not_none_all_none (f : string -> option result) (ls : list string) :
  (forall l, l ∈ ls -> f l = None) -> not_none (map f ls) = [].
Proof.
  induction ls as [|l ls IH]; intros H; simpl; [reflexivity|].
  unfold not_none in *. simpl. rewrite (H l) by left. simpl.
  apply IH. intros l' Hl'. apply H. right; exact Hl'.
Qed.

(** C10. When a scan has returned, every candidate of the range is in
    the seen set (with a positive chunk size, which is what makes the scan
    go through the labels), so that any later call of [check_subdomain]
    for it returns [None] at once and leaves the engine as it is; and the
    same scan run again on the same engine returns the empty list, for
    every event loop, adding no request and leaving the seen set as it
    is. *)
Theorem scan_domain_again (net : network) (gather : gatherer) (s : scanner)
        (domain : string) (min_length max_length : Z) (out : list result * scanner) :
  event_loop net gather ->
  List.NoDup (list_ascii_of_string (chars s)) ->
  scan_domain gather s domain min_length max_length = Ok out ->
  (1 <= chunk_size s ->
   forall l, l ∈ all_labels (chars s) min_length max_length ->
     full_domain_of l domain ∈ seen_subdomains out.2
     /\ forall s', seen_subdomains out.2 ⊆ seen_subdomains s' ->
                   check_subdomain net s' l domain = Ok (None, s'))
  /\ exists s2,
      scan_domain gather out.2 domain min_length max_length = Ok ([], s2)
      /\ requests (trace s2) = requests (trace out.2)
      /\ seen_subdomains s2 = seen_subdomains out.2.
Proof.
  intros Hloop Hch H1. split.
  { intros Hcs l Hl.
    assert (Hin : full_domain_of l domain ∈ seen_subdomains out.2).
    { destruct (scan_domain_ok_inv _ _ _ _ _ _ H1) as [Hnil | [Hmin _]].
      - unfold all_labels in Hl. rewrite Hnil in Hl. inversion Hl.
      - unfold scan_domain in H1.
        assert (Hpos : Forall (fun L => 0 <= L) (range2 min_length (max_length + 1))).
        { eapply List.Forall_impl; [|apply range2_lower]. simpl; intros; lia. }
        apply (scan_lengths_spec net gather domain _ Hloop) in H1;
          [|apply scanned_NoDup; [exact Hch | apply range2_NoDup | exact Hpos]].
        simpl in H1. destruct H1 as (_ & _ & _ & Hseen & _).
        rewrite scanned_pos in Hseen by exact Hcs.
        rewrite Hseen. apply elem_of_union; right.
        apply elem_of_list_to_set, list_elem_of_fmap. eauto. }
    split; [exact Hin|].
    intros s' Hsub. apply check_subdomain_seen. apply Hsub, Hin. }
  {
    destruct (scan_domain_ok_inv _ _ _ _ _ _ H1) as [Hnil | [Hmin Hcs]].
    - unfold scan_domain in *. rewrite Hnil in *. simpl in *. simplify_eq. simpl.
      exists s. repeat split.
    - unfold scan_domain in *.
      set (lengths := range2 min_length (max_length + 1)) in *.
      assert (Hpos : Forall (fun L => 0 <= L) lengths).
      { eapply List.Forall_impl; [|apply range2_lower]. simpl; intros; lia. }
      assert (Hnd : NoDup ((fun l => full_domain_of l domain)
                             <$> scanned (chars s) (chunk_size s) lengths)).
      { apply scanned_NoDup; [exact Hch | apply range2_NoDup | exact Hpos]. }
      apply (scan_lengths_spec net gather domain lengths Hloop) in H1; [|exact Hnd].
      simpl in H1. destruct H1 as (_ & Hcfg & _ & Hseen & _).
      destruct out as [rs s1]; simpl in *.
      assert (Hcs1 : chunk_size s1 = chunk_size s) by apply Hcfg.
      assert (Hch1 : chars s1 = chars s) by apply Hcfg.
      assert (Hall : forall l, l ∈ scanned (chars s) (chunk_size s) lengths ->
                               full_domain_of l domain ∈ seen_subdomains s1).
      { intros l Hl. rewrite Hseen. apply elem_of_union; right.
        apply elem_of_list_to_set, list_elem_of_fmap; eauto. }
      destruct (scan_lengths_returns net gather domain lengths Hloop s1 [] Hpos)
        as ([rs2 s2] & H2).
      { rewrite Hcs1; exact Hcs. }
      { rewrite Hcs1, Hch1; exact Hnd. }
      { right. rewrite Hcs1, Hch1. exact Hall. }
      pose proof H2 as H2'.
      apply (scan_lengths_spec net gather domain lengths Hloop) in H2';
        [|rewrite Hcs1, Hch1; exact Hnd].
      simpl in H2'. rewrite Hcs1, Hch1 in H2'.
      destruct H2' as (Hrs & _ & _ & Hseen2 & tr & Htr & Hst).
      assert (rs2 = []) as ->.
      { rewrite Hrs. apply not_none_all_none. intros l Hl. unfold expected.
        rewrite decide_True; [reflexivity | apply Hall; exact Hl]. }
      exists s2. split; [exact H2 | split].
      + rewrite Htr, requests_app.
        rewrite (scan_trace_requests
                   (expected net (seen_subdomains s1) (max_retries s1) domain)
                   domain (chars s) (chunk_size s) lengths 0 tr).
        * apply List.app_nil_r.
        * eapply scan_trace_ext; [| reflexivity | exact Hst].
          intros chunk e Hsub He. destruct e; simpl in *; try reflexivity.
          destruct He as (l & Hl & _ & Hn). exfalso. apply Hn, Hall, Hsub, Hl.
      + rewrite Hseen2. apply set_eq. intros x. rewrite elem_of_union.
        split; [|auto]. intros [Hx|Hx]; [exact Hx|].
        apply elem_of_list_to_set, list_elem_of_fmap in Hx as (l & -> & Hl). apply Hall, Hl.
  }
Qed.

(** A scan returns when its lengths are not negative, its chunk size is
    not zero and the semaphore has a slot. *)
Lemma scan_domain_returns (net : network) (gather : gatherer) (s : scanner)
      (domain : string) (min_length max_length : Z) :
  event_loop net gather ->
  List.NoDup (list_ascii_of_string (chars s)) ->
  0 <= min_length -> chunk_size s <> 0 -> 1 <= rate_limiter s ->
  exists out, scan_domain gather s domain min_length max_length = Ok out.
Proof.
  intros Hloop Hch Hmin Hcs Hrate. unfold scan_domain.
  set (lengths := range2 min_length (max_length + 1)).
  assert (Hpos : Forall (fun L => 0 <= L) lengths).
  { eapply List.Forall_impl; [|apply range2_lower]. simpl; intros; lia. }
  apply (scan_lengths_returns net gather domain lengths Hloop s [] Hpos Hcs);
    [|left; exact Hrate].
  apply scanned_NoDup; [exact Hch | apply range2_NoDup | exact Hpos].
Qed.

(** Resuming the coroutines of a pool does not depend on where they sit
    in the pool. *)
Lemma pool_steps_rev (net : network) (st st' : scanner * list task) :
  rtc (pool_step net) st st' ->
  rtc (pool_step net) (st.1, rev st.2) (st'.1, rev st'.2).
Proof.
  induction 1 as [st|[s1 p1] [s2 p2] st3 Hstep _ IH]; [apply rtc_refl|].
  apply pool_step_inv in Hstep as (l1 & t & l2 & t' & -> & -> & Hstep).
  eapply rtc_l; [|exact IH]. simpl.
  rewrite !List.rev_app_distr. simpl. rewrite <- !List.app_assoc. simpl.
  apply pool_step_intro. exact Hstep.
Qed.

(** The gatherer that goes from the last label to the first is an event
    loop too. *)
Lemma gather_rev_event_loop (net : network) : event_loop net (gather_rev net).
Proof.
  intros s domain labels. unfold gather_rev.
  pose proof (gather_seq_event_loop net s domain (rev labels)) as Hseq.
  destruct (gather_seq net s domain (rev labels)) as [[rs s']| |].
  - apply pool_steps_rev in Hseq. simpl in Hseq.
    rewrite <- !List.map_rev, List.rev_involutive in Hseq. exact Hseq.
  - exact Hseq.
  - intros s' results Hrun. apply (Hseq s' (rev results)).
    apply pool_steps_rev in Hrun. simpl in Hrun.
    rewrite <- !List.map_rev in Hrun. exact Hrun.
Qed.

Lemma scan_domain_complete_witness :
  exists out,
    scan_domain (gather_seq only_a) default_scanner "example.com" 1 1 = Ok out
    /\ out.1 = [("a.example.com", Some "Hi")].
Proof.
  destruct (scan_domain_complete only_a (gather_seq only_a) default_scanner
              "example.com" 1 1) as (out & H1 & H2 & _).
  - apply gather_seq_event_loop.
  - exact default_chars_NoDup.
  - lia.
  - simpl; lia.
  - simpl; lia.
  - exists out. split; [exact H1|]. rewrite H2. vm_compute. reflexivity.
Defined.

Lemma scan_domain_deterministic_witness :
  exists out1 out2,
    scan_domain (gather_seq only_a) default_scanner "example.com" 1 1 = Ok out1
    /\ scan_domain (gather_rev only_a) default_scanner "example.com" 1 1 = Ok out2
    /\ out1.1 = out2.1.
Proof.
  destruct (scan_domain_returns only_a (gather_seq only_a) default_scanner
              "example.com" 1 1) as (out1 & H1);
    [apply gather_seq_event_loop | exact default_chars_NoDup | lia
     | simpl; lia | simpl; lia |].
  destruct (scan_domain_returns only_a (gather_rev only_a) default_scanner
              "example.com" 1 1) as (out2 & H2);
    [apply gather_rev_event_loop | exact default_chars_NoDup | lia
     | simpl; lia | simpl; lia |].
  exists out1, out2. split; [exact H1 | split; [exact H2|]].
  apply (scan_domain_deterministic only_a (gather_seq only_a) (gather_rev only_a)
           50 2 1000 default_scanner "example.com" 1 1 out1 out2).
  - apply gather_seq_event_loop.
  - apply gather_rev_event_loop.
  - reflexivity.
  - exact H1.
  - exact H2.
Defined.

Lemma scan_domain_again_witness :
  exists out s2,
    scan_domain (gather_seq only_a) default_scanner "example.com" 1 1 = Ok out
    /\ out.1 = [("a.example.com", Some "Hi")]
    /\ "a.example.com" ∈ seen_subdomains out.2
    /\ check_subdomain only_a out.2 "a" "example.com" = Ok (None, out.2)
    /\ scan_domain (gather_seq only_a) out.2 "example.com" 1 1 = Ok ([], s2).
Proof.
  destruct (scan_domain_returns only_a (gather_seq only_a) default_scanner
              "example.com" 1 1) as (out & H1);
    [apply gather_seq_event_loop | exact default_chars_NoDup | lia
     | simpl; lia | simpl; lia |].
  destruct (scan_domain_again only_a (gather_seq only_a) default_scanner
              "example.com" 1 1 out (gather_seq_event_loop only_a)
              default_chars_NoDup H1) as (Hseen & s2 & H2 & _).
  destruct (Hseen ltac:(simpl; lia) "a") as (Hin & Hskip);
    [apply (bool_decide_unpack _); vm_compute; reflexivity|].
  exists out, s2.
  split; [exact H1 | split; [|split; [exact Hin | split; [|exact H2]]]].
  - pose proof H1 as H1'. unfold scan_domain in H1'.
    apply (scan_lengths_spec only_a (gather_seq only_a) "example.com" _
             (gather_seq_event_loop only_a)) in H1'.
    + destruct H1' as (-> & _). vm_compute. reflexivity.
    + apply scanned_NoDup; [exact default_chars_NoDup | apply range2_NoDup |].
      eapply List.Forall_impl; [|apply range2_lower]. simpl; intros; lia.
  - apply Hskip. reflexivity.
Defined.

(** The outer loop emits the progress events of its lengths one length
    after the other. *)
Lemma scan_lengths_processed (net : network) (gather : gatherer) (domain : string)
      (lengths : list Z) :
  event_loop net gather ->
  forall (s : scanner) (all_results : list result) (out : list result * scanner),
    scan_lengths gather domain lengths s all_results = Ok out ->
    same_config s out.2
    /\ processed_of (trace out.2)
       = processed_of (trace s)
         ++ flat_map (fun L =>
                        map (fun i => i + len (chunk_at (chunk_size s) (labels (chars s) L) i))
                            (starts_of (chunk_size s) (labels (chars s) L)))
                     lengths.
Proof.
  intros Hloop. induction lengths as [|L lengths IH]; intros s all_results out H; simpl in H.
  - simplify_eq. simpl. rewrite List.app_nil_r.
    split; [apply same_config_refl | reflexivity].
  - destruct (generate_subdomains (chars s) L) as [subdomains| |] eqn:Hgen; simpl in H;
      try discriminate.
    apply generate_subdomains_labels in Hgen as [HL ->].
    destruct (range3 0 (len (labels (chars s) L)) (chunk_size s)) as [starts| |] eqn:Hr;
      simpl in H; try discriminate.
    apply range3_starts in Hr as ->.
    destruct (scan_chunks gather domain (labels (chars s) L)
                          (starts_of (chunk_size s) (labels (chars s) L))
                          (emit [Info domain L] s) all_results)
      as [[all1 s1]| |] eqn:Hsc; simpl in H; try discriminate.
    apply (scan_chunks_processed net gather domain _ _ Hloop) in Hsc as [Hcfg Hp].
    simpl in Hcfg, Hp.
    apply IH in H as [Hcfg' Hp'].
    assert (Hcs : chunk_size s1 = chunk_size s) by apply Hcfg.
    assert (Hch : chars s1 = chars s) by apply Hcfg.
    split.
    + eapply same_config_trans; [|exact Hcfg'].
      destruct Hcfg as (?&?&?&?). repeat split; simpl in *; assumption.
    + rewrite Hp', Hp, Hcs, Hch, processed_of_app. simpl.
      rewrite List.app_nil_r, <- List.app_assoc. reflexivity.
Qed.

(** C7 (as stated, refuted). With chunks of 10, the scan of lengths 1 to
    2 of one domain emits the processed counts 10, 20, 30, 36 for length 1
    and starts again at 10 for length 2: over the whole domain the counts
    are not strictly increasing. *)
Lemma progress_restarts_per_length :
  exists out,
    scan_domain (gather_seq not_found) chunks_of_ten "example.com" 1 2 = Ok out
    /\ firstn 5 (processed_of (trace out.2)) = [10; 20; 30; 36; 10].
Proof.
  destruct (scan_domain_returns not_found (gather_seq not_found) chunks_of_ten
              "example.com" 1 2) as (out & H1).
  - apply gather_seq_event_loop.
  - exact default_chars_NoDup.
  - lia.
  - simpl; lia.
  - simpl; lia.
  - exists out. split; [exact H1|].
    apply (scan_lengths_processed not_found (gather_seq not_found) "example.com" _
             (gather_seq_event_loop not_found)) in H1 as [_ ->].
    vm_compute. reflexivity.
Qed.

Lemma progress_increasing_witness :
  exists out,
    scan_chunks (gather_seq not_found) "example.com" (labels default_chars 1)
                [0; 10; 20; 30] chunks_of_ten [] = Ok out
    /\ processed_of (trace out.2) = [10; 20; 30; 36].
Proof.
  destruct (scan_chunks_returns not_found (gather_seq not_found) "example.com"
              (labels default_chars 1) [0; 10; 20; 30]
              (gather_seq_event_loop not_found) chunks_of_ten []) as (out & H1).
  - apply (bool_decide_unpack _). vm_compute. reflexivity.
  - left. simpl; lia.
  - exists out. split; [exact H1|].
    destruct (progress_increasing not_found (gather_seq not_found) "example.com"
                (labels default_chars 1) [0; 10; 20; 30] chunks_of_ten [] out)
      as (ps & Hp & _ & _ & H36).
    + apply gather_seq_event_loop.
    + reflexivity.
    + exact H1.
    + rewrite Hp, H36; reflexivity.
Defined.

(** * Further properties *)

(** ** A probe that succeeds *)

Lemma range2_split (a b c : Z) : a <= b <= c -> range2 a c = range2 a b ++ range2 b c.
Proof.
  intros H. remember (Z.to_nat (b - a)) as n eqn:Hn. revert a H Hn.
  induction n as [|n IH]; intros a H Hn.
  - assert (a = b) as -> by lia. rewrite (range2_nil b b) by lia. reflexivity.
  - rewrite (range2_cons a c), (range2_cons a b) by lia. simpl. f_equal.
    apply IH; lia.
Qed.

Lemma attempts_prefix_fail (net : network) (mr : Z) (fd : string) (l1 l2 : list Z)
      (tr : list event) :
  (forall a, In a l1 -> is_200 (net (url_of fd) a) = false) ->
  attempts net mr fd (l1 ++ l2) tr
  = attempts net mr fd l2
             (tr ++ flat_map (fun a => failure_events mr (url_of fd) a (net (url_of fd) a)) l1).
Proof.
  revert tr; induction l1 as [|a l1 IH]; intros tr H; simpl.
  - rewrite List.app_nil_r; reflexivity.
  - pose proof (H a (or_introl eq_refl)) as Ha.
    assert (H' : forall a', In a' l1 -> is_200 (net (url_of fd) a') = false)
      by (intros; apply H; simpl; auto).
    destruct (net (url_of fd) a) as [|status body]; simpl in *.
    + rewrite IH by exact H'. rewrite <- !List.app_assoc. reflexivity.
    + rewrite Ha, IH by exact H'. rewrite <- !List.app_assoc. reflexivity.
Qed.

(** The loop returns a result exactly when some pass within
    [range(max_retries)] meets a 200 after failures only. *)
Lemma probe_iff (net : network) (mr : Z) (fd : string) (r : result) :
  probe net mr fd = Some r
  <-> exists a body,
      0 <= a < mr /\ failed_below net fd a
      /\ net (url_of fd) a = Response 200 body /\ r = (fd, title_of body).
Proof.
  split.
  - unfold probe. generalize (@nil event) as tr.
    assert (H : forall n start tr,
               Z.to_nat (mr - start) = n -> 0 <= start ->
               (attempts net mr fd (range2 start mr) tr).1 = Some r ->
               exists a body,
                 start <= a < mr
                 /\ (forall a', start <= a' < a -> is_200 (net (url_of fd) a') = false)
                 /\ net (url_of fd) a = Response 200 body /\ r = (fd, title_of body)).
    { induction n as [|n IH]; intros start tr Hn H0 Hr.
      - rewrite range2_nil in Hr by lia. discriminate.
      - rewrite range2_cons in Hr by lia. simpl in Hr.
        destruct (net (url_of fd) start) as [|status body] eqn:Hnet.
        + apply IH in Hr as (a & body & Ha & Hf & Hok & ->); [|lia|lia].
          exists a, body. split; [lia | split; [|auto]].
          intros a' Ha'. destruct (Z.eq_dec a' start) as [->|];
            [rewrite Hnet; reflexivity | apply Hf; lia].
        + destruct (Z.eqb_spec status 200) as [->|Hst].
          * simpl in Hr. injection Hr as <-. exists start, body.
            split; [lia | split; [intros; lia | auto]].
          * apply IH in Hr as (a & body' & Ha & Hf & Hok & ->); [|lia|lia].
            exists a, body'. split; [lia | split; [|auto]].
            intros a' Ha'. destruct (Z.eq_dec a' start) as [->|]; [|apply Hf; lia].
            rewrite Hnet; simpl. apply Z.eqb_neq; exact Hst. }
    intros tr Hr. destruct (H _ 0 tr eq_refl ltac:(lia) Hr) as (a & body & ? & Hf & ? & ?).
    exists a, body. split; [assumption | split; [|auto]].
    intros a' Ha'. apply Hf; lia.
  - intros (a & body & Ha & Hf & Hnet & ->). eapply probe_some; eauto.
Qed.

(** X1. When the first 200 comes at loop index [a] below [max_retries],
    after failures only, [check_subdomain] returns the candidate with the
    title of that response and stops: its events are those of the [a]
    failed passes and the one successful request, with no sleep after it
    and no further request. *)
Theorem check_subdomain_first_success (net : network) (s : scanner)
        (subdomain domain : string) (a : Z) (body : list node) :
  let full_domain := full_domain_of subdomain domain in
  let url := url_of full_domain in
  full_domain ∉ seen_subdomains s ->
  1 <= rate_limiter s ->
  0 <= a < max_retries s ->
  failed_below net full_domain a ->
  net url a = Response 200 body ->
  check_subdomain net s subdomain domain
  = Ok (Some (full_domain, title_of body),
        emit (flat_map (fun i => failure_events (max_retries s) url i (net url i)) (range2 0 a)
              ++ [Get url a])
             (add_seen full_domain s)).
Proof.
  intros fd url Hseen Hlim Ha Hfail Hnet.
  unfold check_subdomain. fold fd.
  destruct (decide (fd ∈ seen_subdomains s)) as [Hin|_]; [contradiction|].
  simpl rate_limiter. destruct (Z.leb_spec (rate_limiter s) 0); [lia|].
  simpl max_retries.
  rewrite (range2_split 0 a (max_retries s)) by lia.
  rewrite attempts_prefix_fail.
  - rewrite (range2_cons a) by lia. simpl. fold url. rewrite Hnet. reflexivity.
  - intros i Hi. apply range2_In in Hi. apply Hfail. lia.
Qed.

Lemma check_subdomain_first_success_witness :
  let net : network :=
    fun _ a => if a =? 0 then Failed else Response 200 hi_page in
  check_subdomain net default_scanner "a" "example.com"
  = Ok (Some ("a.example.com", Some "Hi"),
        emit [Get "http://a.example.com" 0; Sleep 1; Get "http://a.example.com" 1]
             (add_seen "a.example.com" default_scanner)).
Proof.
  intros net.
  refine (check_subdomain_first_success net default_scanner "a" "example.com" 1 hi_page
            _ _ _ _ _).
  - simpl. apply not_elem_of_empty.
  - simpl; lia.
  - simpl; lia.
  - intros a' Ha'. assert (a' = 0) as -> by lia. reflexivity.
  - reflexivity.
Defined.

(** ** Requests stay within [range(max_retries)] *)

Lemma step_task_attempts (net : network) (s s' : scanner) (t t' : task) :
  step_task net s t = Some (s', t') ->
  0 <= next_attempt t ->
  0 <= next_attempt t'
  /\ forall url a, (url, a) ∈ requests (trace s') ->
                   (url, a) ∈ requests (trace s) \/ 0 <= a < max_retries s.
Proof.
  intros H H0.
  destruct t as [sub dom|fd|fd a|fd a|r]; simpl in H, H0;
    repeat case_match; simplify_eq; simpl;
    (split; [lia|]); intros url a0 Hin; auto;
    rewrite requests_app in Hin; simpl in Hin;
    rewrite ?requests_on_exception in Hin;
    apply elem_of_app in Hin as [Hin|Hin]; auto;
    apply list_elem_of_singleton, pair_equal_spec in Hin as [_ ->];
    right; match goal with H : (_ <? _) = true |- _ => apply Z.ltb_lt in H end; lia.
Qed.

Lemma attempt_inv_step (net : network) (retries : Z) (st st' : scanner * list task) :
  engine_step net st st' -> attempt_inv retries st -> attempt_inv retries st'.
Proof.
  intros [[s pool] [s' pool'] Hp | s pool sub dom] (Hmr & Hts & Hrq); simpl in *.
  - apply pool_step_inv in Hp as (l1 & t & l2 & t' & -> & -> & Hstep).
    destruct (step_task_attempts _ _ _ _ _ Hstep) as [Ht' Hrq']; [apply Hts; set_solver|].
    destruct (step_task_config _ _ _ _ _ Hstep) as (_ & Hmr' & _).
    unfold attempt_inv; simpl. split; [congruence | split].
    + intros t0 Hin. apply elem_of_app in Hin as [Hin|Hin];
        [apply Hts; set_solver|].
      apply elem_of_cons in Hin as [->|Hin]; [exact Ht' | apply Hts; set_solver].
    + intros url a Hin. destruct (Hrq' _ _ Hin) as [Hold|Hnew]; [eauto | lia].
  - unfold attempt_inv; simpl. split; [exact Hmr | split; [|exact Hrq]].
    intros t Hin. apply elem_of_app in Hin as [Hin|Hin]; [auto|].
    apply list_elem_of_singleton in Hin as ->. simpl; lia.
Qed.

Lemma attempt_inv_steps (net : network) (retries : Z) (st st' : scanner * list task) :
  rtc (engine_step net) st st' -> attempt_inv retries st -> attempt_inv retries st'.
Proof. induction 1; eauto using attempt_inv_step. Qed.

Lemma once_inv_init (s : scanner) : trace s = [] -> once_inv (s, []).
Proof.
  intros Htr. unfold once_inv; simpl. rewrite Htr.
  split; [apply NoDup_nil_2 | split; [|split; [|apply NoDup_nil_2]]].
  - intros t fd Hin; inversion Hin.
  - intros url a Hin; inversion Hin.
Qed.

(** X2. Over the lifetime of an engine, however its coroutines
    interleave, every request carries a loop index within
    [range(max_retries)], and a URL is requested at most [max_retries]
    times in all. *)
Theorem requests_bounded (net : network) (limit retries size : Z)
        (s0 s : scanner) (pool : list task) (url : string) :
  init limit retries size = Ok s0 ->
  rtc (engine_step net) (s0, []) (s, pool) ->
  (forall a, (url, a) ∈ requests (trace s) -> 0 <= a < retries)
  /\ len (filter (fun p => p.1 = url) (requests (trace s))) <= Z.max 0 retries.
Proof.
  intros Hinit Hrun. unfold init in Hinit.
  destruct (Z.ltb_spec limit 0); [discriminate|]. simplify_eq.
  pose proof (attempt_inv_steps net retries _ _ Hrun) as (_ & _ & Hrq).
  { split; [reflexivity | split]; simpl.
    - intros t Hin; inversion Hin.
    - intros u a Hin; inversion Hin. }
  destruct (once_inv_steps net _ _ Hrun) as (_ & _ & _ & Hnd);
    [apply once_inv_init; reflexivity|].
  simpl in *. split; [intros a Ha; eauto|].
  set (l := filter (fun p => p.1 = url) (requests (trace s))).
  assert (Hl : NoDup (snd <$> l)).
  { apply NoDup_fmap_2_strong; [|apply NoDup_filter; exact Hnd].
    intros [u1 a1] [u2 a2] H1 H2 Heq. simpl in Heq. subst a2.
    apply list_elem_of_filter in H1 as [E1 _]. apply list_elem_of_filter in H2 as [E2 _].
    simpl in *. congruence. }
  assert (Hsub : forall a, a ∈ snd <$> l -> a ∈ range2 0 retries).
  { intros a Ha. apply list_elem_of_fmap in Ha as ([u a'] & -> & Hin).
    apply list_elem_of_filter in Hin as [E Hin]. simpl in *. subst u.
    apply list_elem_of_In, range2_In. eauto. }
  pose proof (submseteq_length _ _ (NoDup_submseteq _ _ Hl Hsub)) as Hlen.
  rewrite length_fmap in Hlen. unfold len.
  unfold range2 in Hlen.
  assert (E : forall n start step, List.length (range_up n start step) = n).
  { induction n; intros; simpl; [reflexivity | rewrite IHn; reflexivity]. }
  rewrite E in Hlen. fold l. lia.
Qed.

Lemma requests_bounded_witness :
  len (filter (fun p => p.1 = "http://a.example.com")
              (requests [Get "http://a.example.com" 0; Sleep 1])) <= Z.max 0 2.
Proof.
  set (net := (fun _ _ => Failed) : network).
  refine (proj2 (requests_bounded net 50 2 1000 default_scanner
                   (emit [Get "http://a.example.com" 0; Sleep 1]
                         (set_limiter 49 (add_seen "a.example.com" default_scanner)))
                   [Sleeping "a.example.com" 0] "http://a.example.com" _ _)).
  - reflexivity.
  - eapply rtc_l; [apply (engine_spawn net _ [] "a" "example.com")|].
    eapply rtc_l; [apply engine_resume;
                   apply (pool_step_at net _ _ O (Pending "a" "example.com")); reflexivity|].
    eapply rtc_l; [apply engine_resume;
                   apply (pool_step_at net _ _ O (Acquiring "a.example.com")); reflexivity|].
    eapply rtc_l; [apply engine_resume;
                   apply (pool_step_at net _ _ O (Getting "a.example.com" 0)); reflexivity|].
    apply rtc_refl.
Defined.

(** ** Every schedule of a pool ends *)

Lemma pool_weight_middle (mr : Z) (l1 l2 : list task) (t : task) :
  pool_weight mr (l1 ++ t :: l2)
  = (pool_weight mr l1 + task_weight mr t + pool_weight mr l2)%nat.
Proof.
  unfold pool_weight. rewrite map_app, list_sum_app. simpl. lia.
Qed.

Lemma step_task_weight (net : network) (s s' : scanner) (t t' : task) :
  step_task net s t = Some (s', t') ->
  (task_weight (max_retries s) t' < task_weight (max_retries s) t)%nat.
Proof.
  intros H. destruct t as [sub dom|fd|fd a|fd a|r]; simpl in H;
    repeat case_match; simplify_eq; simpl; try lia;
    match goal with H : (_ <? _) = true |- _ => apply Z.ltb_lt in H end; lia.
Qed.

Lemma pool_step_weight (net : network) (s s' : scanner) (pool pool' : list task) :
  pool_step net (s, pool) (s', pool') ->
  max_retries s' = max_retries s
  /\ (pool_weight (max_retries s) pool' < pool_weight (max_retries s) pool)%nat.
Proof.
  intros Hp. apply pool_step_inv in Hp as (l1 & t & l2 & t' & -> & -> & Hstep).
  split; [apply (step_task_config _ _ _ _ _ Hstep)|].
  rewrite !pool_weight_middle. pose proof (step_task_weight _ _ _ _ _ Hstep). lia.
Qed.

Lemma pool_budget_middle (mr : Z) (l1 l2 : list task) (t : task) :
  pool_budget mr (l1 ++ t :: l2)
  = (pool_budget mr l1 + task_budget mr t + pool_budget mr l2)%nat.
Proof.
  unfold pool_budget. rewrite map_app, list_sum_app. simpl. lia.
Qed.

Lemma pool_budget_pending (mr : Z) (domain : string) (labels : list string) :
  pool_budget mr (map (fun l => Pending l domain) labels)
  = (List.length labels * Z.to_nat mr)%nat.
Proof.
  unfold pool_budget. induction labels as [|l labels IH]; simpl; [reflexivity|].
  simpl in IH. rewrite IH. lia.
Qed.

(** A resumption that makes a request uses up one loop index of the
    coroutine; no resumption gives one back. *)
Lemma step_task_budget (net : network) (s s' : scanner) (t t' : task) :
  step_task net s t = Some (s', t') ->
  (List.length (requests (trace s')) + task_budget (max_retries s) t'
   <= List.length (requests (trace s)) + task_budget (max_retries s) t)%nat.
Proof.
  intros H. destruct t as [sub dom|fd|fd a|fd a|r]; simpl in H;
    repeat case_match; simplify_eq; simpl;
    rewrite ?requests_app, ?List.length_app; simpl;
    rewrite ?requests_on_exception; simpl; try lia;
    match goal with H : (_ <? _) = true |- _ => apply Z.ltb_lt in H end; lia.
Qed.

Lemma pool_steps_budget (net : network) (st st' : scanner * list task) :
  rtc (pool_step net) st st' ->
  max_retries st'.1 = max_retries st.1
  /\ (List.length (requests (trace st'.1)) + pool_budget (max_retries st.1) st'.2
      <= List.length (requests (trace st.1)) + pool_budget (max_retries st.1) st.2)%nat.
Proof.
  induction 1 as [st|[s1 p1] [s2 p2] st3 Hstep _ [IHc IHb]]; [split; [reflexivity | lia]|].
  apply pool_step_inv in Hstep as (l1 & t & l2 & t' & -> & -> & Hstep). simpl in *.
  destruct (step_task_config _ _ _ _ _ Hstep) as (_ & Hmr & _).
  pose proof (step_task_budget _ _ _ _ _ Hstep) as Hb.
  rewrite Hmr in IHc, IHb. rewrite pool_budget_middle in *.
  split; [exact IHc | lia].
Qed.

(** X3. However the event loop schedules the coroutines of a chunk, in
    every state it reaches the chunk has added at most
    [len(chunk) * max_retries] requests to those made before. *)
Theorem chunk_requests_bounded (net : network) (s s' : scanner) (domain : string)
        (labels : list string) (pool' : list task) :
  rtc (pool_step net) (s, map (fun l => Pending l domain) labels) (s', pool') ->
  len (requests (trace s'))
  <= len (requests (trace s)) + len labels * Z.max 0 (max_retries s).
Proof.
  intros H. apply pool_steps_budget in H as [_ H]. simpl in H.
  rewrite pool_budget_pending in H. unfold len.
  assert (E : Z.of_nat (List.length labels * Z.to_nat (max_retries s))
              = Z.of_nat (List.length labels) * Z.max 0 (max_retries s)) by lia.
  lia.
Qed.

Lemma chunk_requests_bounded_witness :
  len (requests [Get "http://a.example.com" 0; Sleep 1; Get "http://a.example.com" 1;
                 Debug "http://a.example.com"; Sleep 2])
  <= len (requests []) + len ["a"] * Z.max 0 2.
Proof.
  set (net := (fun _ _ => Failed) : network).
  refine (chunk_requests_bounded net default_scanner
            (emit [Get "http://a.example.com" 1; Debug "http://a.example.com"; Sleep 2]
                  (emit [Get "http://a.example.com" 0; Sleep 1]
                        (set_limiter 49 (add_seen "a.example.com" default_scanner))))
            "example.com" ["a"] [Sleeping "a.example.com" 1] _).
  eapply rtc_l; [apply (pool_step_at net _ _ O (Pending "a" "example.com")); reflexivity|].
  eapply rtc_l; [apply (pool_step_at net _ _ O (Acquiring "a.example.com")); reflexivity|].
  eapply rtc_l; [apply (pool_step_at net _ _ O (Getting "a.example.com" 0)); reflexivity|].
  eapply rtc_l; [apply (pool_step_at net _ _ O (Sleeping "a.example.com" 0)); reflexivity|].
  eapply rtc_l; [apply (pool_step_at net _ _ O (Getting "a.example.com" 1)); reflexivity|].
  apply rtc_refl.
Defined.

Lemma slot_around_step (net : network) (st st' : scanner * list task) :
  pool_step net st st' -> slot_around st -> slot_around st'.
Proof.
  destruct st as [s pool], st' as [s' pool']. intros Hp H.
  apply pool_step_inv in Hp as (l1 & t & l2 & t' & -> & -> & Hstep).
  unfold slot_around in *; simpl in *.
  pose proof (step_task_slots _ _ _ _ _ Hstep).
  rewrite in_flight_app, in_flight_cons in *. lia.
Qed.

Lemma slot_around_steps (net : network) (st st' : scanner * list task) :
  rtc (pool_step net) st st' -> slot_around st -> slot_around st'.
Proof. induction 1; eauto using slot_around_step. Qed.

Lemma in_flight_finished (results : list (option result)) :
  in_flight (map Finished results) = 0.
Proof.
  induction results as [|r results IH]; simpl; [reflexivity|].
  rewrite in_flight_cons, IH; reflexivity.
Qed.

(** A pool has finished, or holds a coroutine that runs whatever the
    semaphore, or holds no slot and a coroutine that waits for one. *)
Lemma pool_cases (pool : list task) :
  (exists results, pool = map Finished results)
  \/ (exists l1 t l2, pool = l1 ++ t :: l2
                      /\ forall net s, exists st', step_task net s t = Some st')
  \/ (in_flight pool = 0 /\ exists l1 fd l2, pool = l1 ++ Acquiring fd :: l2).
Proof.
  induction pool as [|t pool IH]; [left; exists []; reflexivity|].
  assert (Hrun : (forall net s, exists st', step_task net s t = Some st') ->
                 exists l1 t0 l2, t :: pool = l1 ++ t0 :: l2
                   /\ forall net s, exists st', step_task net s t0 = Some st').
  { intros H. exists [], t, pool. split; [reflexivity | exact H]. }
  destruct t as [sub dom|fd|fd a|fd a|r].
  - right; left. apply Hrun. intros net s. simpl. case_match; eauto.
  - destruct IH as [(rs & ->) | [(l1 & t & l2 & -> & H) | (Hfl & l1 & fd' & l2 & ->)]].
    + right; right. rewrite in_flight_cons, in_flight_finished.
      split; [reflexivity|]. exists [], fd, (map Finished rs). reflexivity.
    + right; left. exists (Acquiring fd :: l1), t, l2. split; [reflexivity | exact H].
    + right; right. rewrite in_flight_cons, Hfl. split; [reflexivity|].
      exists [], fd, (l1 ++ Acquiring fd' :: l2). reflexivity.
  - right; left. apply Hrun. intros net s. simpl. repeat case_match; eauto.
  - right; left. apply Hrun. intros net s. simpl. eauto.
  - destruct IH as [(rs & ->) | [(l1 & t & l2 & -> & H) | (Hfl & l1 & fd' & l2 & ->)]].
    + left. exists (r :: rs). reflexivity.
    + right; left. exists (Finished r :: l1), t, l2. split; [reflexivity | exact H].
    + right; right. rewrite in_flight_cons, Hfl. split; [reflexivity|].
      exists (Finished r :: l1), fd', l2. reflexivity.
Qed.

Lemma pool_progress (net : network) (s : scanner) (pool : list task) :
  slot_around (s, pool) ->
  (exists results, pool = map Finished results)
  \/ exists st', pool_step net (s, pool) st'.
Proof.
  intros Hslot.
  destruct (pool_cases pool) as [H | [(l1 & t & l2 & -> & H) | (Hfl & l1 & fd & l2 & ->)]].
  - left; exact H.
  - right. destruct (H net s) as ([s' t'] & Hstep).
    eexists. apply pool_step_intro. exact Hstep.
  - right. unfold slot_around in Hslot; simpl in Hslot. rewrite Hfl in Hslot.
    eexists. apply pool_step_intro. simpl.
    destruct (Z.ltb_spec 0 (rate_limiter s)); [reflexivity | lia].
Qed.

Lemma pool_completes (net : network) (w : nat) :
  forall (s : scanner) (pool : list task),
    (pool_weight (max_retries s) pool <= w)%nat ->
    slot_around (s, pool) ->
    exists s' results, rtc (pool_step net) (s, pool) (s', map Finished results).
Proof.
  induction w as [|w IH]; intros s pool Hw Hslot;
    (destruct (pool_progress net s pool Hslot) as [(rs & ->) | ([s' pool'] & Hstep)];
     [exists s, rs; apply rtc_refl|]).
  - apply pool_step_weight in Hstep as [_ H]. lia.
  - pose proof (pool_step_weight _ _ _ _ _ Hstep) as [Hmr H].
    destruct (IH s' pool') as (s2 & rs & Hrun);
      [rewrite Hmr; lia | eapply slot_around_step; eauto |].
    exists s2, rs. eapply rtc_l; eauto.
Qed.

(** X4. When the semaphore has a free slot or a coroutine of the pool
    holds one, no interleaving gets stuck: in every state the pool
    reaches, either all coroutines have finished or one of them can be
    resumed, and the run can always be carried on until all have
    finished. *)
Theorem pool_never_deadlocks (net : network) (s s1 : scanner) (pool pool1 : list task) :
  slot_around (s, pool) ->
  rtc (pool_step net) (s, pool) (s1, pool1) ->
  ((exists results, pool1 = map Finished results)
   \/ exists st2, pool_step net (s1, pool1) st2)
  /\ exists s2 results, rtc (pool_step net) (s1, pool1) (s2, map Finished results).
Proof.
  intros Hslot Hrun. apply slot_around_steps in Hrun; [|exact Hslot].
  split; [apply pool_progress; exact Hrun|].
  apply (pool_completes net (pool_weight (max_retries s1) pool1)); [lia | exact Hrun].
Qed.

Lemma pool_never_deadlocks_witness :
  exists s2 results,
    rtc (pool_step not_found)
        (default_scanner, [Pending "a" "example.com"; Pending "b" "example.com"])
        (s2, map Finished results).
Proof.
  refine (proj2 (pool_never_deadlocks not_found default_scanner default_scanner
                   [Pending "a" "example.com"; Pending "b" "example.com"]
                   [Pending "a" "example.com"; Pending "b" "example.com"] _ _)).
  - unfold slot_around, in_flight; simpl; lia.
  - apply rtc_refl.
Defined.

(** ** An engine without slots *)

Lemma gather_hangs (net : network) (gather : gatherer) (s : scanner) (domain l : string)
      (labels : list string) :
  event_loop net gather ->
  rate_limiter s <= 0 -> l ∈ labels ->
  full_domain_of l domain ∉ seen_subdomains s ->
  gather s domain labels = Hangs.
Proof.
  intros Hloop Hv Hl Hnew. specialize (Hloop s domain labels).
  destruct (gather s domain labels) as [[rs s']| |]; [|contradiction|reflexivity].
  exfalso. eapply stuck_forever; eauto.
Qed.

Lemma labels_nonempty (L : Z) : exists l ls, labels default_chars L = l :: ls.
Proof.
  destruct (generate_subdomains_spec default_chars (Z.of_nat (Z.to_nat L)) ltac:(lia)
              default_chars_NoDup) as (ls & Hg & Hlen & _).
  assert (Hg' : generate_subdomains default_chars (Z.of_nat (Z.to_nat L))
                = Ok (labels default_chars L)).
  { rewrite generate_subdomains_ok by lia. rewrite Nat2Z.id. reflexivity. }
  rewrite Hg' in Hg. injection Hg as <-.
  destruct (labels default_chars L) as [|l ls]; [|eauto].
  exfalso. change (len []) with 0 in Hlen.
  pose proof (Z.pow_pos_nonneg (Z.of_nat (String.length default_chars))
                (Z.of_nat (Z.to_nat L)) ltac:(vm_compute; reflexivity) ltac:(lia)). lia.
Qed.

Lemma scan_lengths_hangs (net : network) (gather : gatherer) (domain : string)
      (L : Z) (lengths : list Z) (s : scanner) (all_results : list result)
      (l : string) (ls : list string) :
  event_loop net gather ->
  rate_limiter s <= 0 -> 1 <= chunk_size s -> 0 <= L ->
  labels (chars s) L = l :: ls ->
  full_domain_of l domain ∉ seen_subdomains s ->
  scan_lengths gather domain (L :: lengths) s all_results = Hangs.
Proof.
  intros Hloop Hv Hcs HL Hl Hnew. simpl.
  rewrite generate_subdomains_ok by exact HL. simpl. fold (labels (chars s) L).
  rewrite Hl. rewrite range3_ok by lia. simpl.
  destruct (starts_of_pos (chunk_size s) (l :: ls) Hcs) as [_ ->].
  assert (Hn : exists n, Z.to_nat ((len (l :: ls) - 0 + chunk_size s - 1) / chunk_size s) = S n).
  { assert (1 <= (len (l :: ls) - 0 + chunk_size s - 1) / chunk_size s).
    { pose proof (len_nonneg ls). assert (len (l :: ls) = len ls + 1) as ->
        by (unfold len; simpl List.length; lia).
      apply Z.div_le_lower_bound; lia. }
    exists (Z.to_nat ((len (l :: ls) - 0 + chunk_size s - 1) / chunk_size s) - 1)%nat. lia. }
  destruct Hn as [n ->]. simpl. unfold scan_subdomains_chunk.
  rewrite (gather_hangs net gather _ domain l); [reflexivity | exact Hloop | simpl; lia | |].
  - unfold slice. simpl.
    replace (Z.to_nat (0 + chunk_size s - 0)) with (S (Z.to_nat (chunk_size s - 1))) by lia.
    simpl. left.
  - simpl. exact Hnew.
Qed.

(** X5. The constructor accepts [concurrent_requests = 0], and on the
    engine it builds every scan of a range that is not empty never
    returns, whatever the event loop: the first coroutine waits for a slot
    that no one can release. *)
Theorem scan_domain_hangs_without_slot (net : network) (gather : gatherer)
        (retries size : Z) (s : scanner) (domain : string) (min_length max_length : Z) :
  event_loop net gather ->
  init 0 retries size = Ok s ->
  1 <= size ->
  0 <= min_length <= max_length ->
  scan_domain gather s domain min_length max_length = Hangs.
Proof.
  intros Hloop Hinit Hsize Hrange. unfold init in Hinit. simpl in Hinit. simplify_eq.
  unfold scan_domain. rewrite range2_cons by lia.
  destruct (labels_nonempty min_length) as (l & ls & Hl).
  apply (scan_lengths_hangs net gather domain _ _ _ _ l ls);
    [exact Hloop | simpl; lia | simpl; lia | lia | exact Hl | apply not_elem_of_empty].
Qed.

Lemma scan_domain_hangs_without_slot_witness :
  scan_domain (gather_seq only_a) (Scanner 0 2 1000 default_chars ∅ 0 [])
              "example.com" 1 3 = Hangs.
Proof.
  apply (scan_domain_hangs_without_slot only_a (gather_seq only_a) 2 1000).
  - apply gather_seq_event_loop.
  - reflexivity.
  - lia.
  - lia.
Defined.

(** ** Degenerate ranges and chunk sizes *)

(** X6. A scan of a range that is not empty raises [ValueError] when
    [min_length] is negative (from the generator) or [chunk_size] is zero
    (from [range]), whatever the gatherer. *)
Theorem scan_domain_raises (gather : gatherer) (s : scanner) (domain : string)
        (min_length max_length : Z) :
  min_length <= max_length ->
  min_length < 0 \/ chunk_size s = 0 ->
  scan_domain gather s domain min_length max_length = Raises ValueError.
Proof.
  intros Hrange Hbad. unfold scan_domain. rewrite range2_cons by lia.
  destruct (Z.lt_ge_cases min_length 0) as [Hneg|Hpos].
  - apply scan_lengths_negative; exact Hneg.
  - destruct Hbad as [Hneg|Hcs]; [lia|]. apply scan_lengths_zero_chunk; assumption.
Qed.

Lemma scan_domain_raises_witness :
  scan_domain (gather_seq only_a) default_scanner "example.com" (-1) 3 = Raises ValueError
  /\ scan_domain (gather_seq only_a) (Scanner 50 2 0 default_chars ∅ 50 [])
                 "example.com" 1 3 = Raises ValueError.
Proof.
  split.
  - apply scan_domain_raises; [lia | left; lia].
  - apply scan_domain_raises; [lia | right; reflexivity].
Defined.

Lemma emit_emit (es1 es2 : list event) (s : scanner) :
  emit es2 (emit es1 s) = emit (es1 ++ es2) s.
Proof. unfold emit; simpl. rewrite List.app_assoc. reflexivity. Qed.

Lemma scan_lengths_negative_chunk (gather : gatherer) (domain : string) (lengths : list Z) :
  forall (s : scanner) (all_results : list result),
    chunk_size s < 0 -> Forall (fun L => 0 <= L) lengths ->
    scan_lengths gather domain lengths s all_results
    = Ok (all_results, emit (map (Info domain) lengths) s).
Proof.
  induction lengths as [|L lengths IH]; intros s all_results Hcs Hpos; simpl.
  - unfold emit. rewrite List.app_nil_r. destruct s; reflexivity.
  - apply List.Forall_cons_iff in Hpos as [HL Hpos].
    rewrite generate_subdomains_ok by exact HL. simpl.
    rewrite range3_ok by lia. simpl. rewrite starts_of_nonpos by lia. simpl.
    rewrite IH by (simpl; assumption). rewrite emit_emit. reflexivity.
Qed.

(** X7. A scan of an empty range, or with a negative [chunk_size] and
    lengths that are not negative, returns the empty list without a single
    call of [check_subdomain]: the seen set and the semaphore are as
    before and the trace only gains the lines that open the lengths. *)
Theorem scan_domain_scans_nothing (gather : gatherer) (s : scanner) (domain : string)
        (min_length max_length : Z) :
  max_length < min_length \/ (0 <= min_length /\ chunk_size s < 0) ->
  scan_domain gather s domain min_length max_length
  = Ok ([], emit (map (Info domain) (range2 min_length (max_length + 1))) s).
Proof.
  intros [Hempty | [Hmin Hcs]]; unfold scan_domain.
  - rewrite range2_nil by lia. simpl. unfold emit. rewrite List.app_nil_r.
    destruct s; reflexivity.
  - apply scan_lengths_negative_chunk; [exact Hcs|].
    eapply List.Forall_impl; [|apply range2_lower]. simpl; intros; lia.
Qed.

Lemma scan_domain_scans_nothing_witness :
  scan_domain (gather_seq only_a) (Scanner 50 2 (-5) default_chars ∅ 50 [])
              "example.com" 1 2
  = Ok ([], Scanner 50 2 (-5) default_chars ∅ 50
              [Info "example.com" 1; Info "example.com" 2]).
Proof.
  apply (scan_domain_scans_nothing (gather_seq only_a)
           (Scanner 50 2 (-5) default_chars ∅ 50 []) "example.com" 1 2).
  right. simpl. lia.
Defined.

(** ** What a scan leaves of the engine *)

Lemma pool_steps_frame (net : network) (st st' : scanner * list task) :
  rtc (pool_step net) st st' ->
  same_config st.1 st'.1
  /\ rate_limiter st'.1 + in_flight st'.2 = rate_limiter st.1 + in_flight st.2
  /\ seen_subdomains st.1 ⊆ seen_subdomains st'.1.
Proof.
  induction 1 as [st|[s1 p1] [s2 p2] st3 Hstep _ (IHc & IHl & IHs)].
  - split; [apply same_config_refl | split; reflexivity].
  - pose proof (seen_mono_step net _ _ (engine_resume net _ _ Hstep)) as Hs.
    apply pool_step_inv in Hstep as (l1 & t & l2 & t' & -> & -> & Hstep). simpl in *.
    pose proof (step_task_slots _ _ _ _ _ Hstep) as Hsl.
    split; [|split].
    + eapply same_config_trans; [eapply step_task_config; exact Hstep | exact IHc].
    + rewrite IHl. rewrite !in_flight_app, !in_flight_cons. lia.
    + etransitivity; eassumption.
Qed.

Lemma in_flight_pending (domain : string) (labels : list string) :
  in_flight (map (fun l => Pending l domain) labels) = 0.
Proof.
  induction labels as [|l labels IH]; simpl; [reflexivity|].
  rewrite in_flight_cons, IH; reflexivity.
Qed.

Lemma gather_frame (net : network) (gather : gatherer) (s s' : scanner) (domain : string)
      (labels : list string) (results : list (option result)) :
  event_loop net gather ->
  gather s domain labels = Ok (results, s') ->
  same_config s s' /\ rate_limiter s' = rate_limiter s
  /\ seen_subdomains s ⊆ seen_subdomains s'.
Proof.
  intros Hloop Hg. specialize (Hloop s domain labels). rewrite Hg in Hloop.
  apply pool_steps_frame in Hloop as (Hc & Hl & Hs). simpl in *.
  rewrite in_flight_pending, in_flight_finished in Hl.
  split; [exact Hc | split; [lia | exact Hs]].
Qed.

Lemma scan_chunks_frame (net : network) (gather : gatherer) (domain : string)
      (subdomains : list string) (starts : list Z) :
  event_loop net gather ->
  forall (s : scanner) (all_results : list result) (out : list result * scanner),
    scan_chunks gather domain subdomains starts s all_results = Ok out ->
    same_config s out.2 /\ rate_limiter out.2 = rate_limiter s
    /\ seen_subdomains s ⊆ seen_subdomains out.2.
Proof.
  intros Hloop. induction starts as [|i starts IH]; intros s all_results out H; simpl in H.
  - simplify_eq. simpl. split; [apply same_config_refl | split; reflexivity].
  - unfold scan_subdomains_chunk in H.
    destruct (gather s domain (slice subdomains i (i + chunk_size s))) as [[rs s1]| |] eqn:Hg;
      simpl in H; try discriminate.
    apply (gather_frame net gather _ _ _ _ _ Hloop) in Hg as (Hc & Hl & Hs).
    apply IH in H as (Hc' & Hl' & Hs'). simpl in *.
    split; [|split].
    + eapply same_config_trans; [exact Hc|].
      destruct Hc' as (?&?&?&?). repeat split; assumption.
    + lia.
    + etransitivity; eassumption.
Qed.

Lemma scan_lengths_frame (net : network) (gather : gatherer) (domain : string)
      (lengths : list Z) :
  event_loop net gather ->
  forall (s : scanner) (all_results : list result) (out : list result * scanner),
    scan_lengths gather domain lengths s all_results = Ok out ->
    same_config s out.2 /\ rate_limiter out.2 = rate_limiter s
    /\ seen_subdomains s ⊆ seen_subdomains out.2.
Proof.
  intros Hloop. induction lengths as [|L lengths IH]; intros s all_results out H; simpl in H.
  - simplify_eq. simpl. split; [apply same_config_refl | split; reflexivity].
  - destruct (generate_subdomains (chars s) L) as [subdomains| |]; simpl in H;
      try discriminate.
    destruct (range3 0 (len subdomains) (chunk_size s)) as [starts| |]; simpl in H;
      try discriminate.
    destruct (scan_chunks gather domain subdomains starts (emit [Info domain L] s) all_results)
      as [[all1 s1]| |] eqn:Hsc; simpl in H; try discriminate.
    apply (scan_chunks_frame net gather domain _ _ Hloop) in Hsc as (Hc & Hl & Hs).
    apply IH in H as (Hc' & Hl' & Hs'). simpl in *.
    split; [|split].
    + eapply same_config_trans; [|exact Hc'].
      destruct Hc as (?&?&?&?). repeat split; assumption.
    + lia.
    + etransitivity; eassumption.
Qed.

(** X8. Whenever a scan returns, under any event loop, every slot taken
    from the semaphore has been given back, the configuration of the
    engine is untouched, and the seen set has only grown. *)
Theorem scan_domain_frame (net : network) (gather : gatherer) (s : scanner)
        (domain : string) (min_length max_length : Z) (out : list result * scanner) :
  event_loop net gather ->
  scan_domain gather s domain min_length max_length = Ok out ->
  same_config s out.2
  /\ rate_limiter out.2 = rate_limiter s
  /\ seen_subdomains s ⊆ seen_subdomains out.2.
Proof.
  intros Hloop H. unfold scan_domain in H.
  exact (scan_lengths_frame net gather domain _ Hloop _ _ _ H).
Qed.

Lemma scan_domain_frame_witness :
  exists out,
    scan_domain (gather_seq only_a) default_scanner "example.com" 1 1 = Ok out
    /\ rate_limiter out.2 = 50.
Proof.
  destruct (scan_domain_returns only_a (gather_seq only_a) default_scanner
              "example.com" 1 1) as (out & H1);
    [apply gather_seq_event_loop | exact default_chars_NoDup | lia
     | simpl; lia | simpl; lia |].
  exists out. split; [exact H1|].
  apply (scan_domain_frame only_a (gather_seq only_a) default_scanner "example.com" 1 1 out).
  - apply gather_seq_event_loop.
  - exact H1.
Defined.

(** What a returned scan returns and leaves, with lengths that are not
    negative and a positive chunk size. *)
Lemma scan_domain_spec (net : network) (gather : gatherer) (s : scanner)
      (domain : string) (min_length max_length : Z) (out : list result * scanner) :
  event_loop net gather ->
  List.NoDup (list_ascii_of_string (chars s)) ->
  0 <= min_length -> 1 <= chunk_size s ->
  scan_domain gather s domain min_length max_length = Ok out ->
  let ls := all_labels (chars s) min_length max_length in
  NoDup ((fun l => full_domain_of l domain) <$> ls)
  /\ out.1 = not_none (map (expected net (seen_subdomains s) (max_retries s) domain) ls)
  /\ seen_subdomains out.2
     = seen_subdomains s ∪ list_to_set ((fun l => full_domain_of l domain) <$> ls).
Proof.
  intros Hloop Hch Hmin Hcs H. unfold scan_domain in H. simpl.
  set (lengths := range2 min_length (max_length + 1)) in *.
  assert (Hpos : Forall (fun L => 0 <= L) lengths).
  { eapply List.Forall_impl; [|apply range2_lower]. simpl; intros; lia. }
  assert (Hnd : NoDup ((fun l => full_domain_of l domain)
                         <$> scanned (chars s) (chunk_size s) lengths)).
  { apply scanned_NoDup; [exact Hch | apply range2_NoDup | exact Hpos]. }
  apply (scan_lengths_spec net gather domain lengths Hloop) in H; [|exact Hnd].
  simpl in H. destruct H as (Hres & _ & _ & Hseen & _).
  rewrite scanned_pos in Hnd, Hres, Hseen by exact Hcs.
  split; [exact Hnd | split; [exact Hres | exact Hseen]].
Qed.

(** X9. After a scan has returned, the seen set is the seen set before
    together with every candidate of the range; on an engine that had
    seen nothing, its size is the number of labels of the range. *)
Theorem seen_after_scan (net : network) (gather : gatherer) (s : scanner)
        (domain : string) (min_length max_length : Z) (out : list result * scanner) :
  event_loop net gather ->
  List.NoDup (list_ascii_of_string (chars s)) ->
  0 <= min_length -> 1 <= chunk_size s ->
  scan_domain gather s domain min_length max_length = Ok out ->
  let ls := all_labels (chars s) min_length max_length in
  seen_subdomains out.2
  = seen_subdomains s ∪ list_to_set ((fun l => full_domain_of l domain) <$> ls)
  /\ (seen_subdomains s = ∅ -> size (seen_subdomains out.2) = List.length ls).
Proof.
  intros Hloop Hch Hmin Hcs H ls.
  destruct (scan_domain_spec net gather s domain min_length max_length out
              Hloop Hch Hmin Hcs H) as (Hnd & _ & Hseen).
  fold ls in Hnd, Hseen. split; [exact Hseen|].
  intros Hempty. rewrite Hseen, Hempty, (left_id_L ∅ (∪)).
  rewrite size_list_to_set by exact Hnd. apply length_fmap.
Qed.

Lemma seen_after_scan_witness :
  exists out,
    scan_domain (gather_seq only_a) default_scanner "example.com" 1 1 = Ok out
    /\ size (seen_subdomains out.2) = 36%nat.
Proof.
  destruct (scan_domain_returns only_a (gather_seq only_a) default_scanner
              "example.com" 1 1) as (out & H1);
    [apply gather_seq_event_loop | exact default_chars_NoDup | lia
     | simpl; lia | simpl; lia |].
  exists out. split; [exact H1|].
  destruct (seen_after_scan only_a (gather_seq only_a) default_scanner "example.com" 1 1 out)
    as [_ Hsize];
    [apply gather_seq_event_loop | exact default_chars_NoDup | lia | simpl; lia | exact H1 |].
  rewrite Hsize by reflexivity. vm_compute. reflexivity.
Defined.

(** ** What a scan reports *)

Lemma expected_iff (net : network) (seen0 : gset string) (mr : Z) (domain l : string)
      (r : result) :
  expected net seen0 mr domain l = Some r
  <-> (full_domain_of l domain ∉ seen0)
      /\ exists a body,
          0 <= a < mr /\ failed_below net (full_domain_of l domain) a
          /\ net (url_of (full_domain_of l domain)) a = Response 200 body
          /\ r = (full_domain_of l domain, title_of body).
Proof.
  unfold expected. destruct (decide (full_domain_of l domain ∈ seen0)) as [Hin|Hnew].
  - split; [discriminate | intros [Hn _]; contradiction].
  - rewrite probe_iff. tauto.
Qed.

Lemma not_none_elem (f : string -> option result) (ls : list string) (r : result) :
  r ∈ not_none (map f ls) <-> exists l, l ∈ ls /\ f l = Some r.
Proof.
  unfold not_none. rewrite list_elem_of_omap. split.
  - intros (x & Hx & Hid). apply list_elem_of_In, in_map_iff in Hx as (l & <- & Hl).
    exists l. split; [apply list_elem_of_In; exact Hl | exact Hid].
  - intros (l & Hl & Hf). exists (f l). split; [|exact Hf].
    apply list_elem_of_In, in_map_iff. exists l. split; [reflexivity|].
    apply list_elem_of_In; exact Hl.
Qed.

Lemma not_none_NoDup (f : string -> option result) (g : string -> string)
      (ls : list string) :
  (forall l r, f l = Some r -> r.1 = g l) ->
  NoDup (g <$> ls) -> NoDup (fst <$> not_none (map f ls)).
Proof.
  intros Hfg. induction ls as [|l ls IH]; intros Hnd; simpl; [constructor|].
  apply NoDup_cons in Hnd as [Hl Hnd].
  unfold not_none in *. simpl. destruct (f l) as [r|] eqn:Hf; simpl; [|apply IH; exact Hnd].
  apply NoDup_cons. split; [|apply IH; exact Hnd].
  intros Hin. apply list_elem_of_fmap in Hin as (r' & Heq & Hr').
  apply (not_none_elem f ls r') in Hr' as (l' & Hl' & Hf').
  apply Hl. rewrite <- (Hfg _ _ Hf), Heq, (Hfg _ _ Hf').
  apply list_elem_of_fmap. eauto.
Qed.

(** X10. What a returned scan reports, under any event loop: a pair
    [(full_domain, title)] is in the result exactly when [full_domain] is
    a label of the range joined to the domain, was not in the seen set
    before the scan, and some attempt within [max_retries] answered 200
    with that title after failures only.  No candidate is reported twice. *)
Theorem scan_domain_found_iff (net : network) (gather : gatherer) (s : scanner)
        (domain : string) (min_length max_length : Z) (out : list result * scanner) :
  event_loop net gather ->
  List.NoDup (list_ascii_of_string (chars s)) ->
  0 <= min_length -> 1 <= chunk_size s ->
  scan_domain gather s domain min_length max_length = Ok out ->
  (forall full_domain title,
      (full_domain, title) ∈ out.1
      <-> exists l a body,
          l ∈ all_labels (chars s) min_length max_length
          /\ full_domain = full_domain_of l domain
          /\ (full_domain ∉ seen_subdomains s)
          /\ 0 <= a < max_retries s
          /\ failed_below net full_domain a
          /\ net (url_of full_domain) a = Response 200 body
          /\ title = title_of body)
  /\ NoDup (fst <$> out.1).
Proof.
  intros Hloop Hch Hmin Hcs H.
  destruct (scan_domain_spec net gather s domain min_length max_length out
              Hloop Hch Hmin Hcs H) as (Hnd & Hres & _).
  rewrite Hres. split.
  - intros fd title. rewrite not_none_elem. split.
    + intros (l & Hl & He). apply expected_iff in He as (Hnew & a & body & Ha & Hf & Hnet & Heq).
      injection Heq as -> ->. exists l, a, body. repeat split; auto; lia.
    + intros (l & a & body & Hl & -> & Hnew & Ha & Hf & Hnet & ->).
      exists l. split; [exact Hl|]. apply expected_iff. split; [exact Hnew|].
      exists a, body. auto.
  - apply (not_none_NoDup _ (fun l => full_domain_of l domain)); [|exact Hnd].
    intros l r He. apply expected_iff in He as (_ & a & body & _ & _ & _ & ->). reflexivity.
Qed.

Lemma scan_domain_found_iff_witness :
  exists out,
    scan_domain (gather_seq only_a) default_scanner "example.com" 1 1 = Ok out
    /\ ("a.example.com", Some "Hi") ∈ out.1.
Proof.
  destruct (scan_domain_returns only_a (gather_seq only_a) default_scanner
              "example.com" 1 1) as (out & H1);
    [apply gather_seq_event_loop | exact default_chars_NoDup | lia
     | simpl; lia | simpl; lia |].
  exists out. split; [exact H1|].
  destruct (scan_domain_found_iff only_a (gather_seq only_a) default_scanner
              "example.com" 1 1 out) as [Hiff _];
    [apply gather_seq_event_loop | exact default_chars_NoDup | lia | simpl; lia | exact H1 |].
  apply Hiff. exists "a", 0, hi_page.
  split; [apply (bool_decide_unpack _); vm_compute; reflexivity|].
  split; [reflexivity|].
  split; [apply not_elem_of_empty|].
  split; [simpl; lia|].
  split; [intros a' Ha'; lia|].
  split; reflexivity.
Defined.

Lemma not_none_len (f : string -> option result) (ls : list string) :
  len (not_none (map f ls)) <= len ls.
Proof.
  assert (H : (List.length (not_none (map f ls)) <= List.length ls)%nat).
  { unfold not_none. induction ls as [|l ls IH]; simpl; [lia|].
    change (omap id (map f ls)) with (list_omap _ _ id (map f ls)) in IH.
    destruct (f l); simpl; lia. }
  unfold len. lia.
Qed.

(** X11. [scan_subdomains_chunk] on labels whose candidates are pairwise
    distinct, under any event loop: the found outcomes come back in the
    order of the labels, whatever the order in which the probes complete,
    there are at most as many as labels, and every candidate of the chunk
    is in the seen set afterwards. *)
Theorem scan_subdomains_chunk_spec (net : network) (gather : gatherer) (s : scanner)
        (domain : string) (subdomains : list string) (out : list result * scanner) :
  event_loop net gather ->
  NoDup ((fun l => full_domain_of l domain) <$> subdomains) ->
  scan_subdomains_chunk gather s domain subdomains = Ok out ->
  out.1 = not_none (map (expected net (seen_subdomains s) (max_retries s) domain) subdomains)
  /\ len out.1 <= len subdomains
  /\ seen_subdomains out.2
     = seen_subdomains s ∪ list_to_set ((fun l => full_domain_of l domain) <$> subdomains).
Proof.
  intros Hloop Hnd H. unfold scan_subdomains_chunk in H.
  destruct (gather s domain subdomains) as [[rs s']| |] eqn:Hg; simpl in H; try discriminate.
  simplify_eq. simpl.
  destruct (gather_spec net gather s s' domain subdomains rs Hloop Hnd Hg)
    as (-> & _ & Hseen & _).
  split; [reflexivity | split; [|exact Hseen]].
  apply not_none_len.
Qed.

Lemma scan_subdomains_chunk_spec_witness :
  exists out,
    scan_subdomains_chunk (gather_rev only_a) default_scanner "example.com" ["b"; "a"]
    = Ok out
    /\ out.1 = [("a.example.com", Some "Hi")].
Proof.
  destruct (gather_returns only_a (gather_rev only_a) default_scanner "example.com"
              ["b"; "a"] (gather_rev_event_loop only_a)) as (rs & s' & Hg);
    [left; simpl; lia|].
  assert (H : scan_subdomains_chunk (gather_rev only_a) default_scanner "example.com"
                                    ["b"; "a"] = Ok (not_none rs, s')).
  { unfold scan_subdomains_chunk. rewrite Hg. reflexivity. }
  exists (not_none rs, s'). split; [exact H|].
  rewrite (proj1 (scan_subdomains_chunk_spec only_a (gather_rev only_a)
                    default_scanner "example.com" ["b"; "a"] (not_none rs, s')
                    (gather_rev_event_loop only_a)
                    ltac:(apply (bool_decide_unpack _); vm_compute; reflexivity)
                    H)).
  vm_compute. reflexivity.
Defined.

(** ** One seen set for all domains *)

Lemma dotted_inj (la lb da db : list ascii) :
  "."%char ∉ la -> "."%char ∉ lb ->
  la ++ "."%char :: da = lb ++ "."%char :: db -> la = lb /\ da = db.
Proof.
  revert lb; induction la as [|c la IH]; intros [|c' lb] Ha Hb H; simpl in H.
  - injection H as ->. auto.
  - injection H as <- _. exfalso. apply Hb. left.
  - injection H as -> _. exfalso. apply Ha. left.
  - injection H as -> H. destruct (IH lb) as [-> ->]; [set_solver | set_solver | exact H | auto].
Qed.

(** A candidate determines its label and its domain, for labels without
    a dot. *)
Lemma full_domain_of_inj_pair (l1 l2 d1 d2 : string) :
  dot_free l1 -> dot_free l2 ->
  full_domain_of l1 d1 = full_domain_of l2 d2 -> l1 = l2 /\ d1 = d2.
Proof.
  unfold dot_free, full_domain_of. intros H1 H2 H.
  apply (f_equal list_ascii_of_string) in H.
  rewrite !list_ascii_of_string_app in H. simpl in H.
  apply dotted_inj in H as [Hl Hd]; [|assumption|assumption].
  split; apply list_ascii_of_string_inj; assumption.
Qed.

Lemma all_labels_dot_free (chars : string) (min_length max_length : Z) (l : string) :
  List.NoDup (list_ascii_of_string chars) ->
  dot_free chars ->
  l ∈ all_labels chars min_length max_length -> dot_free l.
Proof.
  intros Hnd Hdot Hl. unfold all_labels in Hl.
  apply list_elem_of_In, in_flat_map in Hl as (L & _ & Hl).
  destruct (generate_subdomains_spec chars (Z.of_nat (Z.to_nat L)) ltac:(lia) Hnd)
    as (ls & Hg & _ & _ & Hshape & _).
  assert (Hg' : generate_subdomains chars (Z.of_nat (Z.to_nat L)) = Ok (labels chars L)).
  { rewrite generate_subdomains_ok by lia. rewrite Nat2Z.id. reflexivity. }
  rewrite Hg' in Hg. injection Hg as <-.
  rewrite List.Forall_forall in Hshape. destruct (Hshape l Hl) as [_ Hdr].
  unfold dot_free in *. intros Hin. apply Hdot.
  unfold drawn_from in Hdr. rewrite List.Forall_forall in Hdr.
  apply list_elem_of_In, Hdr, list_elem_of_In. exact Hin.
Qed.

(** X12. The seen set shared by all domains causes no wrong skip: over an
    alphabet without a dot, a scan of a domain made after the scan of
    another domain on the same engine returns what it returns on the
    engine as it was before. *)
Theorem scan_domain_other_domain (net : network) (gather gather' : gatherer) (s : scanner)
        (domain1 domain2 : string) (min1 max1 min2 max2 : Z)
        (out1 out2 out2' : list result * scanner) :
  event_loop net gather -> event_loop net gather' ->
  List.NoDup (list_ascii_of_string (chars s)) ->
  dot_free (chars s) ->
  0 <= min1 -> 0 <= min2 -> 1 <= chunk_size s ->
  domain2 <> domain1 ->
  scan_domain gather s domain1 min1 max1 = Ok out1 ->
  scan_domain gather out1.2 domain2 min2 max2 = Ok out2 ->
  scan_domain gather' s domain2 min2 max2 = Ok out2' ->
  out2.1 = out2'.1.
Proof.
  intros Hloop Hloop' Hnd Hdot Hm1 Hm2 Hcs Hneq H1 H2 H2'.
  pose proof (scan_lengths_frame net gather domain1 _ Hloop _ _ _ H1)
    as ((_ & Hmr & Hcs1 & Hch) & _ & _).
  destruct (scan_domain_spec net gather s domain1 min1 max1 out1 Hloop Hnd Hm1 Hcs H1)
    as (_ & _ & Hseen).
  destruct (scan_domain_spec net gather out1.2 domain2 min2 max2 out2 Hloop)
    as (_ & -> & _); [rewrite Hch; exact Hnd | exact Hm2 | lia | exact H2 |].
  destruct (scan_domain_spec net gather' s domain2 min2 max2 out2' Hloop' Hnd Hm2 Hcs H2')
    as (_ & -> & _).
  rewrite Hch, Hmr. f_equal. apply map_ext_in. intros l Hl.
  apply expected_ext. rewrite Hseen, elem_of_union, elem_of_list_to_set.
  split; [|auto]. intros [Hin|Hin]; [exact Hin|]. exfalso.
  apply list_elem_of_fmap in Hin as (l1 & Heq & Hl1).
  apply full_domain_of_inj_pair in Heq as [_ Heq]; [contradiction| |].
  - eapply all_labels_dot_free; eauto. apply list_elem_of_In; exact Hl.
  - eapply all_labels_dot_free; eauto.
Qed.

Lemma default_chars_dot_free : dot_free default_chars.
Proof. apply (bool_decide_unpack _). vm_compute. reflexivity. Qed.

Lemma scan_domain_other_domain_witness :
  exists out1 out2 out2',
    scan_domain (gather_seq only_a) default_scanner "example.org" 1 1 = Ok out1
    /\ scan_domain (gather_seq only_a) out1.2 "example.com" 1 1 = Ok out2
    /\ scan_domain (gather_rev only_a) default_scanner "example.com" 1 1 = Ok out2'
    /\ out2.1 = out2'.1.
Proof.
  destruct (scan_domain_returns only_a (gather_seq only_a) default_scanner
              "example.org" 1 1) as (out1 & H1);
    [apply gather_seq_event_loop | exact default_chars_NoDup | lia
     | simpl; lia | simpl; lia |].
  pose proof (scan_lengths_frame only_a (gather_seq only_a) "example.org" _
                (gather_seq_event_loop only_a) _ _ _ H1) as ((_ & _ & Hcs & Hch) & Hrate & _).
  destruct (scan_domain_returns only_a (gather_seq only_a) out1.2
              "example.com" 1 1) as (out2 & H2);
    [apply gather_seq_event_loop | rewrite Hch; exact default_chars_NoDup | lia
     | rewrite Hcs; simpl; lia | rewrite Hrate; simpl; lia |].
  destruct (scan_domain_returns only_a (gather_rev only_a) default_scanner
              "example.com" 1 1) as (out2' & H2');
    [apply gather_rev_event_loop | exact default_chars_NoDup | lia
     | simpl; lia | simpl; lia |].
  exists out1, out2, out2'. split; [exact H1 | split; [exact H2 | split; [exact H2'|]]].
  apply (scan_domain_other_domain only_a (gather_seq only_a) (gather_rev only_a)
           default_scanner "example.org" "example.com" 1 1 1 1 out1 out2 out2').
  - apply gather_seq_event_loop.
  - apply gather_rev_event_loop.
  - exact default_chars_NoDup.
  - exact default_chars_dot_free.
  - lia.
  - lia.
  - simpl; lia.
  - discriminate.
  - exact H1.
  - exact H2.
  - exact H2'.
Defined.

(** ** The domains file *)

(** A scan whose candidates have all been seen returns the empty list,
    slot or no slot, and leaves the seen set as it is. *)
Lemma scan_domain_all_seen (net : network) (gather : gatherer) (s : scanner)
      (domain : string) (min_length max_length : Z) :
  event_loop net gather ->
  List.NoDup (list_ascii_of_string (chars s)) ->
  0 <= min_length -> 1 <= chunk_size s ->
  (forall l, l ∈ all_labels (chars s) min_length max_length ->
             full_domain_of l domain ∈ seen_subdomains s) ->
  exists s2,
    scan_domain gather s domain min_length max_length = Ok ([], s2)
    /\ same_config s s2 /\ rate_limiter s2 = rate_limiter s
    /\ seen_subdomains s2 = seen_subdomains s.
Proof.
  intros Hloop Hch Hmin Hcs Hall.
  assert (Hpos : Forall (fun L => 0 <= L) (range2 min_length (max_length + 1))).
  { eapply List.Forall_impl; [|apply range2_lower]. simpl; intros; lia. }
  destruct (scan_lengths_returns net gather domain (range2 min_length (max_length + 1))
              Hloop s [] Hpos) as ([rs s2] & H).
  { lia. }
  { apply scanned_NoDup; [exact Hch | apply range2_NoDup | exact Hpos]. }
  { right. rewrite scanned_pos by exact Hcs. exact Hall. }
  fold (scan_domain gather s domain min_length max_length) in H.
  destruct (scan_domain_spec net gather s domain min_length max_length _
              Hloop Hch Hmin Hcs H) as (_ & Hres & Hseen).
  pose proof (scan_lengths_frame net gather domain _ Hloop _ _ _ H) as (Hc & Hr & _).
  simpl in *. exists s2.
  assert (rs = []) as ->.
  { rewrite Hres. apply not_none_all_none. intros l Hl. unfold expected.
    rewrite decide_True; [reflexivity | apply Hall; exact Hl]. }
  split; [exact H | split; [exact Hc | split; [exact Hr|]]].
  rewrite Hseen. apply set_eq. intros x. rewrite elem_of_union, elem_of_list_to_set.
  split; [|auto]. intros [Hx|Hx]; [exact Hx|].
  apply list_elem_of_fmap in Hx as (l & -> & Hl). apply Hall, Hl.
Qed.

(** The loop over distinct domains, from an engine [s1] that differs from
    [s] by candidates of other domains only. *)
Lemma process_domains_distinct (net : network) (gather : gatherer) (s : scanner)
      (domains : list string) :
  event_loop net gather ->
  List.NoDup (list_ascii_of_string (chars s)) ->
  dot_free (chars s) ->
  1 <= chunk_size s -> 1 <= rate_limiter s ->
  forall (s1 : scanner) (written : list (list string)),
    same_config s s1 -> rate_limiter s1 = rate_limiter s ->
    (forall d l, d ∈ domains -> l ∈ file_labels s ->
                 full_domain_of l d ∈ seen_subdomains s1
                 <-> full_domain_of l d ∈ seen_subdomains s) ->
    NoDup domains ->
    exists s',
      process_domains gather domains s1 written
      = (written ++ flat_map (rows_for net s) domains, Ok s').
Proof.
  intros Hloop Hch Hdot Hcs Hrate.
  induction domains as [|d domains IH]; intros s1 written Hcfg Hr1 Hseen Hnd; simpl.
  - exists s1. rewrite List.app_nil_r. reflexivity.
  - apply NoDup_cons in Hnd as [Hd Hnd].
    destruct Hcfg as (Hc1 & Hmr1 & Hcs1 & Hch1).
    destruct (scan_domain_returns net gather s1 d 1 3) as (out & H);
      [exact Hloop | rewrite Hch1; exact Hch | lia | lia | lia |].
    rewrite H.
    destruct (scan_domain_spec net gather s1 d 1 3 out Hloop)
      as (_ & Hres & Hseen'); [rewrite Hch1; exact Hch | lia | lia | exact H |].
    pose proof (scan_lengths_frame net gather d _ Hloop _ _ _ H) as (Hc & Hr & _).
    rewrite Hch1, Hmr1 in Hres. rewrite Hch1 in Hseen'. fold (file_labels s) in Hres, Hseen'.
    assert (Hrows : rows_of d out.1 = rows_for net s d).
    { unfold rows_for. rewrite Hres. f_equal. f_equal. apply map_ext_in. intros l Hl.
      apply expected_ext. apply Hseen; [left | apply list_elem_of_In; exact Hl]. }
    rewrite Hrows.
    destruct (IH out.2 (written ++ rows_for net s d)) as (s' & Hrest).
    + eapply same_config_trans; [|exact Hc]. repeat split; assumption.
    + lia.
    + intros d' l Hd' Hl. rewrite Hseen', elem_of_union, elem_of_list_to_set.
      rewrite <- (Hseen d' l) by (try right; assumption).
      split; [|auto]. intros [Hin|Hin]; [exact Hin|]. exfalso.
      apply list_elem_of_fmap in Hin as (l1 & Heq & Hl1).
      apply full_domain_of_inj_pair in Heq as [_ Heq].
      * subst d'. contradiction.
      * eapply all_labels_dot_free; eauto.
      * eapply all_labels_dot_free; eauto.
    + exact Hnd.
    + exists s'. rewrite Hrest, <- List.app_assoc. reflexivity.
Qed.



Lemma process_domains_app (gather : gatherer) (ds ds' : list string) :
  forall (s : scanner) (written : list (list string)),
    process_domains gather (ds ++ ds') s written
    = match process_domains gather ds s written with
      | (written', Ok s') => process_domains gather ds' s' written'
      | other => other
      end.
Proof.
  induction ds as [|d ds IH]; intros s written; simpl; [reflexivity|].
  destruct (scan_domain gather s d 1 3) as [out| |]; [apply IH | reflexivity | reflexivity].
Qed.

(** When the loop over the domains has returned, every candidate of every
    domain it went through is in the seen set. *)
Lemma process_domains_seen (net : network) (gather : gatherer) (ds : list string) :
  event_loop net gather ->
  forall (s s' : scanner) (written written' : list (list string)),
    List.NoDup (list_ascii_of_string (chars s)) -> 1 <= chunk_size s ->
    process_domains gather ds s written = (written', Ok s') ->
    same_config s s'
    /\ seen_subdomains s ⊆ seen_subdomains s'
    /\ forall d l, d ∈ ds -> l ∈ file_labels s ->
                   full_domain_of l d ∈ seen_subdomains s'.
Proof.
  intros Hloop. induction ds as [|d ds IH]; intros s s' written written' Hch Hcs H; simpl in H.
  - simplify_eq. split; [apply same_config_refl | split; [reflexivity|]].
    intros d l Hd. inversion Hd.
  - destruct (scan_domain gather s d 1 3) as [out| |] eqn:Hscan; try discriminate.
    destruct (scan_domain_spec net gather s d 1 3 out Hloop Hch ltac:(lia) Hcs Hscan)
      as (_ & _ & Hseen).
    pose proof (scan_lengths_frame net gather d _ Hloop _ _ _ Hscan)
      as ((Hc1 & Hmr1 & Hcs1 & Hch1) & _ & Hsub).
    apply IH in H as (Hc' & Hsub' & Hall); [|rewrite Hch1; exact Hch | lia].
    split; [|split].
    + eapply same_config_trans; [|exact Hc']. repeat split; assumption.
    + etransitivity; eassumption.
    + intros d' l Hd' Hl. apply elem_of_cons in Hd' as [->|Hd'].
      * apply Hsub'. rewrite Hseen. apply elem_of_union; right.
        apply elem_of_list_to_set, list_elem_of_fmap. eauto.
      * apply Hall; [exact Hd'|]. unfold file_labels in *. rewrite Hch1. exact Hl.
Qed.

(** X14. A domain that the file lists again contributes nothing the
    second time: when [process_domains_file] has returned for the rows of
    a file, appending a row for a domain already in the file leaves the
    output as it was. *)
Theorem process_domains_file_repeat (net : network) (gather : gatherer) (s s' : scanner)
        (rows written : list (list string)) (domain : string) (cols : list string) :
  event_loop net gather ->
  List.NoDup (list_ascii_of_string (chars s)) ->
  1 <= chunk_size s ->
  domain ∈ domains_of rows ->
  process_domains_file gather s rows = (written, Ok s') ->
  exists s'',
    process_domains_file gather s (rows ++ [domain :: cols]) = (written, Ok s'').
Proof.
  intros Hloop Hch Hcs Hd H. unfold process_domains_file, domains_of in *.
  rewrite omap_app. simpl. rewrite process_domains_app, H.
  destruct (process_domains_seen net gather _ Hloop _ _ _ _ Hch Hcs H)
    as ((_ & _ & Hcs' & Hch') & _ & Hall).
  destruct (scan_domain_all_seen net gather s' domain 1 3 Hloop) as (s2 & Hscan & _);
    [rewrite Hch'; exact Hch | lia | lia | |].
  { intros l Hl. apply Hall; [exact Hd|]. unfold file_labels. rewrite <- Hch'. exact Hl. }
  simpl. rewrite Hscan. simpl. exists s2. rewrite List.app_nil_r. reflexivity.
Qed.

Lemma process_domains_file_repeat_witness :
  exists written s' s'',
    process_domains_file (gather_seq only_a) default_scanner [["example.com"]]
    = (written, Ok s')
    /\ process_domains_file (gather_seq only_a) default_scanner
                            ([["example.com"]] ++ [["example.com"; "again"]])
       = (written, Ok s'').
Proof.
  destruct (process_domains_distinct only_a (gather_seq only_a) default_scanner
              ["example.com"] (gather_seq_event_loop only_a) default_chars_NoDup
              default_chars_dot_free ltac:(simpl; lia) ltac:(simpl; lia)
              default_scanner [header] (same_config_refl _) eq_refl) as (s' & H);
    [intros; reflexivity | apply NoDup_singleton |].
  destruct (process_domains_file_repeat only_a (gather_seq only_a) default_scanner s'
              [["example.com"]] _ "example.com" ["again"]
              (gather_seq_event_loop only_a) default_chars_NoDup
              ltac:(simpl; lia) ltac:(left) H) as (s'' & H').
  eexists _, s', s''. split; [exact H | exact H'].
Defined.

(** X15. When [chunk_size] is zero and the file lists a domain,
    [process_domains_file] writes the header, the first scan raises
    [ValueError], and the exception reaches the caller with the header as
    the only row written. *)
Theorem process_domains_file_raises (gather : gatherer) (s : scanner)
        (rows : list (list string)) (domain : string) (domains : list string) :
  chunk_size s = 0 ->
  domains_of rows = domain :: domains ->
  process_domains_file gather s rows = ([header], Raises ValueError).
Proof.
  intros Hcs Hd. unfold process_domains_file. rewrite Hd. simpl.
  unfold scan_domain. rewrite range2_cons by lia.
  rewrite scan_lengths_zero_chunk by (lia || exact Hcs). reflexivity.
Qed.

Lemma process_domains_file_raises_witness :
  process_domains_file (gather_seq only_a) (Scanner 50 2 0 default_chars ∅ 50 [])
                       [[]; ["example.com"]]
  = ([header], Raises ValueError).
Proof.
  apply (process_domains_file_raises _ _ _ "example.com" []); reflexivity.
Defined.

(** ** The session *)

Lemma probe_failed (net : network) (mr : Z) (fd : string) :
  (forall a, net (url_of fd) a = Failed) -> probe net mr fd = None.
Proof.
  intros H. unfold probe. rewrite attempts_all_fail; [reflexivity|].
  intros a _. rewrite H. reflexivity.
Qed.

(** X16. An engine whose session was never opened, or has been closed,
    raises nothing for that to its caller: every returned scan reports
    nothing. *)
Theorem scan_without_session (net : network) (se : session) (gather : gatherer)
        (s : scanner) (domain : string) (min_length max_length : Z)
        (out : list result * scanner) :
  se <> Opened ->
  event_loop (through se net) gather ->
  List.NoDup (list_ascii_of_string (chars s)) ->
  scan_domain gather s domain min_length max_length = Ok out ->
  out.1 = [].
Proof.
  intros Hse Hloop Hch H.
  assert (Hfail : forall url a, through se net url a = Failed).
  { destruct se; [reflexivity | contradiction | reflexivity]. }
  destruct (scan_domain_ok_inv _ _ _ _ _ _ H) as [Hnil | [Hmin Hcs]].
  - unfold scan_domain in H. rewrite Hnil in H. simpl in H. simplify_eq. reflexivity.
  - destruct (Z.lt_ge_cases (chunk_size s) 0) as [Hneg|Hpos].
    + unfold scan_domain in H. rewrite scan_lengths_negative_chunk in H.
      * simplify_eq. reflexivity.
      * exact Hneg.
      * eapply List.Forall_impl; [|apply range2_lower]. simpl; intros; lia.
    + destruct (scan_domain_spec (through se net) gather s domain min_length max_length out
                  Hloop Hch Hmin ltac:(lia) H) as (_ & -> & _).
      apply not_none_all_none. intros l _. unfold expected.
      destruct (decide _); [reflexivity|]. apply probe_failed. intros a. apply Hfail.
Qed.

Lemma scan_without_session_witness :
  exists out,
    scan_domain (gather_seq (through (aexit (aenter Unset)) only_a)) default_scanner
                "example.com" 1 1 = Ok out
    /\ out.1 = [].
Proof.
  destruct (scan_domain_returns (through (aexit (aenter Unset)) only_a)
              (gather_seq (through (aexit (aenter Unset)) only_a)) default_scanner
              "example.com" 1 1) as (out & H1);
    [apply gather_seq_event_loop | exact default_chars_NoDup | lia
     | simpl; lia | simpl; lia |].
  exists out. split; [exact H1|].
  apply (scan_without_session only_a (aexit (aenter Unset))
           (gather_seq (through (aexit (aenter Unset)) only_a)) default_scanner
           "example.com" 1 1 out).
  - discriminate.
  - apply gather_seq_event_loop.
  - exact default_chars_NoDup.
  - exact H1.
Defined.

(** ** The program *)

(** X17. [main], with the session opened by [__aenter__] and under any
    event loop, on a file of pairwise distinct domains: the constructor
    does not raise, and the output is the header followed by the rows of
    the found outcomes of lengths 1 to 3 of each domain, in the order of
    the file. *)
Theorem main_output (net : network) (gather : gatherer) (rows : list (list string)) :
  event_loop (through (aenter Unset) net) gather ->
  NoDup (domains_of rows) ->
  exists s',
    main gather rows
    = (header :: flat_map (rows_for net default_scanner) (domains_of rows), Ok s').
Proof.
  intros Hloop Hnd. unfold main. simpl init. fold default_scanner.
  unfold process_domains_file.
  destruct (process_domains_distinct net gather default_scanner (domains_of rows) Hloop
              default_chars_NoDup default_chars_dot_free ltac:(simpl; lia) ltac:(simpl; lia)
              default_scanner [header] (same_config_refl _) eq_refl) as (s' & H);
    [intros; reflexivity | exact Hnd |].
  exists s'. exact H.
Qed.

Lemma main_output_witness :
  exists s',
    main (gather_seq only_a) [["example.com"]; ["example.org"]]
    = (header :: flat_map (rows_for only_a default_scanner)
                          (domains_of [["example.com"]; ["example.org"]]),
       Ok s').
Proof.
  apply (main_output only_a (gather_seq only_a) [["example.com"]; ["example.org"]]).
  - apply gather_seq_event_loop.
  - apply (bool_decide_unpack _). vm_compute. reflexivity.
Defined.

(** ** The generator over any alphabet *)

(** X18. For any alphabet without repeated characters and any length
    that is not negative, length 0 included, [generate_subdomains]
    returns [len(chars) ^ length] pairwise distinct labels of that length
    over the alphabet, in lexicographic order over the order of the
    alphabet. *)
Theorem generate_subdomains_any_alphabet (chars : string) (length : Z) :
  0 <= length ->
  List.NoDup (list_ascii_of_string chars) ->
  exists l,
    generate_subdomains chars length = Ok l
    /\ len l = Z.of_nat (String.length chars) ^ length
    /\ List.NoDup l
    /\ Forall (fun x => Z.of_nat (String.length x) = length /\ drawn_from chars x) l
    /\ StronglySorted (label_lt chars) l.
Proof. intros Hlen Hnd. exact (generate_subdomains_spec chars length Hlen Hnd). Qed.

Lemma generate_subdomains_any_alphabet_witness :
  exists l, generate_subdomains "ba" 2 = Ok l /\ len l = 2 ^ 2.
Proof.
  destruct (generate_subdomains_any_alphabet "ba" 2) as (l & H1 & H2 & _).
  - lia.
  - apply NoDup_ListNoDup, (bool_decide_unpack _). vm_compute. reflexivity.
  - exists l. split; [exact H1 | exact H2].
Defined.
